(** * Dice-Game: the fair-random commitment and the win-probability engine

    A shallow embedding of [game.js].  The classes of the program appear
    as modules of the same names ([Dice], [DiceParser],
    [FairRandomGenerator], [ProbabilityCalculator], [Game]); the Node.js
    runtime the program talks to ([crypto], [Buffer], [readline-sync],
    [process.exit]) is a small explicit model in front of them.

    Conventions of the embedding.
    - A JavaScript Number that the program uses as an integer (a face, a
      range size, a secret, a contribution, a counter) is a [Z], with the
      [+] and [%] of [Z]: binary64 is exact on the safe integers, those up
      to 2^53 - 1.  Range sizes, secrets and contributions stay below
      2^48, because [crypto.randomInt] refuses a wider range.  A statement
      about other integers (the faces [parseInt] reads, a contribution
      that is not checked) asks for safe integers.
    - A Number that results from [/], [+] on quotients, or [%] is a
      [number]: the rational a finite binary64 value stands for, or one of
      [Infinity], [-Infinity], [NaN].  [/] and [+] round their exact result
      to binary64, to the nearest value and to the even significand on a
      tie, as IEEE 754 and ECMAScript prescribe.  The sign of zero is not
      represented.
    - A string is the sequence of its code units, here those below 256;
      [toUpperCase] is the one of the ASCII letters.
    - An object reference is the address [new] gave it; [===] on objects
      compares addresses.
    - The user's lines come from the terminal of the process, through
      readline-sync: [question] returns the line typed without the white
      space around it, and throws when there is no terminal.
    - A method call ends in a [completion]: it returns, throws, ends the
      process, or waits for input that never comes.
    - [console.log] is left out: nothing in the program reads it back. *)

From Stdlib Require Import ZArith QArith Qcanon List String Ascii Lia Bool.
From Stdlib Require Import Permutation.
From Stdlib Require Import Strings.Byte.
Import ListNotations.

Local Open Scope string_scope.
Local Open Scope Z_scope.

(** ** Completions *)

(** The exceptions the program can meet: its own [new Error(message)], the
    two errors Node's argument validation raises, with the name of the
    offending argument, and the [Error] readline-sync throws when the
    process has no terminal to read from. *)
Inductive exn : Type :=
| Error (message : string)
| ERR_OUT_OF_RANGE (name : string)
| ERR_INVALID_ARG_TYPE (name : string)
| TTY_UNAVAILABLE.

Inductive completion (A : Type) : Type :=
| Normal (a : A)
| Throw (e : exn)
| Exit (code : Z)
| Blocked.

Arguments Normal {A} a.
Arguments Throw {A} e.
Arguments Exit {A} code.
Arguments Blocked {A}.

Definition cbind {A B} (c : completion A) (k : A -> completion B) : completion B :=
  match c with
  | Normal a => k a
  | Throw e => Throw e
  | Exit n => Exit n
  | Blocked => Blocked
  end.

(** [for (const a of l) { ... }] over a body that may throw. *)
Fixpoint cmapM {A B} (f : A -> completion B) (l : list A) : completion (list B) :=
  match l with
  | [] => Normal []
  | a :: l' => cbind (f a) (fun b => cbind (cmapM f l') (fun bs => Normal (b :: bs)))
  end.

(** ** Numbers *)

Inductive number : Type :=
| Num (q : Qc)
| Infinity
| NegInfinity
| NaN.

Definition of_Z (z : Z) : number := Num (Q2Qc (inject_Z z)).

Definition Qc_sgn (q : Qc) : comparison := (Qnum (this q) ?= 0)%Z.

(** *** Rounding to binary64

    The Number value for a rational [x] (ECMAScript 6.1.6.1): the binary64
    value nearest to [x], the one with the even significand when two are
    equally near, and an infinity from [2^1024] on.  A binary64 value is
    [n * 2^e] with [|n| < 2^53] and [-1074 <= e]; for [x] between [2^k]
    and [2^(k+1)] the values around [x] are the multiples of [2^(k-52)],
    and below [2^-1022] those of [2^-1074]. *)

(** The numerator and the denominator of [(a / b) / 2^e]. *)
Definition scaled (a b e : Z) : Z * Z :=
  if 0 <=? e then (a, b * 2 ^ e) else (a * 2 ^ (- e), b).

(** The integer nearest to [N / D], the even one of two that are equally
    near. *)
Definition round_half_even (N D : Z) : Z :=
  let f := N / D in
  match 2 * (N mod D) ?= D with
  | Lt => f
  | Gt => f + 1
  | Eq => if Z.even f then f else f + 1
  end.

(** The greatest [k] with [2^k <= a / b], for positive [a] and [b]. *)
Definition floor_log2 (a b : Z) : Z :=
  let k := Z.log2 a - Z.log2 b in
  let '(N, D) := scaled a b k in
  if D <=? N then k else k - 1.

(** [n * 2^e] *)
Definition times_pow2 (n e : Z) : Qc :=
  if 0 <=? e then Q2Qc (inject_Z (n * 2 ^ e))
  else Q2Qc (Qmake n (Z.to_pos (2 ^ (- e)))).

Definition binary64 (x : Qc) : number :=
  let a := Z.abs (Qnum x) in
  let b := Zpos (Qden x) in
  if a =? 0 then Num (Q2Qc 0)
  else
    let e := Z.max (floor_log2 a b) (-1022) - 52 in
    let '(N, D) := scaled a b e in
    let n := round_half_even N D in
    if 2 ^ 1024 <=? n * 2 ^ e
    then (if 0 <? Qnum x then Infinity else NegInfinity)
    else Num (times_pow2 (Z.sgn (Qnum x) * n) e).

(** Half the distance between two neighbours in binary64 from 1/2 to 1. *)
Definition half_ulp_below_one : Qc := Q2Qc (1 # Z.to_pos (2 ^ 54)).

(** [a + b] *)
Definition num_add (a b : number) : number :=
  match a, b with
  | NaN, _ | _, NaN => NaN
  | Infinity, NegInfinity | NegInfinity, Infinity => NaN
  | Infinity, _ | _, Infinity => Infinity
  | NegInfinity, _ | _, NegInfinity => NegInfinity
  | Num p, Num q => binary64 (p + q)%Qc
  end.

(** [a - b] *)
Definition num_sub (a b : number) : number :=
  match a, b with
  | NaN, _ | _, NaN => NaN
  | Infinity, Infinity | NegInfinity, NegInfinity => NaN
  | Infinity, _ | _, NegInfinity => Infinity
  | NegInfinity, _ | _, Infinity => NegInfinity
  | Num p, Num q => binary64 (p - q)%Qc
  end.

(** [a / b]; a zero divisor is [+0]. *)
Definition num_div (a b : number) : number :=
  match a, b with
  | NaN, _ | _, NaN => NaN
  | Num p, Num q =>
      match Qc_sgn q with
      | Eq => match Qc_sgn p with Eq => NaN | Gt => Infinity | Lt => NegInfinity end
      | _ => binary64 (p / q)%Qc
      end
  | Num _, _ => Num (Q2Qc 0)
  | Infinity, Num q => match Qc_sgn q with Lt => NegInfinity | _ => Infinity end
  | NegInfinity, Num q => match Qc_sgn q with Lt => Infinity | _ => NegInfinity end
  | _, _ => NaN
  end.

(** [a % b] on integers: the remainder has the sign of the dividend, and a
    zero divisor gives [NaN]. *)
Definition js_rem (a b : Z) : number :=
  if b =? 0 then NaN else of_Z (Z.rem a b).

(** [a > b] on numbers; a comparison with [NaN] is false. *)
Definition num_gt (a b : number) : bool :=
  match a, b with
  | NaN, _ | _, NaN => false
  | Infinity, Infinity => false
  | Infinity, _ => true
  | _, Infinity => false
  | NegInfinity, _ => false
  | _, NegInfinity => true
  | Num p, Num q => match (q ?= p)%Qc with Lt => true | _ => false end
  end.

(** [arr[n]]: the element when [n] is an integer index inside the array,
    [undefined] ([None]) otherwise. *)
Definition index {A} (arr : list A) (n : number) : option A :=
  match n with
  | Num q =>
      if ((Qden (this q) =? 1)%positive && (0 <=? Qnum (this q)))%bool
      then nth_error arr (Z.to_nat (Qnum (this q)))
      else None
  | _ => None
  end.

(** ** Bytes and their hexadecimal text *)

Definition byte_of_Z (z : Z) : byte :=
  match Byte.of_N (Z.to_N (z mod 256)) with
  | Some b => b
  | None => x00
  end.

Definition Z_of_byte (b : byte) : Z := Z.of_N (Byte.to_N b).

Definition hex_digit (n : Z) : ascii :=
  if n <? 10 then ascii_of_N (Z.to_N (48 + n)) else ascii_of_N (Z.to_N (87 + n)).

(** [buf.toString("hex")] *)
Fixpoint to_hex (bs : list byte) : string :=
  match bs with
  | [] => EmptyString
  | b :: bs' =>
      String (hex_digit (Z_of_byte b / 16))
        (String (hex_digit (Z_of_byte b mod 16)) (to_hex bs'))
  end.

Definition hex_value (c : ascii) : option Z :=
  let n := Z.of_N (N_of_ascii c) in
  if (48 <=? n) && (n <=? 57) then Some (n - 48)
  else if (97 <=? n) && (n <=? 102) then Some (n - 87)
  else if (65 <=? n) && (n <=? 70) then Some (n - 55)
  else None.

(** [Buffer.from(s, "hex")], as a verifier of the commitment uses it; it
    stops at the first pair that is not hexadecimal. *)
Fixpoint from_hex (s : string) : list byte :=
  match s with
  | String c1 (String c2 s') =>
      match hex_value c1, hex_value c2 with
      | Some h, Some l => byte_of_Z (16 * h + l) :: from_hex s'
      | _, _ => []
      end
  | _ => []
  end.

(** [buf.readUIntBE(0, n)] over the whole of [bs]. *)
Definition readUIntBE (bs : list byte) : Z :=
  fold_left (fun acc b => acc * 256 + Z_of_byte b) bs 0.

(** [Buffer.alloc(4)] followed by [writeUInt32BE(v)]: Node rejects a
    value outside 0 .. 2^32 - 1. *)
Definition writeUInt32BE (v : Z) : completion (list byte) :=
  if (0 <=? v) && (v <=? 4294967295)
  then Normal [byte_of_Z (v / 16777216); byte_of_Z (v / 65536);
               byte_of_Z (v / 256); byte_of_Z v]
  else Throw (ERR_OUT_OF_RANGE "value").

(** ** The runtime: random source and terminal *)

(** What the process has around it: the bytes the operating system's random
    source is going to deliver with a cursor on the next unread one, the
    lines the user is going to type, and whether there is a terminal to
    read them from. *)
Record World : Type := mkWorld {
  entropy : nat -> byte;
  cursor : nat;
  stdin : list string;
  tty : bool
}.

Definition M (A : Type) : Type := World -> completion A * World.

Definition ret {A} (a : A) : M A := fun w => (Normal a, w).

Definition bind {A B} (m : M A) (k : A -> M B) : M B :=
  fun w =>
    match m w with
    | (Normal a, w') => k a w'
    | (Throw e, w') => (Throw e, w')
    | (Exit n, w') => (Exit n, w')
    | (Blocked, w') => (Blocked, w')
    end.

Definition lift {A} (c : completion A) : M A := fun w => (c, w).

Declare Scope js_scope.
Delimit Scope js_scope with js.
Notation "x <- m ;; k" := (bind m (fun x => k))
  (at level 61, m at next level, right associativity) : js_scope.
Notation "' pat <- m ;; k" := (bind m (fun x => match x with pat => k end))
  (at level 61, pat pattern, m at next level, right associativity) : js_scope.

Definition read_entropy (n : nat) : M (list byte) :=
  fun w => (Normal (map (entropy w) (seq (cursor w) n)),
            mkWorld (entropy w) (cursor w + n) (stdin w) (tty w)).

(** [crypto.randomBytes(n)] *)
Definition randomBytes (n : nat) : M (list byte) := read_entropy n.

Definition MAX_SAFE_INTEGER : Z := 9007199254740991.
Definition RAND_MAX : Z := 281474976710655.

Definition isSafeInteger (z : Z) : bool :=
  (- MAX_SAFE_INTEGER <=? z) && (z <=? MAX_SAFE_INTEGER).

(** [crypto.randomInt(min, max)]: Node validates the bounds in this order,
    then reduces a 48-bit sample into the range.  Samples Node discards to
    keep the draw uniform are not on the tape: [entropy] holds the accepted
    one. *)
Definition randomInt (min max : Z) : M Z :=
  if negb (isSafeInteger min) then lift (Throw (ERR_INVALID_ARG_TYPE "min"))
  else if negb (isSafeInteger max) then lift (Throw (ERR_INVALID_ARG_TYPE "max"))
  else if max <=? min then lift (Throw (ERR_OUT_OF_RANGE "max"))
  else if negb (max - min <=? RAND_MAX) then lift (Throw (ERR_OUT_OF_RANGE "max - min"))
  else (sample <- read_entropy 6 ;;
        ret (Z.rem (readUIntBE sample) (max - min) + min))%js.

(** The keyed hash the program asks [crypto] for:
    [createHmac("sha3-256", key).update(data).digest()].  The development
    holds for any function in its place. *)
Class Crypto : Type := {
  hmac_sha3_256 : list byte -> list byte -> list byte
}.

(** ** Strings *)

Definition code (c : ascii) : Z := Z.of_N (N_of_ascii c).

(** White space as [trim] and [parseInt] see it: TAB, LF, VT, FF, CR, SP and
    the no-break space. *)
Definition isWhiteSpace (c : ascii) : bool :=
  ((9 <=? code c) && (code c <=? 13)) || (code c =? 32) || (code c =? 160).

Fixpoint trimStart (s : string) : string :=
  match s with
  | EmptyString => EmptyString
  | String c s' => if isWhiteSpace c then trimStart s' else s
  end.

Fixpoint rev_string (s acc : string) : string :=
  match s with
  | EmptyString => acc
  | String c s' => rev_string s' (String c acc)
  end.

Definition trimEnd (s : string) : string :=
  rev_string (trimStart (rev_string s EmptyString)) EmptyString.

(** [s.trim()] *)
Definition trim (s : string) : string := trimEnd (trimStart s).

Definition upper (c : ascii) : ascii :=
  if (97 <=? code c) && (code c <=? 122)
  then ascii_of_N (Z.to_N (code c - 32))
  else c.

(** [s.toUpperCase()] *)
Fixpoint toUpperCase (s : string) : string :=
  match s with
  | EmptyString => EmptyString
  | String c s' => String (upper c) (toUpperCase s')
  end.

(** [s.split(sep)] for a separator of one character; the result is never
    empty. *)
Fixpoint split (sep : ascii) (s : string) : list string :=
  match s with
  | EmptyString => [EmptyString]
  | String c s' =>
      if Ascii.eqb c sep then EmptyString :: split sep s'
      else match split sep s' with
           | [] => [String c EmptyString]
           | piece :: pieces => String c piece :: pieces
           end
  end.

(** [arr.includes(s)] on an array of strings. *)
Definition includes (arr : list string) (s : string) : bool :=
  existsb (String.eqb s) arr.

(** [arr.join(sep)] on an array of strings. *)
Fixpoint join (sep : string) (pieces : list string) : string :=
  match pieces with
  | [] => EmptyString
  | [piece] => piece
  | piece :: pieces' => piece ++ sep ++ join sep pieces'
  end.

(** The value of a character as a digit of radix 36. *)
Definition digit_value (c : ascii) : option Z :=
  if (48 <=? code c) && (code c <=? 57) then Some (code c - 48)
  else if (97 <=? code c) && (code c <=? 122) then Some (code c - 87)
  else if (65 <=? code c) && (code c <=? 90) then Some (code c - 55)
  else None.

(** The digits of the longest prefix of [s] written in radix [R]. *)
Fixpoint radix_digits (R : Z) (s : string) : list Z :=
  match s with
  | EmptyString => []
  | String c s' =>
      match digit_value c with
      | Some d => if d <? R then d :: radix_digits R s' else []
      | None => []
      end
  end.

Definition radix_value (R : Z) (ds : list Z) : Z :=
  fold_left (fun acc d => acc * R + d) ds 0.

Definition strip_sign (s : string) : Z * string :=
  match s with
  | String "-" s' => (-1, s')
  | String "+" s' => (1, s')
  | _ => (1, s)
  end.

Definition strip_0x (s : string) : option string :=
  match s with
  | String "0" (String "x" s') => Some s'
  | String "0" (String "X" s') => Some s'
  | _ => None
  end.

(** The radix [parseInt] reads in, and the text left once a "0x" that
    belongs to it is dropped: without a radix, 16 after "0x" and 10
    otherwise. *)
Definition choose_radix (radix : Z) (body : string) : Z * string :=
  match strip_0x body with
  | Some body' =>
      if (radix =? 0) || (radix =? 16) then (16, body') else (radix, body)
  | None => (if radix =? 0 then 10 else radix, body)
  end.

(** [parseInt(s, radix)], with [radix = 0] for a call without radix.
    [None] is [NaN].  The result is the integer the digits denote, which
    is the Number JavaScript returns as long as it is a safe integer. *)
Definition parseInt (s : string) (radix : Z) : option Z :=
  let '(sign, body) := strip_sign (trimStart s) in
  if negb (radix =? 0) && ((radix <? 2) || (36 <? radix)) then None
  else
    let '(R, digits) := choose_radix radix body in
    match radix_digits R digits with
    | [] => None
    | ds => Some (sign * radix_value R ds)
    end.

Definition digit_char (d : Z) : ascii := ascii_of_N (Z.to_N (48 + d)).

Fixpoint to_digits (fuel : nat) (n : Z) : list Z :=
  match fuel with
  | O => []
  | S fuel' => if n <? 10 then [n] else (to_digits fuel' (n / 10) ++ [n mod 10])%list
  end.

Definition string_of_digits (ds : list Z) : string :=
  fold_right (fun d s => String (digit_char d) s) EmptyString ds.

(** [n.toString()] for an integer. *)
Definition toString (n : Z) : string :=
  if n <? 0
  then String "-" (string_of_digits (to_digits (S (Z.to_nat (Z.log2 (- n)))) (- n)))
  else string_of_digits (to_digits (S (Z.to_nat (Z.log2 n))) n).

(** ** class Dice *)

Module Dice.

(** A [Dice] object: where [new] put it, and its [faces] array. *)
Record t : Type := new {
  addr : nat;
  faces : list Z
}.

Definition getFaces (d : t) : list Z := faces d.

Definition getFaceCount (d : t) : Z := Z.of_nat (List.length (faces d)).

(** [d === e] *)
Definition same (d e : t) : bool := Nat.eqb (addr d) (addr e).

(** [`[${this.faces.join(",")}]`]; a face prints as its decimal digits,
    which is what JavaScript does below 10^21. *)
Definition toString (d : t) : string :=
  "[" ++ join "," (map toString (faces d)) ++ "]".

End Dice.

(** ** class DiceParser *)

Module DiceParser.

Definition parse_face (face : string) : completion Z :=
  match parseInt (trim face) 0 with
  | None => Throw (Error ("Invalid Die face: " ++ face))
  | Some num => Normal num
  end.

(** The [for (const arg of args)] loop; [dice] is the array built so far,
    and the next [new Dice] lands at the address after the last one. *)
Fixpoint parse_args (args : list string) (dice : list Dice.t)
  : completion (list Dice.t) :=
  match args with
  | [] => Normal dice
  | arg :: args' =>
      cbind (cmapM parse_face (split "," arg)) (fun faces =>
        if Z.of_nat (List.length faces) <? 1
        then Throw (Error "A die must have at least one face")
        else parse_args args' (dice ++ [Dice.new (List.length dice) faces])%list)
  end.

Definition parseDice (args : list string) : completion (list Dice.t) :=
  if Z.of_nat (List.length args) <? 3
  then Throw (Error
    "At least 3 Dice are required. Example: node game.js 1,2,3 4,5,6 7,8,9")
  else parse_args args [].

End DiceParser.

(** ** class FairRandomGenerator *)

Module FairRandomGenerator.

Record t : Type := mk {
  rangeSize : Z;
  key : list byte;
  x : Z;
  hmac : string
}.

Section WithCrypto.
Context {crypto : Crypto}.

Definition computeHMAC (this : t) : completion string :=
  cbind (writeUInt32BE (x this)) (fun buffer =>
    Normal (to_hex (hmac_sha3_256 (key this) buffer))).

(** The fields are assigned in the order of the source: the key is
    drawn first, then the secret, then the digest is computed from
    both.  Until then [hmac] is not assigned, written here as the empty
    string. *)
Definition constructor (rangeSize : Z) : M t :=
  (key <- randomBytes 32 ;;
   x <- randomInt 0 (rangeSize + 1) ;;
   hmac <- lift (computeHMAC (mk rangeSize key x EmptyString)) ;;
   ret (mk rangeSize key x hmac))%js.

End WithCrypto.

Definition getHMAC (this : t) : string := hmac this.

(** [(this.x + counterpartValue) % (this.rangeSize + 1)]; the sum is the
    sum of integers, which is the one of binary64 among safe integers. *)
Definition computeResult (this : t) (y : Z) : completion number :=
  Normal (js_rem (x this + y) (rangeSize this + 1)).

Definition getX (this : t) : Z := x this.

Definition getKey (this : t) : string := to_hex (key this).

End FairRandomGenerator.

(** ** class ProbabilityCalculator *)

Module ProbabilityCalculator.

(** The two nested [for] loops, with [die1Wins] as the accumulator. *)
Definition count_wins (faces1 faces2 : list Z) : Z :=
  fold_left
    (fun die1Wins eachDie1Face =>
       fold_left
         (fun die1Wins eachDie2Face =>
            if eachDie1Face >? eachDie2Face then die1Wins + 1 else die1Wins)
         faces2 die1Wins)
    faces1 0.

Definition calculateWinProbability (die1 die2 : Dice.t) : completion number :=
  let totalFaces := Dice.getFaceCount die1 * Dice.getFaceCount die2 in
  let die1Wins := count_wins (Dice.getFaces die1) (Dice.getFaces die2) in
  Normal (num_div (of_Z die1Wins) (of_Z totalFaces)).

(** The [for (const eachDie of dice)] loop with its [continue]. *)
Fixpoint sum_others (die : Dice.t) (dice : list Dice.t) (total : number)
  : completion number :=
  match dice with
  | [] => Normal total
  | eachDie :: dice' =>
      if Dice.same die eachDie then sum_others die dice' total
      else cbind (calculateWinProbability die eachDie) (fun p =>
             sum_others die dice' (num_add total p))
  end.

Definition averageWinProbability (die : Dice.t) (dice : list Dice.t)
  : completion number :=
  cbind (sum_others die dice (of_Z 0)) (fun total =>
    Normal (num_div total (of_Z (Z.of_nat (List.length dice) - 1)))).

End ProbabilityCalculator.

(** ** class Game *)

Module Game.

Record t : Type := mk {
  dice : list Dice.t;
  userDie : option Dice.t;
  computerDie : option Dice.t
}.

Record throws : Type := mkThrows {
  userRoll : option Z;
  computerRoll : option Z
}.

(** What [readlineSync.question] returns for the line the user typed: the
    line without the white space around it ([keepWhitespace] is off by
    default). *)
Definition answer (line : string) : string := trim line.

(** The [do ... while (true)] of [performFairRoll] over the lines still to
    come: "X" leaves the process, "?" prints the help table and asks
    again, an answer that is not an option asks again, an option ends
    the loop. *)
Fixpoint choose (options : list string) (lines : list string)
  : completion string * list string :=
  match lines with
  | [] => (Blocked, [])
  | line :: rest =>
      let userChoice := toUpperCase (answer line) in
      if String.eqb userChoice "X" then (Exit 0, rest)
      else if String.eqb userChoice "?" then choose options rest
      else if negb (includes options userChoice) then choose options rest
      else (Normal userChoice, rest)
  end.

(** The loop in a process: without a terminal the first
    [readlineSync.question] throws; with one, the loop reads the lines
    the user types. *)
Definition prompt (options : list string) : M string :=
  fun w =>
    if tty w
    then let '(c, rest) := choose options (stdin w) in
         (c, mkWorld (entropy w) (cursor w) rest (tty w))
    else (Throw TTY_UNAVAILABLE, w).

(** [Array.from({ length: n }, (_, i) => i.toString())] *)
Definition make_options (n : Z) : list string :=
  map (fun i => toString (Z.of_nat i)) (seq 0 (Z.to_nat n)).

(** [new Game(dice)]: no die is chosen yet. *)
Definition constructor (dice : list Dice.t) : t := mk dice None None.

(** [this.dice.filter((die) => !exclude.includes(die))] *)
Definition available (dice exclude : list Dice.t) : list Dice.t :=
  filter (fun die => negb (existsb (Dice.same die) exclude)) dice.

(** The loop asks as the one of [performFairRoll] does, with the positions
    of the available dice as options; the answer indexes the available
    dice, and an index outside gives [undefined] ([None]). *)
Definition promptUserDieSelection (this : t) (exclude : list Dice.t)
  : M (option Dice.t) :=
  let availableDice := available (dice this) exclude in
  let options :=
    map (fun i => toString (Z.of_nat i)) (seq 0 (List.length availableDice)) in
  (userChoice <- prompt options ;;
   ret (index availableDice
          (match parseInt userChoice 10 with
           | Some i => of_Z i
           | None => NaN
           end)))%js.

(** The two [for (const die of availableDice.slice(1))] loops of
    [selectComputerDie]: they differ in the score only.  A die replaces
    the best one when its score is greater. *)
Fixpoint best_of (score : Dice.t -> completion number) (candidates : list Dice.t)
    (bestDie : Dice.t) (best : number) : completion Dice.t :=
  match candidates with
  | [] => Normal bestDie
  | die :: candidates' =>
      cbind (score die) (fun s =>
        if num_gt s best then best_of score candidates' die s
        else best_of score candidates' bestDie best)
  end.

Definition selectComputerDie (this : t) (exclude : list Dice.t)
  : completion Dice.t :=
  let availableDice := available (dice this) exclude in
  match availableDice with
  | [] => Throw (Error "No available dice to select")
  | first :: rest =>
      match exclude with
      | [] =>
          let score die :=
            ProbabilityCalculator.averageWinProbability die availableDice in
          cbind (score first) (fun bestAvg => best_of score rest first bestAvg)
      | chosen :: _ =>
          let score die :=
            ProbabilityCalculator.calculateWinProbability die chosen in
          cbind (score first) (fun bestWinProb =>
            best_of score rest first bestWinProb)
      end
  end.

(** [this.firstPlayer], which the record leaves out, comes beside it; the
    game with both dice assigned is returned.  A user die that is
    [undefined] makes the next use of it throw: inside
    [selectComputerDie] when the user chose first, at the final
    [toString] otherwise. *)
Definition selectDice (this : t) (firstPlayer : string) : M t :=
  if String.eqb firstPlayer "user"
  then
    (userDie <- promptUserDieSelection this [] ;;
     match userDie with
     | Some chosen =>
         (computerDie <- lift (selectComputerDie this [chosen]) ;;
          ret (mk (dice this) (Some chosen) (Some computerDie)))
     | None =>
         lift (Throw (Error
           match dice this with
           | [] => "No available dice to select"
           | _ => "Cannot read properties of undefined (reading 'getFaceCount')"
           end))
     end)%js
  else
    (computerDie <- lift (selectComputerDie this []) ;;
     userDie <- promptUserDieSelection this [computerDie] ;;
     match userDie with
     | Some chosen => ret (mk (dice this) (Some chosen) (Some computerDie))
     | None =>
         lift (Throw (Error
           "Cannot read properties of undefined (reading 'toString')"))
     end)%js.

Section WithCrypto.
Context {crypto : Crypto}.

(** The [console.log] calls are left out: nothing reads them back.  A
    [userY] that is [NaN] makes the sum [NaN]. *)
Definition performFairRoll (max : Z) : M number :=
  (fairRandom <- FairRandomGenerator.constructor max ;;
   userChoice <- prompt (make_options (max + 1)) ;;
   match parseInt userChoice 10 with
   | Some userY => lift (FairRandomGenerator.computeResult fairRandom userY)
   | None => ret NaN
   end)%js.

(** A die that is still [null] makes the first method call on it throw
    a [TypeError], written [Error] here. *)
Definition performThrows (this : t) : M throws :=
  match computerDie this, userDie this with
  | Some computerDie, Some userDie =>
      (computerRoll <- performFairRoll (Dice.getFaceCount computerDie - 1) ;;
       userRoll <- performFairRoll (Dice.getFaceCount userDie - 1) ;;
       ret (mkThrows (index (Dice.getFaces userDie) userRoll)
                     (index (Dice.getFaces computerDie) computerRoll)))%js
  | None, _ =>
      lift (Throw (Error "Cannot read properties of null (reading 'getFaceCount')"))
  | Some computerDie, None =>
      (computerRoll <- performFairRoll (Dice.getFaceCount computerDie - 1) ;;
       lift (Throw (Error "Cannot read properties of null (reading 'getFaceCount')")))%js
  end.

(** The loop accepts "0" and "1".  The user moves first when the guess is
    the computer's number; the sum modulo 2 is computed and printed
    only. *)
Definition DetermineFirstPlayer (this : t) : M string :=
  (fairRandom <- FairRandomGenerator.constructor 1 ;;
   userChoice <- prompt ["0"; "1"] ;;
   let userY := parseInt userChoice 0 in
   result <- match userY with
             | Some y => lift (FairRandomGenerator.computeResult fairRandom y)
             | None => ret NaN
             end ;;
   let computerChoice := FairRandomGenerator.getX fairRandom in
   ret (match userY with
        | Some y => if y =? computerChoice then "user" else "computer"
        | None => "computer"
        end))%js.

(** [try { ... } catch (e) { process.exit(1) }]; [declareWinner] only
    prints. *)
Definition start (this : t) : M unit :=
  fun w =>
    match (firstPlayer <- DetermineFirstPlayer this ;;
           this' <- selectDice this firstPlayer ;;
           rolls <- performThrows this' ;;
           ret tt)%js w with
    | (Throw e, w') => (Exit 1, w')
    | outcome => outcome
    end.

End WithCrypto.

End Game.

(** ** The script *)

(** The statements at the end of the file, run on [process.argv]. *)
Definition main {crypto : Crypto} (argv : list string) : M unit :=
  fun w =>
    let args := skipn 2 argv in
    match (if Z.of_nat (List.length args) <? 3
           then lift (Throw (Error
             "Incorrect number of Dice. Please, provide at least three dice!"))
           else (dice <- lift (DiceParser.parseDice args) ;;
                 Game.start (Game.constructor dice))%js) w with
    | (Throw e, w') => (Exit 1, w')
    | outcome => outcome
    end.

(** A stand-in for the keyed hash, to run the model on concrete inputs: the
    key followed by the data. *)
Definition concat_crypto : Crypto := {| hmac_sha3_256 := fun key data => (key ++ data)%list |}.

(** A random source that delivers zeros, and a user typing [lines] at a
    terminal. *)
Definition zero_world (lines : list string) : World :=
  mkWorld (fun _ => x00) 0 lines true.

(** The [n] low bytes of [v], most significant first. *)
Fixpoint writeUIntBE (v : Z) (n : nat) : list byte :=
  match n with
  | O => []
  | S n' => (writeUIntBE (v / 256) n' ++ [byte_of_Z v])%list
  end.

(** A random source that delivers [bytes], then zeros. *)
Definition tape_world (bytes : list byte) (lines : list string) : World :=
  mkWorld (fun i => nth i bytes x00) 0 lines true.

(** A random source whose bytes differ, and a user typing [lines] at a
    terminal. *)
Definition counting_world (lines : list string) : World :=
  mkWorld (fun i => byte_of_Z (37 * Z.of_nat i + 12)) 0 lines true.

(** The same random source in a process without a terminal. *)
Definition detached_world : World :=
  mkWorld (fun i => byte_of_Z (37 * Z.of_nat i + 12)) 0 [] false.

(** ** Notions of the specification *)

(** The exact quotient of two integers. *)
Definition ratio (n d : Z) : Qc := (Q2Qc (inject_Z n) / Q2Qc (inject_Z d))%Qc.

(** The number of face pairs [(fa, fb)], [fa] from the first die and [fb]
    from the second, that [R] relates. *)
Definition count_pairs (R : Z -> Z -> bool) (a b : Dice.t) : Z :=
  Z.of_nat (List.length
    (filter (fun p => R (fst p) (snd p)) (list_prod (Dice.faces a) (Dice.faces b)))).

Definition wins : Dice.t -> Dice.t -> Z := count_pairs Z.gtb.
Definition losses : Dice.t -> Dice.t -> Z := count_pairs Z.ltb.
Definition ties : Dice.t -> Dice.t -> Z := count_pairs Z.eqb.

Definition total_pairs (a b : Dice.t) : Z :=
  Z.of_nat (List.length (Dice.faces a)) * Z.of_nat (List.length (Dice.faces b)).

(** The members of [pool] that are not the object [d]. *)
Definition others (d : Dice.t) (pool : list Dice.t) : list Dice.t :=
  filter (fun other => negb (Dice.same d other)) pool.

(** How often the object [d] occurs in [pool]. *)
Definition occurrences (d : Dice.t) (pool : list Dice.t) : nat :=
  List.length (filter (Dice.same d) pool).

(** The arithmetic mean of the pairwise win probabilities of [d] against
    the other members of [pool], summed from left to right. *)
Definition mean_against_others (d : Dice.t) (pool : list Dice.t) : completion number :=
  cbind (cmapM (ProbabilityCalculator.calculateWinProbability d) (others d pool))
    (fun ps =>
       Normal (num_div (fold_left num_add ps (of_Z 0))
                       (of_Z (Z.of_nat (List.length (others d pool)))))).


(** What an observer does with the revealed key and secret: decode the
    key, encode the secret on four bytes, hash again. *)
Definition recompute_digest {crypto : Crypto} (keyHex : string) (secret : Z)
  : completion string :=
  cbind (writeUInt32BE secret) (fun data =>
    Normal (to_hex (hmac_sha3_256 (from_hex keyHex) data))).

(** [n] is an index of [arr]. *)
Definition valid_index {A} (arr : list A) (n : number) : Prop :=
  exists a, index arr n = Some a.

(** A die the program can roll: it has a face, and no more faces than an
    array can hold. *)
Definition rollable (die : Dice.t) : Prop :=
  Dice.faces die <> [] /\ Dice.getFaceCount die <= 4294967295.

(** The dice of the usage example, as [parseDice] allocates them, and a
    game in which the computer took the first and the user the second. *)
Definition die_A : Dice.t := Dice.new 0 [2; 2; 4; 4; 9; 9].
Definition die_B : Dice.t := Dice.new 1 [6; 8; 1; 1; 8; 6].
Definition die_C : Dice.t := Dice.new 2 [7; 5; 3; 7; 5; 3].

Definition example_game : Game.t :=
  Game.mk [die_A; die_B; die_C] (Some die_B) (Some die_A).

(** ** Proof steps used more than once *)

(** Two closed computations that return the same rational. *)
Ltac number_eq :=
  vm_compute; apply (f_equal Normal); apply (f_equal Num);
  apply Qc_is_canon; reflexivity.

(** The ten cases of a decimal digit. *)
Ltac digit_cases d :=
  let H := fresh in
  assert (H : d = 0 \/ d = 1 \/ d = 2 \/ d = 3 \/ d = 4
              \/ d = 5 \/ d = 6 \/ d = 7 \/ d = 8 \/ d = 9) by lia;
  repeat (destruct H as [H|H]; [subst d|]); [..|subst d].

(** * Properties *)

(** ** Integers among the numbers *)

Lemma this_of_Z (z : Z) : this (Q2Qc (inject_Z z)) = inject_Z z.
Proof.
  change (Qred (inject_Z z) = inject_Z z).
  apply Qred_identity. simpl. apply Z.gcd_1_r.
Qed.

Lemma Qc_sgn_of_Z (z : Z) : Qc_sgn (Q2Qc (inject_Z z)) = (z ?= 0).
Proof.
  unfold Qc_sgn. rewrite this_of_Z. reflexivity.
Qed.

Lemma of_Z_inj (a b : Z) : of_Z a = of_Z b -> a = b.
Proof.
  intros H.
  assert (E : Q2Qc (inject_Z a) = Q2Qc (inject_Z b))
    by (unfold of_Z in H; congruence).
  apply (f_equal this) in E. rewrite !this_of_Z in E.
  unfold inject_Z in E. congruence.
Qed.

Lemma index_of_Z {A} (arr : list A) (i : Z) :
  0 <= i < Z.of_nat (List.length arr) -> valid_index arr (of_Z i).
Proof.
  intros Hi. unfold valid_index, index, of_Z. rewrite this_of_Z. simpl.
  replace (0 <=? i) with true by (symmetry; apply Z.leb_le; lia).
  destruct (nth_error arr (Z.to_nat i)) as [a|] eqn:E.
  - now exists a.
  - apply nth_error_None in E. lia.
Qed.

Lemma js_rem_nonneg (a b : Z) :
  0 <= a -> 0 < b -> js_rem a b = of_Z (a mod b).
Proof.
  intros Ha Hb. unfold js_rem.
  destruct (Z.eqb_spec b 0) as [->|_]; [lia|].
  now rewrite Z.rem_mod_nonneg by lia.
Qed.

Lemma Q2Qc_le (a b : Q) : (Q2Qc a <= Q2Qc b)%Qc <-> (a <= b)%Q.
Proof.
  unfold Qcle. cbn [this Q2Qc]. now rewrite !Qred_correct.
Qed.

Lemma Q2Qc_div (a b : Q) : (Q2Qc a / Q2Qc b)%Qc = Q2Qc (a / b).
Proof.
  apply Qc_is_canon. unfold Qcdiv, Qcmult, Qcinv. cbn [this Q2Qc].
  now rewrite !Qred_correct.
Qed.

Lemma Q2Qc_add (a b : Q) : (Q2Qc a + Q2Qc b)%Qc = Q2Qc (a + b).
Proof.
  apply Qc_is_canon. unfold Qcplus. cbn [this Q2Qc]. now rewrite !Qred_correct.
Qed.

Lemma ratio_bounds (n d : Z) :
  0 <= n <= d -> 0 < d -> (Q2Qc 0 <= ratio n d)%Qc /\ (ratio n d <= Q2Qc 1)%Qc.
Proof.
  intros Hn Hd. unfold ratio. rewrite Q2Qc_div, !Q2Qc_le.
  assert (Hd' : (0 < inject_Z d)%Q) by (unfold Qlt; simpl; lia).
  split.
  - apply Qle_shift_div_l; [exact Hd'|]. rewrite Qmult_0_l.
    unfold Qle; simpl; lia.
  - apply Qle_shift_div_r; [exact Hd'|]. rewrite Qmult_1_l.
    unfold Qle; simpl; lia.
Qed.

(** ** Rounding to binary64 *)

Lemma round_half_even_floor (N D : Z) :
  N / D <= round_half_even N D <= N / D + 1.
Proof.
  unfold round_half_even.
  destruct (2 * (N mod D) ?= D); [destruct (Z.even (N / D))| |]; lia.
Qed.

(** Rounding does not step over an integer. *)
Lemma round_half_even_le (N D m : Z) :
  0 < D -> N <= m * D -> round_half_even N D <= m.
Proof.
  intros HD Hle. unfold round_half_even.
  pose proof (Z.div_mod N D ltac:(lia)) as Hdm.
  pose proof (Z.mod_pos_bound N D HD) as Hr.
  assert (Hf : N / D <= m) by (apply Z.div_le_upper_bound; lia).
  destruct (Z.eq_dec (N / D) m) as [E|E].
  - assert (Hz : N mod D = 0) by nia. rewrite Hz.
    replace (2 * 0 ?= D) with Lt by (symmetry; apply Z.compare_lt_iff; lia).
    lia.
  - destruct (2 * (N mod D) ?= D); [destruct (Z.even (N / D))| |]; lia.
Qed.

Lemma round_half_even_ge (N D m : Z) :
  0 < D -> m * D <= N -> m <= round_half_even N D.
Proof.
  intros HD Hle.
  assert (Hf : m <= N / D) by (apply Z.div_le_lower_bound; lia).
  pose proof (round_half_even_floor N D). lia.
Qed.

(** The rounded integer is within one half of the quotient. *)
Lemma round_half_even_near (N D : Z) :
  0 < D -> 2 * Z.abs (round_half_even N D * D - N) <= D.
Proof.
  intros HD. unfold round_half_even.
  pose proof (Z.div_mod N D ltac:(lia)) as Hdm.
  pose proof (Z.mod_pos_bound N D HD) as Hr.
  destruct (Z.compare_spec (2 * (N mod D)) D) as [E|E|E];
    [destruct (Z.even (N / D))| |]; nia.
Qed.

Lemma scaled_nonneg (a b e : Z) :
  0 < a -> 0 < b -> 0 < fst (scaled a b e) /\ 0 < snd (scaled a b e).
Proof.
  intros Ha Hb. unfold scaled. destruct (Z.leb_spec 0 e); cbn [fst snd].
  - pose proof (Z.pow_pos_nonneg 2 e). nia.
  - pose proof (Z.pow_pos_nonneg 2 (- e)). nia.
Qed.

(** [2 ^ floor_log2 a b <= a / b] *)
Lemma floor_log2_below (a b : Z) :
  0 < a -> 0 < b ->
  snd (scaled a b (floor_log2 a b)) <= fst (scaled a b (floor_log2 a b)).
Proof.
  intros Ha Hb. unfold floor_log2.
  set (k := Z.log2 a - Z.log2 b).
  destruct (scaled a b k) as [N D] eqn:Es.
  destruct (Z.leb_spec D N) as [Hle|Hgt].
  - now rewrite Es.
  - pose proof (Z.log2_spec a Ha) as [Hla _].
    pose proof (Z.log2_spec b Hb) as [_ Hlb].
    pose proof (Z.log2_nonneg a) as Hna. pose proof (Z.log2_nonneg b) as Hnb.
    unfold scaled. destruct (Z.leb_spec 0 (k - 1)); cbn [fst snd].
    + assert (E : 2 ^ Z.log2 a = 2 ^ Z.succ (Z.log2 b) * 2 ^ (k - 1)).
      { rewrite <- Z.pow_add_r by lia. f_equal. subst k. lia. }
      pose proof (Z.pow_pos_nonneg 2 (k - 1)). nia.
    + assert (E : 2 ^ Z.succ (Z.log2 b) = 2 ^ Z.log2 a * 2 ^ (- (k - 1))).
      { rewrite <- Z.pow_add_r by lia. f_equal. subst k. lia. }
      pose proof (Z.pow_pos_nonneg 2 (- (k - 1))). nia.
Qed.

Lemma floor_log2_nonneg (a b : Z) :
  0 < b -> b <= a -> 0 <= floor_log2 a b.
Proof.
  intros Hb Hle. unfold floor_log2.
  pose proof (Z.log2_le_mono b a Hle) as Hmono.
  set (k := Z.log2 a - Z.log2 b) in *.
  destruct (Z.eq_dec k 0) as [E|E].
  - rewrite E. unfold scaled. cbn [Z.leb Z.compare Z.pow].
    change (2 ^ 0) with 1. rewrite Z.mul_1_r.
    destruct (Z.leb_spec b a); lia.
  - destruct (scaled a b k) as [N D]. destruct (D <=? N); lia.
Qed.

Lemma pow2_to_pos (e : Z) : 0 <= e -> Zpos (Z.to_pos (2 ^ e)) = 2 ^ e.
Proof.
  intros He. apply Z2Pos.id. now apply Z.pow_pos_nonneg.
Qed.

Lemma times_pow2_nonneg (n e : Z) : 0 <= n -> (Q2Qc 0 <= times_pow2 n e)%Qc.
Proof.
  intros Hn. unfold times_pow2. destruct (Z.leb_spec 0 e) as [He|He].
  - apply Q2Qc_le. unfold Qle. cbn [Qnum Qden inject_Z].
    pose proof (Z.pow_pos_nonneg 2 e). nia.
  - apply Q2Qc_le. unfold Qle. cbn [Qnum Qden]. lia.
Qed.

Lemma times_pow2_le_int (n e k : Z) :
  (0 <= e -> n * 2 ^ e <= k) -> (e < 0 -> n <= k * 2 ^ (- e)) ->
  (times_pow2 n e <= Q2Qc (inject_Z k))%Qc.
Proof.
  intros Hpos Hneg. unfold times_pow2. destruct (Z.leb_spec 0 e) as [He|He].
  - apply Q2Qc_le. unfold Qle. cbn [Qnum Qden inject_Z].
    specialize (Hpos He). lia.
  - apply Q2Qc_le. unfold Qle. cbn [Qnum Qden inject_Z].
    rewrite pow2_to_pos by lia. specialize (Hneg He). lia.
Qed.

(** The shape of the rounding of a positive rational. *)
Lemma binary64_positive (x : Qc) :
  0 < Qnum x ->
  let e := Z.max (floor_log2 (Qnum x) (Zpos (Qden x))) (-1022) - 52 in
  let n := round_half_even (fst (scaled (Qnum x) (Zpos (Qden x)) e))
                           (snd (scaled (Qnum x) (Zpos (Qden x)) e)) in
  binary64 x = if 2 ^ 1024 <=? n * 2 ^ e then Infinity else Num (times_pow2 n e).
Proof.
  intros Ha. cbv zeta. unfold binary64.
  rewrite (Z.abs_eq (Qnum x)) by lia.
  destruct (Z.eqb_spec (Qnum x) 0); [lia|].
  destruct (scaled _ _ _) as [N D]. cbn [fst snd].
  destruct (Z.ltb_spec 0 (Qnum x)); [|lia].
  rewrite Z.sgn_pos by lia. now rewrite Z.mul_1_l.
Qed.

Lemma Qc_nonneg (x : Qc) : (Q2Qc 0 <= x)%Qc <-> 0 <= Qnum x.
Proof.
  unfold Qcle, Qle. change (this (Q2Qc 0)) with 0%Q. cbn [Qnum Qden]. lia.
Qed.

Lemma Qc_le_int (x : Qc) (k : Z) :
  (x <= Q2Qc (inject_Z k))%Qc <-> Qnum x <= k * Zpos (Qden x).
Proof.
  unfold Qcle. rewrite this_of_Z. unfold Qle. cbn [Qnum Qden inject_Z]. lia.
Qed.

(** Rounding does not step over an integer that binary64 holds: a
    non-negative rational that is at most [k <= 2^53] rounds to a rational
    that is at most [k]. *)
Lemma binary64_le_int (x : Qc) (k : Z) :
  (Q2Qc 0 <= x)%Qc -> (x <= Q2Qc (inject_Z k))%Qc -> k <= 2 ^ 53 ->
  exists p, binary64 x = Num p
            /\ (Q2Qc 0 <= p)%Qc /\ (p <= Q2Qc (inject_Z k))%Qc.
Proof.
  intros Hlo Hhi Hk. apply Qc_nonneg in Hlo. apply Qc_le_int in Hhi.
  destruct (Z.eq_dec (Qnum x) 0) as [Hz|Hnz].
  - exists (Q2Qc 0). unfold binary64. rewrite Hz. cbn [Z.abs Z.eqb].
    split; [reflexivity|]. split; [apply Qcle_refl|].
    apply Qc_le_int. cbn [Qnum Qden this Q2Qc Qred]. simpl. lia.
  - assert (Ha : 0 < Qnum x) by lia.
    rewrite (binary64_positive x Ha). cbv zeta.
    set (a := Qnum x) in *. set (b := Zpos (Qden x)) in *.
    assert (Hb : 0 < b) by (subst b; lia).
    pose proof (floor_log2_below a b Ha Hb) as Hbelow.
    set (kx := floor_log2 a b) in *.
    assert (Hkx : kx <= 53).
    { destruct (Z_le_gt_dec kx 53) as [|Hbig]; [assumption|exfalso].
      unfold scaled in Hbelow. destruct (Z.leb_spec 0 kx); [|lia].
      cbn [fst snd] in Hbelow.
      assert (2 ^ 54 <= 2 ^ kx) by (apply Z.pow_le_mono_r; lia).
      assert (2 ^ 53 < 2 ^ 54) by (apply Z.pow_lt_mono_r; lia). nia. }
    set (e := Z.max kx (-1022) - 52).
    pose proof (scaled_nonneg a b e Ha Hb) as [HN HD].
    set (N := fst (scaled a b e)) in *. set (D := snd (scaled a b e)) in *.
    pose proof (round_half_even_floor N D) as Hfloor.
    assert (Hn0 : 0 <= round_half_even N D).
    { pose proof (Z.div_pos N D ltac:(lia) HD). lia. }
    assert (Hcases : e < 0 \/ e = 0 \/ (e = 1 /\ kx = 53)) by (subst e; lia).
    destruct Hcases as [He|[He|[He Hk53]]].
    + assert (Hn : round_half_even N D <= k * 2 ^ (- e)).
      { apply round_half_even_le; [exact HD|].
        subst N D. unfold scaled. destruct (Z.leb_spec 0 e); [lia|].
        cbn [fst snd]. pose proof (Z.pow_pos_nonneg 2 (- e)). nia. }
      replace (2 ^ e) with 0 by (symmetry; apply Z.pow_neg_r; lia).
      rewrite Z.mul_0_r.
      destruct (Z.leb_spec (2 ^ 1024) 0) as [Habs|_];
        [pose proof (Z.pow_pos_nonneg 2 1024); lia|].
      eexists. split; [reflexivity|]. split.
      * now apply times_pow2_nonneg.
      * apply times_pow2_le_int; lia.
    + assert (Hn : round_half_even N D <= k).
      { apply round_half_even_le; [exact HD|].
        subst N D. unfold scaled. rewrite He. cbn [Z.leb Z.compare fst snd].
        change (2 ^ 0) with 1. lia. }
      rewrite He. change (2 ^ 0) with 1. rewrite Z.mul_1_r.
      assert (2 ^ 53 < 2 ^ 1024) by (apply Z.pow_lt_mono_r; lia).
      destruct (Z.leb_spec (2 ^ 1024) (round_half_even N D)); [lia|].
      eexists. split; [reflexivity|]. split.
      * now apply times_pow2_nonneg.
      * apply times_pow2_le_int; [|lia]. intros _. change (2 ^ 0) with 1. lia.
    + assert (Hk' : k = 2 ^ 53).
      { unfold scaled in Hbelow. rewrite Hk53 in Hbelow.
        cbn [Z.leb Z.compare fst snd] in Hbelow. nia. }
      assert (Hn : round_half_even N D <= 2 ^ 52).
      { apply round_half_even_le; [exact HD|].
        subst N D. unfold scaled. rewrite He. cbn [Z.leb Z.compare fst snd].
        change (2 ^ 1) with 2. change (2 ^ 53) with (2 ^ 52 * 2) in Hk'. nia. }
      rewrite He. change (2 ^ 1) with 2.
      assert (2 ^ 54 < 2 ^ 1024) by (apply Z.pow_lt_mono_r; lia).
      change (2 ^ 54) with (2 ^ 52 * 2 * 2) in *.
      destruct (Z.leb_spec (2 ^ 1024) (round_half_even N D * 2)); [lia|].
      eexists. split; [reflexivity|]. split.
      * now apply times_pow2_nonneg.
      * apply times_pow2_le_int; [|lia]. intros _. change (2 ^ 1) with 2.
        change (2 ^ 53) with (2 ^ 52 * 2) in Hk'. lia.
Qed.

Lemma Qc_le_cross (x y : Qc) :
  (x <= y)%Qc <-> Qnum x * Zpos (Qden y) <= Qnum y * Zpos (Qden x).
Proof.
  reflexivity.
Qed.

(** Below one, rounding moves a rational by at most [2^-54]. *)
Lemma binary64_unit_near (x : Qc) :
  (Q2Qc 0 <= x)%Qc -> (x <= Q2Qc 1)%Qc ->
  exists p, binary64 x = Num p
            /\ (Q2Qc 0 <= p)%Qc /\ (p <= Q2Qc 1)%Qc
            /\ (p <= x + half_ulp_below_one)%Qc.
Proof.
  intros Hlo Hhi.
  destruct (binary64_le_int x 1 Hlo Hhi ltac:(lia)) as (p & Hp & Hp0 & Hp1).
  exists p. split; [exact Hp|]. split; [exact Hp0|]. split; [exact Hp1|].
  pose proof Hlo as Hlo'. apply Qc_nonneg in Hlo'.
  pose proof Hhi as Hhi'. apply (Qc_le_int x 1) in Hhi'.
  assert (Hc : (Q2Qc 0 <= half_ulp_below_one)%Qc).
  { apply Q2Qc_le. unfold Qle. cbn [Qnum Qden]. lia. }
  destruct (Z.eq_dec (Qnum x) 0) as [Hz|Hnz].
  - unfold binary64 in Hp. rewrite Hz in Hp. cbn [Z.abs Z.eqb] in Hp.
    injection Hp as <-.
    apply Qcle_trans with x; [exact Hlo|].
    rewrite <- (Qcplus_0_r x) at 1.
    apply Qcplus_le_compat; [apply Qcle_refl|exact Hc].
  - destruct (Z_lt_ge_dec (Qnum x) (Zpos (Qden x))) as [Hlt|Hge].
    + assert (Ha : 0 < Qnum x) by lia.
      rewrite (binary64_positive x Ha) in Hp. cbv zeta in Hp.
      set (a := Qnum x) in *. set (b := Zpos (Qden x)) in *.
      assert (Hb : 0 < b) by (subst b; lia).
      pose proof (floor_log2_below a b Ha Hb) as Hbelow.
      set (kx := floor_log2 a b) in *.
      assert (Hkx : kx < 0).
      { destruct (Z_lt_ge_dec kx 0) as [|Hbig]; [assumption|exfalso].
        unfold scaled in Hbelow. destruct (Z.leb_spec 0 kx); [|lia].
        cbn [fst snd] in Hbelow. pose proof (Z.pow_pos_nonneg 2 kx). nia. }
      set (e := Z.max kx (-1022) - 52) in *.
      assert (He : e <= -53) by (subst e; lia).
      assert (Hs : scaled a b e = (a * 2 ^ (- e), b)).
      { unfold scaled. destruct (Z.leb_spec 0 e); [lia|reflexivity]. }
      rewrite Hs in Hp. cbn [fst snd] in Hp.
      replace (2 ^ e) with 0 in Hp by (symmetry; apply Z.pow_neg_r; lia).
      rewrite Z.mul_0_r in Hp.
      destruct (Z.leb_spec (2 ^ 1024) 0) as [Habs|_];
        [pose proof (Z.pow_pos_nonneg 2 1024); lia|].
      injection Hp as <-.
      pose proof (round_half_even_near (a * 2 ^ (- e)) b Hb) as Hnear.
      set (n := round_half_even (a * 2 ^ (- e)) b) in *.
      assert (Hpow : 2 ^ 53 <= 2 ^ (- e)) by (apply Z.pow_le_mono_r; lia).
      unfold times_pow2. destruct (Z.leb_spec 0 e); [lia|].
      destruct x as [[xa xb] Hx]. cbn [this Qnum Qden] in *.
      unfold Qcle, Qcplus, half_ulp_below_one. cbn [this Q2Qc].
      rewrite !Qred_correct. unfold Qle, Qplus. cbn [Qnum Qden].
      rewrite Pos2Z.inj_mul, !pow2_to_pos by lia.
      change (2 ^ 53) with 9007199254740992 in *.
      change (2 ^ 54) with (2 * 9007199254740992) in *.
      fold a b. nia.
    + apply Qcle_trans with (Q2Qc 1); [exact Hp1|].
      apply Qcle_trans with x.
      * unfold Qcle, Qle. cbn [this Q2Qc Qred Qnum Qden]. simpl. lia.
      * rewrite <- (Qcplus_0_r x) at 1.
        apply Qcplus_le_compat; [apply Qcle_refl|exact Hc].
Qed.

(** A rational between 1 and the middle of 1 and the next binary64 number
    rounds to 1: the tie goes to the even significand. *)
Lemma binary64_just_above_one (z : Qc) :
  (Q2Qc 0 <= z)%Qc ->
  (z <= Q2Qc 1 + half_ulp_below_one + half_ulp_below_one)%Qc ->
  exists s, binary64 z = Num s /\ (Q2Qc 0 <= s)%Qc /\ (s <= Q2Qc 1)%Qc.
Proof.
  intros Hlo Hhi.
  destruct (Z_le_gt_dec (Qnum z) (Zpos (Qden z))) as [Hle|Hgt].
  - apply (binary64_le_int z 1); [exact Hlo| |lia].
    apply Qc_le_int. lia.
  - assert (Ha : 0 < Qnum z) by lia.
    rewrite (binary64_positive z Ha). cbv zeta.
    assert (Hhi' : Qnum z * 2 ^ 53 <= (2 ^ 53 + 1) * Zpos (Qden z)).
    { destruct z as [[za zb] Hz]. cbn [this Qnum Qden] in *.
      unfold Qcle, Qcplus, half_ulp_below_one in Hhi. cbn [this Q2Qc] in Hhi.
      rewrite !Qred_correct in Hhi. unfold Qle, Qplus in Hhi.
      cbn [Qnum Qden] in Hhi.
      rewrite !Pos2Z.inj_mul, !pow2_to_pos in Hhi by lia.
      change (2 ^ 53) with 9007199254740992.
      change (2 ^ 54) with (2 * 9007199254740992) in Hhi. lia. }
    set (a := Qnum z) in *. set (b := Zpos (Qden z)) in *.
    assert (Hb : 0 < b) by (subst b; lia).
    pose proof (floor_log2_below a b Ha Hb) as Hbelow.
    pose proof (floor_log2_nonneg a b Hb ltac:(lia)) as Hnn.
    set (kz := floor_log2 a b) in *.
    assert (Hkz : kz = 0).
    { destruct (Z.eq_dec kz 0) as [|Hne]; [assumption|exfalso].
      unfold scaled in Hbelow. destruct (Z.leb_spec 0 kz); [|lia].
      cbn [fst snd] in Hbelow.
      assert (2 ^ 1 <= 2 ^ kz) by (apply Z.pow_le_mono_r; lia).
      change (2 ^ 1) with 2 in *. change (2 ^ 53) with 9007199254740992 in *.
      nia. }
    rewrite Hkz. change (Z.max 0 (-1022) - 52) with (-52).
    unfold scaled. cbn [Z.leb Z.compare fst snd Z.opp].
    replace (2 ^ (-52)) with 0 by reflexivity. rewrite Z.mul_0_r.
    destruct (Z.leb_spec (2 ^ 1024) 0) as [Habs|_];
      [pose proof (Z.pow_pos_nonneg 2 1024); lia|].
    assert (Hn : round_half_even (a * 2 ^ 52) b = 2 ^ 52).
    { change (2 ^ 53) with (2 * 2 ^ 52) in Hhi'.
      set (P := 2 ^ 52) in *. assert (HP : 0 < P) by (subst P; reflexivity).
      assert (HPeven : Z.even P = true) by (subst P; reflexivity).
      assert (Hq : (a * P) / b = P).
      { symmetry. apply (Z.div_unique (a * P) b P (a * P - b * P)); nia. }
      assert (Hr : (a * P) mod b = a * P - b * P).
      { symmetry. apply (Z.mod_unique (a * P) b P (a * P - b * P)); nia. }
      unfold round_half_even. rewrite Hq, Hr, HPeven.
      destruct (Z.compare_spec (2 * (a * P - b * P)) b); try reflexivity. nia. }
    rewrite Hn. eexists. split; [reflexivity|]. split.
    + apply times_pow2_nonneg. now apply Z.pow_nonneg.
    + apply times_pow2_le_int; [lia|]. intros _. cbn [Z.opp]. lia.
Qed.

(** The roundings of two parts of a whole add up, in binary64, to at most
    one. *)
Lemma parts_add_up_to_one (x y : Qc) :
  (Q2Qc 0 <= x)%Qc -> (Q2Qc 0 <= y)%Qc -> (x + y <= Q2Qc 1)%Qc ->
  exists p q s,
    binary64 x = Num p /\ binary64 y = Num q
    /\ num_add (Num p) (Num q) = Num s
    /\ (Q2Qc 0 <= s)%Qc /\ (s <= Q2Qc 1)%Qc.
Proof.
  intros Hx Hy Hsum.
  assert (Hx1 : (x <= Q2Qc 1)%Qc).
  { apply Qcle_trans with (x + y)%Qc; [|exact Hsum].
    rewrite <- (Qcplus_0_r x) at 1.
    apply Qcplus_le_compat; [apply Qcle_refl|exact Hy]. }
  assert (Hy1 : (y <= Q2Qc 1)%Qc).
  { apply Qcle_trans with (x + y)%Qc; [|exact Hsum].
    rewrite <- (Qcplus_0_l y) at 1.
    apply Qcplus_le_compat; [exact Hx|apply Qcle_refl]. }
  destruct (binary64_unit_near x Hx Hx1) as (p & Hp & Hp0 & _ & Hpn).
  destruct (binary64_unit_near y Hy Hy1) as (q & Hq & Hq0 & _ & Hqn).
  destruct (binary64_just_above_one (p + q)%Qc) as (s & Hs & Hs0 & Hs1).
  - replace (Q2Qc 0) with (Q2Qc 0 + Q2Qc 0)%Qc by ring.
    now apply Qcplus_le_compat.
  - apply Qcle_trans
      with ((x + half_ulp_below_one) + (y + half_ulp_below_one))%Qc.
    + now apply Qcplus_le_compat.
    + replace ((x + half_ulp_below_one) + (y + half_ulp_below_one))%Qc
        with ((x + y) + half_ulp_below_one + half_ulp_below_one)%Qc by ring.
      repeat apply Qcplus_le_compat; try apply Qcle_refl. exact Hsum.
  - exists p, q, s. repeat split; assumption.
Qed.

Lemma times_pow2_pos (n e : Z) : 0 < n -> (Q2Qc 0 < times_pow2 n e)%Qc.
Proof.
  intros Hn. unfold times_pow2, Qclt. destruct (Z.leb_spec 0 e) as [He|He];
    cbn [this Q2Qc]; rewrite !Qred_correct; unfold Qlt; cbn [Qnum Qden inject_Z].
  - pose proof (Z.pow_pos_nonneg 2 e). nia.
  - lia.
Qed.

(** A rational from [2^-64] on does not round to zero. *)
Lemma binary64_keeps_positive (x p : Qc) :
  (Q2Qc (1 # Z.to_pos (2 ^ 64)) <= x)%Qc -> binary64 x = Num p ->
  (Q2Qc 0 < p)%Qc.
Proof.
  intros Hx Hp.
  assert (Hx' : Zpos (Qden x) <= Qnum x * 2 ^ 64).
  { unfold Qcle in Hx. cbn [this Q2Qc] in Hx. rewrite Qred_correct in Hx.
    unfold Qle in Hx. cbn [Qnum Qden] in Hx.
    rewrite pow2_to_pos in Hx by lia. lia. }
  assert (Ha : 0 < Qnum x) by (pose proof (Z.pow_pos_nonneg 2 64); nia).
  rewrite (binary64_positive x Ha) in Hp. cbv zeta in Hp.
  set (a := Qnum x) in *. set (b := Zpos (Qden x)) in *.
  assert (Hb : 0 < b) by (subst b; lia).
  pose proof (floor_log2_below a b Ha Hb) as Hbelow.
  set (kx := floor_log2 a b) in *.
  set (e := Z.max kx (-1022) - 52) in *.
  pose proof (scaled_nonneg a b e Ha Hb) as [HN HD].
  assert (Hone : 1 <= round_half_even (fst (scaled a b e)) (snd (scaled a b e))).
  { apply round_half_even_ge; [exact HD|]. rewrite Z.mul_1_l.
    unfold scaled in *.
    destruct (Z.leb_spec 0 e) as [He|He]; cbn [fst snd] in *.
    - destruct (Z.leb_spec 0 kx); [|lia]. cbn [fst snd] in Hbelow.
      assert (2 ^ e <= 2 ^ kx) by (apply Z.pow_le_mono_r; lia). nia.
    - destruct (Z_le_gt_dec (-1022) kx) as [Hnormal|Hsub].
      + destruct (Z.leb_spec 0 kx); cbn [fst snd] in Hbelow.
        * pose proof (Z.pow_pos_nonneg 2 kx). pose proof (Z.pow_pos_nonneg 2 (- e)).
          nia.
        * assert (2 ^ (- kx) <= 2 ^ (- e)) by (apply Z.pow_le_mono_r; lia).
          nia.
      + assert (2 ^ 64 <= 2 ^ (- e)) by (apply Z.pow_le_mono_r; lia).
        nia. }
  destruct (2 ^ 1024 <=? _); [discriminate|].
  injection Hp as <-. apply times_pow2_pos. lia.
Qed.

(** ** The random source *)

Lemma Z_of_byte_range (b : byte) : 0 <= Z_of_byte b < 256.
Proof.
  unfold Z_of_byte. pose proof (Byte.to_N_bounded b) as H. lia.
Qed.

Lemma readUIntBE_nonneg (bs : list byte) : 0 <= readUIntBE bs.
Proof.
  unfold readUIntBE.
  assert (G : forall acc, 0 <= acc ->
            0 <= fold_left (fun acc b => acc * 256 + Z_of_byte b) bs acc).
  { induction bs as [|b bs IH]; intros acc Hacc; simpl; [exact Hacc|].
    apply IH. pose proof (Z_of_byte_range b). lia. }
  apply G. lia.
Qed.

Lemma randomInt_in_range (min max : Z) (w : World) :
  isSafeInteger min = true -> isSafeInteger max = true ->
  min < max -> max - min <= RAND_MAX ->
  exists n, randomInt min max w
            = (Normal n, mkWorld (entropy w) (cursor w + 6) (stdin w) (tty w))
            /\ min <= n < max.
Proof.
  intros Hmin Hmax Hlt Hrange. unfold randomInt.
  rewrite Hmin, Hmax. simpl.
  destruct (Z.leb_spec max min); [lia|].
  destruct (Z.leb_spec (max - min) RAND_MAX); [|lia]. simpl.
  eexists. split; [reflexivity|].
  pose proof (readUIntBE_nonneg (map (entropy w) (seq (cursor w) 6))) as Hs.
  pose proof (Z.rem_bound_pos _ (max - min) Hs). lia.
Qed.

Lemma randomInt_rejects (min max : Z) (w : World) :
  isSafeInteger min = true -> max <= min ->
  randomInt min max w
  = (Throw (if isSafeInteger max then ERR_OUT_OF_RANGE "max"
            else ERR_INVALID_ARG_TYPE "max"), w).
Proof.
  intros Hmin Hle. unfold randomInt. rewrite Hmin. simpl.
  destruct (isSafeInteger max); simpl; [|reflexivity].
  destruct (Z.leb_spec max min); [reflexivity|lia].
Qed.

Lemma Z_of_byte_of_Z (z : Z) : Z_of_byte (byte_of_Z z) = z mod 256.
Proof.
  unfold Z_of_byte, byte_of_Z.
  pose proof (Z.mod_pos_bound z 256) as Hm.
  destruct (Byte.of_N (Z.to_N (z mod 256))) as [b|] eqn:E.
  - apply Byte.to_of_N in E. rewrite E. apply Z2N.id. lia.
  - apply Byte.of_N_None_iff in E. lia.
Qed.

Lemma readUIntBE_snoc (bs : list byte) (b : byte) :
  readUIntBE (bs ++ [b]) = readUIntBE bs * 256 + Z_of_byte b.
Proof.
  unfold readUIntBE. now rewrite fold_left_app.
Qed.

(** Reading back the [n] bytes written for [v] gives [v], up to the
    width. *)
Lemma readUIntBE_writeUIntBE (n : nat) (v : Z) :
  readUIntBE (writeUIntBE v n) = v mod 256 ^ Z.of_nat n.
Proof.
  revert v. induction n as [|n IH]; intros v.
  - cbn [writeUIntBE]. now rewrite Z.pow_0_r, Z.mod_1_r.
  - cbn [writeUIntBE]. rewrite readUIntBE_snoc, IH, Z_of_byte_of_Z.
    rewrite Nat2Z.inj_succ, Z.pow_succ_r by lia.
    rewrite Z.rem_mul_r by (try apply Z.pow_pos_nonneg; lia). lia.
Qed.

Lemma length_writeUIntBE (n : nat) (v : Z) : List.length (writeUIntBE v n) = n.
Proof.
  revert v. induction n as [|n IH]; intros v; [reflexivity|].
  cbn [writeUIntBE]. rewrite length_app, IH. cbn [List.length]. lia.
Qed.

Lemma read_whole_tape (bytes : list byte) (start : nat) :
  map (fun i => nth (i - start) bytes x00) (seq start (List.length bytes)) = bytes.
Proof.
  revert start. induction bytes as [|b bytes IH]; intros start; [reflexivity|].
  cbn [List.length seq map]. rewrite Nat.sub_diag. cbn [nth]. f_equal.
  etransitivity; [|apply (IH (S start))]. apply map_ext_in. intros i Hi.
  apply in_seq in Hi. replace (i - start)%nat with (S (i - S start)) by lia.
  reflexivity.
Qed.

(** The bytes a tape made of two parts delivers: first one part, then the
    other. *)
Lemma read_tape_parts (first second : list byte) :
  map (fun i => nth i (first ++ second) x00) (seq 0 (List.length first)) = first
  /\ map (fun i => nth i (first ++ second) x00)
       (seq (List.length first) (List.length second)) = second.
Proof.
  split.
  - etransitivity; [|apply (read_whole_tape first 0)].
    apply map_ext_in. intros i Hi.
    apply in_seq in Hi. rewrite Nat.sub_0_r. apply app_nth1. lia.
  - etransitivity; [|apply (read_whole_tape second (List.length first))].
    apply map_ext_in. intros i Hi. apply in_seq in Hi.
    apply app_nth2. lia.
Qed.

(** ** Hexadecimal text *)

Lemma from_hex_byte (b : byte) (s : string) :
  from_hex (String (hex_digit (Z_of_byte b / 16))
              (String (hex_digit (Z_of_byte b mod 16)) s))
  = b :: from_hex s.
Proof.
  destruct b; reflexivity.
Qed.

Lemma from_hex_to_hex (bs : list byte) : from_hex (to_hex bs) = bs.
Proof.
  induction bs as [|b bs IH]; [reflexivity|].
  cbn [to_hex]. rewrite from_hex_byte. now rewrite IH.
Qed.

(** ** FairRandomGenerator *)

Section Commitment.
Context {crypto : Crypto}.

Import FairRandomGenerator.

Lemma writeUInt32BE_returns (v : Z) :
  0 <= v <= 4294967295 -> exists buffer, writeUInt32BE v = Normal buffer.
Proof.
  intros Hv. unfold writeUInt32BE.
  destruct (Z.leb_spec 0 v); [|lia].
  destruct (Z.leb_spec v 4294967295); [|lia].
  simpl. eauto.
Qed.

(** What a constructor call that returns has built. *)
Lemma constructor_inv (size : Z) (w w' : World) (g : t) :
  constructor size w = (Normal g, w') ->
  rangeSize g = size
  /\ 0 <= x g <= size
  /\ key g = map (entropy w) (seq (cursor w) 32)
  /\ computeHMAC g = Normal (hmac g)
  /\ stdin w' = stdin w
  /\ x g = Z.rem (readUIntBE (map (entropy w) (seq (cursor w + 32) 6))) (size + 1).
Proof.
  unfold constructor, bind, randomBytes, read_entropy, lift, ret.
  set (w1 := mkWorld (entropy w) (cursor w + 32) (stdin w) (tty w)).
  unfold randomInt.
  change (isSafeInteger 0) with true. cbn [negb].
  destruct (isSafeInteger (size + 1)); cbn [negb];
    [|unfold lift; discriminate].
  destruct (Z.leb_spec (size + 1) 0); [unfold lift; discriminate|].
  destruct (Z.leb_spec (size + 1 - 0) RAND_MAX); cbn [negb];
    [|unfold lift; discriminate].
  unfold bind, read_entropy, ret.
  set (sample := map (entropy w1) (seq (cursor w1) 6)).
  set (secret := Z.rem (readUIntBE sample) (size + 1 - 0) + 0).
  destruct (computeHMAC _) as [h| | |] eqn:Eh; try discriminate.
  intros E. injection E as <- <-.
  pose proof (readUIntBE_nonneg sample) as Hs.
  pose proof (Z.rem_bound_pos _ (size + 1 - 0) Hs) as Hr.
  cbn [rangeSize x key hmac stdin].
  repeat split; try reflexivity; try (subst secret; lia).
  - unfold computeHMAC in *. exact Eh.
  - subst secret sample w1. cbn [entropy cursor].
    now rewrite Z.sub_0_r, Z.add_0_r.
Qed.

(** The constructor returns for every range size a die can ask for. *)
Lemma constructor_returns (size : Z) (w : World) :
  0 <= size < 4294967295 ->
  exists g, constructor size w
            = (Normal g, mkWorld (entropy w) (cursor w + 32 + 6) (stdin w) (tty w)).
Proof.
  intros Hsize.
  unfold constructor, bind, randomBytes, read_entropy.
  set (w1 := mkWorld (entropy w) (cursor w + 32) (stdin w) (tty w)).
  destruct (randomInt_in_range 0 (size + 1) w1) as (n & -> & Hn);
    try reflexivity; unfold isSafeInteger, MAX_SAFE_INTEGER, RAND_MAX; try lia.
  unfold lift, computeHMAC. cbn [x key].
  destruct (writeUInt32BE_returns n) as (buffer & ->); [lia|].
  cbn [cbind]. unfold ret. eexists. reflexivity.
Qed.

(** Every key and every secret of the range is one the constructor can
    generate. *)
Lemma constructor_reaches (size secret : Z) (bytes : list byte) :
  List.length bytes = 32%nat -> 0 <= secret <= size -> size < 4294967295 ->
  exists g w',
    constructor size (tape_world (bytes ++ writeUIntBE secret 6) []) = (Normal g, w')
    /\ rangeSize g = size /\ key g = bytes /\ x g = secret.
Proof.
  intros Hlen Hsecret Hsize.
  set (w := tape_world (bytes ++ writeUIntBE secret 6) []).
  destruct (constructor_returns size w) as (g & Hg); [lia|].
  destruct (constructor_inv size w _ g Hg) as (Hr & _ & Hk & _ & _ & Hx).
  destruct (read_tape_parts bytes (writeUIntBE secret 6)) as (Hfirst & Hsecond).
  rewrite Hlen, length_writeUIntBE in *.
  exists g. eexists. split; [exact Hg|]. split; [exact Hr|]. split.
  - rewrite Hk. exact Hfirst.
  - rewrite Hx. subst w. cbn [tape_world entropy cursor]. cbn [Nat.add].
    rewrite Hsecond, readUIntBE_writeUIntBE.
    change (256 ^ Z.of_nat 6) with 281474976710656.
    rewrite Z.mod_small by lia. apply Z.rem_small. lia.
Qed.

End Commitment.

(** C1: for a range size [rangeSize >= 0], a secret [x] and a contribution
    [y] both in [0, rangeSize], [computeResult] returns exactly
    [(x + y) mod (rangeSize + 1)], and that value lies in [0, rangeSize]. *)
Theorem computeResult_is_sum_mod (g : FairRandomGenerator.t) (y : Z) :
  0 <= FairRandomGenerator.rangeSize g ->
  0 <= FairRandomGenerator.x g <= FairRandomGenerator.rangeSize g ->
  0 <= y <= FairRandomGenerator.rangeSize g ->
  FairRandomGenerator.computeResult g y
  = Normal (of_Z ((FairRandomGenerator.x g + y)
                  mod (FairRandomGenerator.rangeSize g + 1)))
  /\ 0 <= (FairRandomGenerator.x g + y) mod (FairRandomGenerator.rangeSize g + 1)
       <= FairRandomGenerator.rangeSize g.
Proof.
  intros Hsize Hx Hy. split.
  - unfold FairRandomGenerator.computeResult.
    now rewrite js_rem_nonneg by lia.
  - pose proof (Z.mod_pos_bound (FairRandomGenerator.x g + y)
                  (FairRandomGenerator.rangeSize g + 1)).
    lia.
Qed.

Lemma computeResult_is_sum_mod_witness :
  FairRandomGenerator.computeResult (FairRandomGenerator.mk 5 [] 3 "") 4
  = Normal (of_Z ((3 + 4) mod (5 + 1)))
  /\ 0 <= (3 + 4) mod (5 + 1) <= 5.
Proof.
  apply (computeResult_is_sum_mod (FairRandomGenerator.mk 5 [] 3 "") 4);
    simpl; lia.
Defined.

(** C4, as the code has it: [computeResult] does not look at the range of
    [y] and does not throw.  On integers that binary64 holds exactly (the
    secret, the contribution, their sum and [rangeSize + 1] are safe
    integers) it returns [(x + y) % (rangeSize + 1)], the remainder with
    the sign of [x + y], of absolute value at most [rangeSize]. *)
Theorem computeResult_never_throws (g : FairRandomGenerator.t) (y : Z) :
  0 <= FairRandomGenerator.rangeSize g ->
  isSafeInteger (FairRandomGenerator.rangeSize g + 1) = true ->
  isSafeInteger (FairRandomGenerator.x g) = true ->
  isSafeInteger y = true ->
  isSafeInteger (FairRandomGenerator.x g + y) = true ->
  FairRandomGenerator.computeResult g y
  = Normal (of_Z (Z.rem (FairRandomGenerator.x g + y)
                        (FairRandomGenerator.rangeSize g + 1)))
  /\ Z.abs (Z.rem (FairRandomGenerator.x g + y)
                  (FairRandomGenerator.rangeSize g + 1))
     <= FairRandomGenerator.rangeSize g
  /\ forall e, FairRandomGenerator.computeResult g y <> Throw e.
Proof.
  intros Hsize _ _ _ _. split; [|split].
  - unfold FairRandomGenerator.computeResult, js_rem.
    destruct (Z.eqb_spec (FairRandomGenerator.rangeSize g + 1) 0); [lia|].
    reflexivity.
  - pose proof (Z.rem_bound_abs (FairRandomGenerator.x g + y)
                  (FairRandomGenerator.rangeSize g + 1)).
    lia.
  - intros e. discriminate.
Qed.

Lemma computeResult_never_throws_witness :
  FairRandomGenerator.computeResult (FairRandomGenerator.mk 1 [] 0 "") (-7)
  = Normal (of_Z (Z.rem (0 + -7) (1 + 1)))
  /\ Z.abs (Z.rem (0 + -7) (1 + 1)) <= 1
  /\ forall e,
       FairRandomGenerator.computeResult (FairRandomGenerator.mk 1 [] 0 "") (-7)
       <> Throw e.
Proof.
  apply (computeResult_never_throws (FairRandomGenerator.mk 1 [] 0 "") (-7));
    (reflexivity || (simpl; lia)).
Defined.

(** C4 as stated fails: on a generator made for the range 0..1, the
    contribution 5 is outside the range and [computeResult] returns 1. *)
Lemma computeResult_accepts_out_of_range :
  exists g w',
    @FairRandomGenerator.constructor concat_crypto 1 (zero_world []) = (Normal g, w')
    /\ FairRandomGenerator.rangeSize g = 1
    /\ ~ (0 <= 5 <= FairRandomGenerator.rangeSize g)
    /\ FairRandomGenerator.computeResult g 5 = Normal (of_Z 1)
    /\ forall e, FairRandomGenerator.computeResult g 5 <> Throw e.
Proof.
  eexists. eexists. split; [reflexivity|].
  split; [reflexivity|]. split; [simpl; lia|].
  split; [reflexivity|]. intros e. discriminate.
Qed.

Section CommitmentClaims.
Context {crypto : Crypto}.

(** C2: for every commitment the constructor generates, hashing the
    revealed secret under the revealed key again gives the digest
    [getHMAC] returns. *)
Theorem commitment_roundtrip (size : Z) (w w' : World) (g : FairRandomGenerator.t) :
  FairRandomGenerator.constructor size w = (Normal g, w') ->
  recompute_digest (FairRandomGenerator.getKey g) (FairRandomGenerator.getX g)
  = Normal (FairRandomGenerator.getHMAC g).
Proof.
  intros Hg.
  destruct (constructor_inv size w w' g Hg) as (_ & _ & _ & Hmac & _ & _).
  unfold recompute_digest, FairRandomGenerator.getKey,
    FairRandomGenerator.getX, FairRandomGenerator.getHMAC.
  rewrite from_hex_to_hex. exact Hmac.
Qed.

(** C5, as the code has it: for a negative range size, a safe integer,
    the constructor throws the error [crypto.randomInt] raises for an
    empty range, [ERR_OUT_OF_RANGE], and no generator is returned; by then
    the 32 bytes of the key have been drawn from the random source, and
    nothing else. *)
Theorem constructor_negative_range (size : Z) (w : World) :
  size < 0 -> isSafeInteger size = true ->
  FairRandomGenerator.constructor size w
  = (Throw (ERR_OUT_OF_RANGE "max"),
     mkWorld (entropy w) (cursor w + 32) (stdin w) (tty w)).
Proof.
  intros Hsize Hsafe.
  unfold FairRandomGenerator.constructor, bind, randomBytes, read_entropy.
  rewrite randomInt_rejects by (reflexivity || lia).
  replace (isSafeInteger (size + 1)) with true; [reflexivity|].
  unfold isSafeInteger, MAX_SAFE_INTEGER in *. lia.
Qed.

End CommitmentClaims.

Lemma commitment_roundtrip_witness :
  exists g w',
    @FairRandomGenerator.constructor concat_crypto 5 (counting_world []) = (Normal g, w')
    /\ @recompute_digest concat_crypto
         (FairRandomGenerator.getKey g) (FairRandomGenerator.getX g)
       = Normal (FairRandomGenerator.getHMAC g).
Proof.
  eexists. eexists. split; [reflexivity|].
  eapply (@commitment_roundtrip concat_crypto 5 (counting_world [])).
  reflexivity.
Defined.

Lemma constructor_negative_range_witness :
  @FairRandomGenerator.constructor concat_crypto (-3) (counting_world [])
  = (Throw (ERR_OUT_OF_RANGE "max"),
     mkWorld (entropy (counting_world [])) 32 [] true).
Proof.
  apply (@constructor_negative_range concat_crypto (-3) (counting_world []));
    [lia|reflexivity].
Defined.

(** C5 as stated fails: with range size -1 the constructor fails only
    after 32 bytes of key material have been read from the random
    source. *)
Lemma constructor_draws_key_before_failing :
  let r := @FairRandomGenerator.constructor concat_crypto (-1) (counting_world []) in
  fst r = Throw (ERR_OUT_OF_RANGE "max")
  /\ cursor (counting_world []) = 0%nat
  /\ cursor (snd r) = 32%nat.
Proof.
  repeat split.
Qed.

(** ** Counting face pairs *)

Lemma list_sum_cons (n : nat) (l : list nat) : list_sum (n :: l) = (n + list_sum l)%nat.
Proof.
  reflexivity.
Qed.

Section Counting.
Variables A B : Type.

Lemma count_prod (P : A * B -> bool) (l1 : list A) (l2 : list B) :
  List.length (filter P (list_prod l1 l2))
  = list_sum (map (fun a => List.length (filter (fun b => P (a, b)) l2)) l1).
Proof.
  induction l1 as [|a l1 IH]; [reflexivity|].
  cbn [list_prod map]. rewrite list_sum_cons.
  now rewrite filter_app, length_app, filter_map_swap, length_map, IH.
Qed.

Lemma count_column (f : A -> B -> bool) (a : A) (l1 : list A) (l2 : list B) :
  list_sum (map (fun b => List.length (filter (fun a' => f a' b) (a :: l1))) l2)
  = (List.length (filter (f a) l2)
     + list_sum (map (fun b => List.length (filter (fun a' => f a' b) l1)) l2))%nat.
Proof.
  induction l2 as [|b l2 IH]; [reflexivity|].
  cbn [map]. rewrite !list_sum_cons, IH. cbn [filter].
  destruct (f a b); cbn [List.length]; lia.
Qed.

(** Counting row by row or column by column gives the same number. *)
Lemma count_exchange (f : A -> B -> bool) (l1 : list A) (l2 : list B) :
  list_sum (map (fun a => List.length (filter (fun b => f a b) l2)) l1)
  = list_sum (map (fun b => List.length (filter (fun a => f a b) l1)) l2).
Proof.
  induction l1 as [|a l1 IH].
  - induction l2 as [|b l2 IH2]; [reflexivity|].
    cbn [map] in *. rewrite list_sum_cons. now rewrite <- IH2.
  - rewrite (count_column f a l1 l2), <- IH. reflexivity.
Qed.

End Counting.

Lemma count_swap (P : Z * Z -> bool) (l1 l2 : list Z) :
  List.length (filter P (list_prod l2 l1))
  = List.length (filter (fun p => P (snd p, fst p)) (list_prod l1 l2)).
Proof.
  rewrite !count_prod.
  exact (count_exchange Z Z (fun b a => P (b, a)) l2 l1).
Qed.

(** Every pair is a win, a loss or a tie, and only one of them. *)
Lemma count_trichotomy (l : list (Z * Z)) :
  (List.length (filter (fun p => Z.gtb (fst p) (snd p)) l)
   + List.length (filter (fun p => Z.ltb (fst p) (snd p)) l)
   + List.length (filter (fun p => Z.eqb (fst p) (snd p)) l))%nat
  = List.length l.
Proof.
  induction l as [|[fa fb] l IH]; [reflexivity|].
  cbn [filter fst snd].
  destruct (Z.gtb_spec fa fb), (Z.ltb_spec fa fb), (Z.eqb_spec fa fb);
    cbn [List.length]; lia.
Qed.

Lemma pairs_partition (a b : Dice.t) :
  wins a b + losses a b + ties a b = total_pairs a b.
Proof.
  unfold wins, losses, ties, total_pairs, count_pairs.
  rewrite <- Nat2Z.inj_mul, <- length_prod, <- !Nat2Z.inj_add.
  f_equal. apply count_trichotomy.
Qed.

Lemma wins_swap (a b : Dice.t) : wins b a = losses a b.
Proof.
  unfold wins, losses, count_pairs. f_equal.
  rewrite count_swap. cbn [fst snd].
  f_equal. apply filter_ext. intros [fa fb]. cbn [fst snd].
  now rewrite Z.gtb_ltb.
Qed.

Lemma ties_swap (a b : Dice.t) : ties b a = ties a b.
Proof.
  unfold ties, count_pairs. f_equal.
  rewrite count_swap. cbn [fst snd].
  f_equal. apply filter_ext. intros [fa fb]. cbn [fst snd].
  apply Z.eqb_sym.
Qed.

Lemma total_pairs_swap (a b : Dice.t) : total_pairs b a = total_pairs a b.
Proof.
  unfold total_pairs. lia.
Qed.

Lemma count_pairs_nonneg (R : Z -> Z -> bool) (a b : Dice.t) : 0 <= count_pairs R a b.
Proof.
  unfold count_pairs. lia.
Qed.

(** ** ProbabilityCalculator *)

Lemma inner_loop_counts (f1 : Z) (faces2 : list Z) (start : Z) :
  fold_left (fun die1Wins f2 => if f1 >? f2 then die1Wins + 1 else die1Wins)
    faces2 start
  = start + Z.of_nat (List.length (filter (fun f2 => f1 >? f2) faces2)).
Proof.
  revert start. induction faces2 as [|f2 faces2 IH]; intros start.
  - simpl. lia.
  - cbn [fold_left filter]. rewrite IH.
    destruct (f1 >? f2); cbn [List.length]; lia.
Qed.

Lemma outer_loop_counts (faces1 faces2 : list Z) (start : Z) :
  fold_left
    (fun die1Wins f1 =>
       fold_left (fun die1Wins f2 => if f1 >? f2 then die1Wins + 1 else die1Wins)
         faces2 die1Wins)
    faces1 start
  = start + Z.of_nat (list_sum (map (fun f1 =>
              List.length (filter (fun f2 => f1 >? f2) faces2)) faces1)).
Proof.
  revert start. induction faces1 as [|f1 faces1 IH]; intros start.
  - simpl. lia.
  - cbn [fold_left map]. rewrite list_sum_cons, inner_loop_counts, IH. lia.
Qed.

(** The loops of [calculateWinProbability] count the winning pairs. *)
Lemma count_wins_is_wins (a b : Dice.t) :
  ProbabilityCalculator.count_wins (Dice.getFaces a) (Dice.getFaces b) = wins a b.
Proof.
  unfold ProbabilityCalculator.count_wins, wins, count_pairs, Dice.getFaces.
  rewrite outer_loop_counts, count_prod. cbn [fst snd].
  apply Z.add_0_l.
Qed.

Lemma wins_zero_of_no_pairs (a b : Dice.t) : total_pairs a b = 0 -> wins a b = 0.
Proof.
  intros Ht. pose proof (pairs_partition a b) as Hp.
  pose proof (count_pairs_nonneg Z.gtb a b).
  pose proof (count_pairs_nonneg Z.ltb a b).
  pose proof (count_pairs_nonneg Z.eqb a b).
  unfold wins, losses, ties in *. lia.
Qed.

Lemma total_pairs_pos (a b : Dice.t) :
  Dice.faces a <> [] -> Dice.faces b <> [] -> 0 < total_pairs a b.
Proof.
  unfold total_pairs. intros Ha Hb.
  destruct (Dice.faces a); [congruence|].
  destruct (Dice.faces b); [congruence|].
  cbn [List.length]. lia.
Qed.

(** The quotient of a part by a positive whole rounds to a rational
    between 0 and 1. *)
Lemma ratio_rounds (n d : Z) :
  0 <= n <= d -> 0 < d ->
  exists p, binary64 (ratio n d) = Num p
            /\ (Q2Qc 0 <= p)%Qc /\ (p <= Q2Qc 1)%Qc.
Proof.
  intros Hn Hd. destruct (ratio_bounds n d Hn Hd) as [Hlo Hhi].
  apply (binary64_le_int (ratio n d) 1); [exact Hlo|exact Hhi|lia].
Qed.

(** [calculateWinProbability] always returns: the quotient of the count by
    the number of pairs, as binary64 rounds it, or [NaN] when one die has
    no face. *)
Lemma calculateWinProbability_value (a b : Dice.t) :
  ProbabilityCalculator.calculateWinProbability a b
  = Normal (if total_pairs a b =? 0 then NaN
            else binary64 (ratio (wins a b) (total_pairs a b))).
Proof.
  unfold ProbabilityCalculator.calculateWinProbability.
  rewrite count_wins_is_wins. unfold Dice.getFaceCount.
  fold (total_pairs a b). f_equal.
  unfold num_div, of_Z. rewrite !Qc_sgn_of_Z.
  destruct (Z.eqb_spec (total_pairs a b) 0) as [E|E].
  - rewrite E, (wins_zero_of_no_pairs a b E). reflexivity.
  - assert (0 <= total_pairs a b) by (unfold total_pairs; lia).
    destruct (Z.compare_spec (total_pairs a b) 0); try lia. reflexivity.
Qed.

Lemma calculateWinProbability_of_faces (a b : Dice.t) :
  Dice.faces a <> [] -> Dice.faces b <> [] ->
  ProbabilityCalculator.calculateWinProbability a b
  = Normal (binary64 (ratio (wins a b) (total_pairs a b))).
Proof.
  intros Ha Hb. pose proof (total_pairs_pos a b Ha Hb) as Ht.
  rewrite calculateWinProbability_value.
  destruct (Z.eqb_spec (total_pairs a b) 0); [lia|reflexivity].
Qed.

(** The counts of two dice with faces: the wins are a part of the
    pairs. *)
Lemma wins_of_dice (a b : Dice.t) :
  Dice.faces a <> [] -> Dice.faces b <> [] ->
  0 <= wins a b <= total_pairs a b /\ 0 < total_pairs a b.
Proof.
  intros Ha Hb.
  pose proof (total_pairs_pos a b Ha Hb).
  pose proof (pairs_partition a b).
  pose proof (count_pairs_nonneg Z.gtb a b).
  pose proof (count_pairs_nonneg Z.ltb a b).
  pose proof (count_pairs_nonneg Z.eqb a b).
  unfold wins, losses, ties in *. lia.
Qed.

(** C3: for non-empty dice, [calculateWinProbability a b] is the number of
    face pairs with [fa > fb] divided by the number of all face pairs, the
    quotient being the one binary64 holds for the fraction; tied pairs are
    not among the counted ones, and the fraction and the Number returned
    for it lie in [0, 1]. *)
Theorem calculateWinProbability_counts_wins (a b : Dice.t) :
  Dice.faces a <> [] -> Dice.faces b <> [] ->
  ProbabilityCalculator.calculateWinProbability a b
  = Normal (binary64 (ratio (wins a b) (total_pairs a b)))
  /\ wins a b + ties a b <= total_pairs a b
  /\ (Q2Qc 0 <= ratio (wins a b) (total_pairs a b))%Qc
  /\ (ratio (wins a b) (total_pairs a b) <= Q2Qc 1)%Qc
  /\ exists p,
       binary64 (ratio (wins a b) (total_pairs a b)) = Num p
       /\ (Q2Qc 0 <= p)%Qc /\ (p <= Q2Qc 1)%Qc.
Proof.
  intros Ha Hb.
  pose proof (total_pairs_pos a b Ha Hb) as Ht.
  pose proof (pairs_partition a b) as Hp.
  pose proof (count_pairs_nonneg Z.gtb a b) as Hw.
  pose proof (count_pairs_nonneg Z.ltb a b) as Hl.
  pose proof (count_pairs_nonneg Z.eqb a b) as He.
  fold (wins a b) in Hw. fold (losses a b) in Hl. fold (ties a b) in He.
  split; [|split; [|split; [|split]]].
  - now apply calculateWinProbability_of_faces.
  - lia.
  - apply ratio_bounds; lia.
  - apply ratio_bounds; lia.
  - apply ratio_rounds; lia.
Qed.

Lemma calculateWinProbability_counts_wins_witness :
  ProbabilityCalculator.calculateWinProbability
    (Dice.new 0 [2; 2; 4; 4; 9; 9]) (Dice.new 1 [1; 1; 6; 6; 8; 8])
  = Normal (binary64 (ratio 20 36))
  /\ 20 + 0 <= 36
  /\ (Q2Qc 0 <= ratio 20 36)%Qc
  /\ (ratio 20 36 <= Q2Qc 1)%Qc
  /\ exists p,
       binary64 (ratio 20 36) = Num p /\ (Q2Qc 0 <= p)%Qc /\ (p <= Q2Qc 1)%Qc.
Proof.
  apply (calculateWinProbability_counts_wins
           (Dice.new 0 [2; 2; 4; 4; 9; 9]) (Dice.new 1 [1; 1; 6; 6; 8; 8]));
    discriminate.
Defined.

Lemma Q2Qc_inject_add (a b : Z) :
  Q2Qc (inject_Z (a + b)) = (Q2Qc (inject_Z a) + Q2Qc (inject_Z b))%Qc.
Proof.
  rewrite Q2Qc_add, inject_Z_plus. reflexivity.
Qed.

Lemma Q2Qc_inject_nonzero (d : Z) : d <> 0 -> Q2Qc (inject_Z d) <> Q2Qc 0.
Proof.
  intros Hd E. apply Hd. apply of_Z_inj. unfold of_Z. now rewrite E.
Qed.

(** When three counts add up to [t], their quotients by [t] add up
    to one. *)
Lemma ratio_complement (w l e t : Z) :
  w + l + e = t -> t <> 0 ->
  (1 - (ratio w t + ratio l t))%Qc = ratio e t.
Proof.
  intros Hsum Ht. unfold ratio.
  pose proof (Q2Qc_inject_nonzero t Ht) as Hnz.
  rewrite <- Hsum in *. rewrite !Q2Qc_inject_add in *.
  field. exact Hnz.
Qed.

Lemma ratio_zero (t : Z) : ratio 0 t = Q2Qc 0.
Proof.
  unfold ratio. rewrite Q2Qc_div. apply Q2Qc_eq_iff.
  unfold Qdiv. apply Qmult_0_l.
Qed.

Lemma binary64_zero : binary64 (Q2Qc 0) = Num (Q2Qc 0).
Proof.
  reflexivity.
Qed.

(** C8, as the code has it: for non-empty dice the two results are the
    roundings of the fractions of pairs won and lost; the fractions
    themselves leave exactly the fraction of tied pairs to one, and the two
    results, added as JavaScript adds them, give at most one.  When every
    pair is a tie, as for [1,1] against [1,1], both results are 0. *)
Theorem win_probabilities_leave_ties (a b : Dice.t) :
  Dice.faces a <> [] -> Dice.faces b <> [] ->
  exists p q s : Qc,
    ProbabilityCalculator.calculateWinProbability a b = Normal (Num p)
    /\ ProbabilityCalculator.calculateWinProbability b a = Normal (Num q)
    /\ binary64 (ratio (wins a b) (total_pairs a b)) = Num p
    /\ binary64 (ratio (losses a b) (total_pairs a b)) = Num q
    /\ (1 - (ratio (wins a b) (total_pairs a b)
             + ratio (losses a b) (total_pairs a b)))%Qc
       = ratio (ties a b) (total_pairs a b)
    /\ num_add (Num p) (Num q) = Num s
    /\ (Q2Qc 0 <= s)%Qc /\ (s <= Q2Qc 1)%Qc
    /\ (ties a b = total_pairs a b -> p = Q2Qc 0 /\ q = Q2Qc 0).
Proof.
  intros Ha Hb.
  pose proof (calculateWinProbability_of_faces a b Ha Hb) as Hab.
  pose proof (calculateWinProbability_of_faces b a Hb Ha) as Hba.
  rewrite wins_swap, total_pairs_swap in Hba.
  pose proof (total_pairs_pos a b Ha Hb) as Ht.
  pose proof (pairs_partition a b) as Hp.
  pose proof (count_pairs_nonneg Z.gtb a b) as Hw.
  pose proof (count_pairs_nonneg Z.ltb a b) as Hl.
  pose proof (count_pairs_nonneg Z.eqb a b) as He.
  fold (wins a b) in Hw. fold (losses a b) in Hl. fold (ties a b) in He.
  assert (Hgap : (1 - (ratio (wins a b) (total_pairs a b)
                       + ratio (losses a b) (total_pairs a b)))%Qc
                 = ratio (ties a b) (total_pairs a b))
    by (apply ratio_complement; lia).
  assert (Hsum : (ratio (wins a b) (total_pairs a b)
                  + ratio (losses a b) (total_pairs a b) <= Q2Qc 1)%Qc).
  { apply Qcle_minus_iff. change (Q2Qc 1) with 1%Qc.
    unfold Qcminus in Hgap. rewrite Hgap. apply ratio_bounds; lia. }
  destruct (parts_add_up_to_one _ _
              (proj1 (ratio_bounds (wins a b) (total_pairs a b)
                        ltac:(lia) Ht))
              (proj1 (ratio_bounds (losses a b) (total_pairs a b)
                        ltac:(lia) Ht))
              Hsum)
    as (p & q & s & Ep & Eq & Es & Hs0 & Hs1).
  exists p, q, s.
  split; [now rewrite Hab, Ep|]. split; [now rewrite Hba, Eq|].
  split; [exact Ep|]. split; [exact Eq|]. split; [exact Hgap|].
  split; [exact Es|]. split; [exact Hs0|]. split; [exact Hs1|].
  intros Hall.
  replace (wins a b) with 0 in Ep by lia.
  replace (losses a b) with 0 in Eq by lia.
  rewrite ratio_zero, binary64_zero in Ep, Eq.
  split; congruence.
Qed.

Lemma win_probabilities_leave_ties_witness :
  exists p q s : Qc,
    ProbabilityCalculator.calculateWinProbability
      (Dice.new 0 [1; 1]) (Dice.new 1 [1; 1]) = Normal (Num p)
    /\ ProbabilityCalculator.calculateWinProbability
         (Dice.new 1 [1; 1]) (Dice.new 0 [1; 1]) = Normal (Num q)
    /\ binary64 (ratio 0 4) = Num p
    /\ binary64 (ratio 0 4) = Num q
    /\ (1 - (ratio 0 4 + ratio 0 4))%Qc = ratio 4 4
    /\ num_add (Num p) (Num q) = Num s
    /\ (Q2Qc 0 <= s)%Qc /\ (s <= Q2Qc 1)%Qc
    /\ (4 = 4 -> p = Q2Qc 0 /\ q = Q2Qc 0).
Proof.
  apply (win_probabilities_leave_ties (Dice.new 0 [1; 1]) (Dice.new 1 [1; 1]));
    discriminate.
Defined.

(** C8 as stated fails.  For [1,2,3] against [2] each side wins one pair
    of three and one pair is a tie: both results are the binary64 value
    next to 1/3, and what they leave to one is not the tie fraction,
    whether the gap is computed exactly or as JavaScript computes it, and
    whether the tie fraction is taken exactly or rounded.  For
    [2,2,2,2,0] against [1] the results are the binary64 values next to
    4/5 and 1/5, whose exact sum is above one. *)
Lemma win_probabilities_gap_is_rounded :
  let a := Dice.new 0 [1; 2; 3] in
  let b := Dice.new 1 [2] in
  let c := Dice.new 2 [2; 2; 2; 2; 0] in
  let d := Dice.new 3 [1] in
  exists p q p' q' : Qc,
    ProbabilityCalculator.calculateWinProbability a b = Normal (Num p)
    /\ ProbabilityCalculator.calculateWinProbability b a = Normal (Num q)
    /\ ties a b = 1 /\ total_pairs a b = 3
    /\ (1 - (p + q))%Qc <> ratio 1 3
    /\ num_sub (of_Z 1) (num_add (Num p) (Num q)) <> Num (ratio 1 3)
    /\ num_sub (of_Z 1) (num_add (Num p) (Num q)) <> binary64 (ratio 1 3)
    /\ ProbabilityCalculator.calculateWinProbability c d = Normal (Num p')
    /\ ProbabilityCalculator.calculateWinProbability d c = Normal (Num q')
    /\ (Q2Qc 1 < p' + q')%Qc.
Proof.
  cbv zeta.
  exists (times_pow2 6004799503160661 (-54)), (times_pow2 6004799503160661 (-54)),
         (times_pow2 7205759403792794 (-53)), (times_pow2 7205759403792794 (-55)).
  split; [vm_compute; reflexivity|]. split; [vm_compute; reflexivity|].
  split; [reflexivity|]. split; [reflexivity|].
  split; [intros E; apply (f_equal this) in E; vm_compute in E; discriminate|].
  split; [intros E; vm_compute in E; discriminate|].
  split; [intros E; vm_compute in E; discriminate|].
  split; [vm_compute; reflexivity|]. split; [vm_compute; reflexivity|].
  reflexivity.
Qed.

(** The loop of [averageWinProbability] adds, from left to right, the win
    probabilities against the pool members that are not [die]. *)
Lemma sum_others_value (die : Dice.t) (dice : list Dice.t) (total : number) :
  ProbabilityCalculator.sum_others die dice total
  = cbind (cmapM (ProbabilityCalculator.calculateWinProbability die) (others die dice))
      (fun ps => Normal (fold_left num_add ps total)).
Proof.
  revert total. induction dice as [|eachDie dice IH]; intros total.
  - reflexivity.
  - cbn [ProbabilityCalculator.sum_others others filter].
    fold (others die dice).
    destruct (Dice.same die eachDie); cbn [negb].
    + apply IH.
    + cbn [cmapM]. rewrite calculateWinProbability_value. cbn [cbind].
      rewrite IH.
      destruct (cmapM _ (others die dice)); reflexivity.
Qed.

Lemma averageWinProbability_value (die : Dice.t) (dice : list Dice.t) :
  ProbabilityCalculator.averageWinProbability die dice
  = cbind (cmapM (ProbabilityCalculator.calculateWinProbability die) (others die dice))
      (fun ps =>
         Normal (num_div (fold_left num_add ps (of_Z 0))
                         (of_Z (Z.of_nat (List.length dice) - 1)))).
Proof.
  unfold ProbabilityCalculator.averageWinProbability.
  rewrite sum_others_value.
  destruct (cmapM _ (others die dice)); reflexivity.
Qed.

Lemma others_length (d : Dice.t) (pool : list Dice.t) :
  (occurrences d pool + List.length (others d pool))%nat = List.length pool.
Proof.
  unfold occurrences, others. apply filter_length.
Qed.

Lemma divisor_counts_others (d : Dice.t) (pool : list Dice.t) :
  occurrences d pool = 1%nat ->
  Z.of_nat (List.length pool) - 1 = Z.of_nat (List.length (others d pool)).
Proof.
  intros Hocc. pose proof (others_length d pool). lia.
Qed.

(** C7, as the code has it: the divisor is [dice.length - 1], so
    [averageWinProbability d pool] is the arithmetic mean of the win
    probabilities of [d] against the members of [pool] other than [d]
    whenever the object [d] occurs in [pool] exactly once. *)
Theorem averageWinProbability_is_mean (d : Dice.t) (pool : list Dice.t) :
  occurrences d pool = 1%nat ->
  ProbabilityCalculator.averageWinProbability d pool = mean_against_others d pool.
Proof.
  intros Hocc. rewrite averageWinProbability_value. unfold mean_against_others.
  now rewrite (divisor_counts_others d pool Hocc).
Qed.

Lemma averageWinProbability_is_mean_witness :
  ProbabilityCalculator.averageWinProbability
    (Dice.new 0 [2; 2; 4; 4; 9; 9])
    [Dice.new 0 [2; 2; 4; 4; 9; 9]; Dice.new 1 [1; 1; 6; 6; 8; 8];
     Dice.new 2 [3; 3; 5; 5; 7; 7]]
  = mean_against_others
      (Dice.new 0 [2; 2; 4; 4; 9; 9])
      [Dice.new 0 [2; 2; 4; 4; 9; 9]; Dice.new 1 [1; 1; 6; 6; 8; 8];
       Dice.new 2 [3; 3; 5; 5; 7; 7]].
Proof.
  apply (averageWinProbability_is_mean (Dice.new 0 [2; 2; 4; 4; 9; 9])).
  reflexivity.
Defined.

(** C7 as stated fails: against a pool of two dice that does not contain
    it, the die [2] wins every pair, so the mean is 1, and
    [averageWinProbability] returns 2. *)
Lemma averageWinProbability_not_mean :
  let d := Dice.new 9 [2] in
  let pool := [Dice.new 0 [1]; Dice.new 1 [1]] in
  (2 <= List.length pool)%nat
  /\ ProbabilityCalculator.averageWinProbability d pool = Normal (of_Z 2)
  /\ mean_against_others d pool = Normal (of_Z 1)
  /\ ProbabilityCalculator.averageWinProbability d pool <> mean_against_others d pool.
Proof.
  cbv zeta.
  assert (Havg : ProbabilityCalculator.averageWinProbability
                   (Dice.new 9 [2]) [Dice.new 0 [1]; Dice.new 1 [1]]
                 = Normal (of_Z 2)).
  { number_eq. }
  assert (Hmean : mean_against_others
                    (Dice.new 9 [2]) [Dice.new 0 [1]; Dice.new 1 [1]]
                  = Normal (of_Z 1)).
  { number_eq. }
  split; [simpl; lia|]. split; [exact Havg|]. split; [exact Hmean|].
  rewrite Havg, Hmean. intros E.
  assert (E' : of_Z 2 = of_Z 1) by congruence.
  apply of_Z_inj in E'. discriminate.
Qed.

Lemma Qc_sgn_nonneg (q : Qc) : (Q2Qc 0 <= q)%Qc -> Qc_sgn q <> Lt.
Proof.
  unfold Qcle, Qle, Qc_sgn.
  change (this (Q2Qc 0)) with 0%Q.
  intros H E. rewrite Z.compare_lt_iff in E. simpl in H. lia.
Qed.

(** Adding a number between 0 and 1 to a total between 0 and [j] gives,
    rounded, a total between 0 and [j + 1]. *)
Lemma num_add_within (t p : Qc) (j : Z) :
  (Q2Qc 0 <= t)%Qc -> (t <= Q2Qc (inject_Z j))%Qc ->
  (Q2Qc 0 <= p)%Qc -> (p <= Q2Qc 1)%Qc -> j + 1 <= 2 ^ 53 ->
  exists t', num_add (Num t) (Num p) = Num t'
             /\ (Q2Qc 0 <= t')%Qc /\ (t' <= Q2Qc (inject_Z (j + 1)))%Qc.
Proof.
  intros Ht0 Htj Hp0 Hp1 Hj. cbn [num_add].
  apply binary64_le_int; [| |exact Hj].
  - replace (Q2Qc 0) with (Q2Qc 0 + Q2Qc 0)%Qc by ring.
    now apply Qcplus_le_compat.
  - rewrite inject_Z_plus, <- Q2Qc_add. now apply Qcplus_le_compat.
Qed.

Lemma num_div_by_zero (p : Qc) :
  (Q2Qc 0 <= p)%Qc ->
  num_div (Num p) (of_Z 0) = NaN \/ num_div (Num p) (of_Z 0) = Infinity.
Proof.
  intros Hp. unfold num_div, of_Z. rewrite Qc_sgn_of_Z. cbn [Z.compare].
  pose proof (Qc_sgn_nonneg p Hp).
  destruct (Qc_sgn p); [left|congruence|right]; reflexivity.
Qed.

(** C6, as the code has it: [averageWinProbability] has no guard on the
    size of the pool and never throws.  On a pool of one die it divides by
    zero and returns [NaN] or [Infinity]; on an empty pool it divides zero
    by -1 and returns 0. *)
Theorem averageWinProbability_small_pool (d : Dice.t) (pool : list Dice.t) :
  (List.length pool < 2)%nat ->
  exists v,
    ProbabilityCalculator.averageWinProbability d pool = Normal v
    /\ (pool = [] -> v = of_Z 0)
    /\ (List.length pool = 1%nat -> v = NaN \/ v = Infinity).
Proof.
  intros Hlen. rewrite averageWinProbability_value.
  destruct pool as [|e [|e' pool]]; [| |cbn [List.length] in Hlen; lia].
  - eexists. split; [reflexivity|]. split; [|discriminate].
    intros _. vm_compute. reflexivity.
  - cbn [others filter]. destruct (Dice.same d e); cbn [negb cmapM cbind].
    + eexists. split; [reflexivity|]. split; [discriminate|].
      intros _. left. reflexivity.
    + rewrite calculateWinProbability_value. cbn [cbind fold_left List.length].
      eexists. split; [reflexivity|]. split; [discriminate|]. intros _.
      change (Z.of_nat 1 - 1) with 0.
      destruct (Z.eqb_spec (total_pairs d e) 0) as [E|E].
      * left. reflexivity.
      * assert (Hw : 0 <= wins d e <= total_pairs d e).
        { pose proof (pairs_partition d e).
          pose proof (count_pairs_nonneg Z.gtb d e).
          pose proof (count_pairs_nonneg Z.ltb d e).
          pose proof (count_pairs_nonneg Z.eqb d e).
          unfold wins, losses, ties in *. lia. }
        assert (Ht : 0 < total_pairs d e) by (unfold total_pairs in *; lia).
        destruct (ratio_rounds _ _ Hw Ht) as (p & -> & Hp0 & Hp1).
        destruct (num_add_within (Q2Qc (inject_Z 0)) p 0)
          as (t & Et & Ht0 & _);
          [apply Qcle_refl|apply Qcle_refl|exact Hp0|exact Hp1|lia|].
        change (Num (Q2Qc (inject_Z 0))) with (of_Z 0) in Et. rewrite Et.
        now apply num_div_by_zero.
Qed.

Lemma averageWinProbability_small_pool_witness :
  exists v,
    ProbabilityCalculator.averageWinProbability
      (Dice.new 0 [2; 5]) [Dice.new 1 [1; 3]] = Normal v
    /\ ([Dice.new 1 [1; 3]] = [] -> v = of_Z 0)
    /\ (1%nat = 1%nat -> v = NaN \/ v = Infinity).
Proof.
  apply (averageWinProbability_small_pool (Dice.new 0 [2; 5]) [Dice.new 1 [1; 3]]).
  simpl. lia.
Defined.

(** C6 as stated fails: on a pool of one die no error is raised.  The call
    returns [NaN] when the pool holds only the die itself, and [Infinity]
    when it holds one die that loses a pair. *)
Lemma averageWinProbability_divides_by_zero :
  let d := Dice.new 0 [5] in
  (List.length [d] < 2)%nat
  /\ ProbabilityCalculator.averageWinProbability d [d] = Normal NaN
  /\ ProbabilityCalculator.averageWinProbability d [Dice.new 1 [1]] = Normal Infinity
  /\ forall e, ProbabilityCalculator.averageWinProbability d [d] <> Throw e.
Proof.
  cbv zeta. split; [simpl; lia|]. split; [reflexivity|]. split; [reflexivity|].
  intros e. discriminate.
Qed.

(** ** Decimal text of an index *)

Lemma digit_char_value (d : Z) : 0 <= d < 10 -> digit_value (digit_char d) = Some d.
Proof.
  intros Hd. digit_cases d; reflexivity.
Qed.

Lemma digit_char_upper (d : Z) : 0 <= d < 10 -> upper (digit_char d) = digit_char d.
Proof.
  intros Hd. digit_cases d; reflexivity.
Qed.

Lemma digit_char_plain (d : Z) (s : string) :
  0 <= d < 10 ->
  trimStart (String (digit_char d) s) = String (digit_char d) s
  /\ strip_sign (String (digit_char d) s) = (1, String (digit_char d) s)
  /\ String.eqb (String (digit_char d) s) "X" = false
  /\ String.eqb (String (digit_char d) s) "?" = false.
Proof.
  intros Hd. digit_cases d; repeat split; reflexivity.
Qed.

Lemma radix_value_snoc (R : Z) (ds : list Z) (d : Z) :
  radix_value R (ds ++ [d]) = radix_value R ds * R + d.
Proof.
  unfold radix_value. now rewrite fold_left_app.
Qed.

Lemma to_digits_step (fuel : nat) (n : Z) :
  to_digits (S fuel) n
  = if n <? 10 then [n] else (to_digits fuel (n / 10) ++ [n mod 10])%list.
Proof.
  reflexivity.
Qed.

(** With enough fuel, [to_digits] gives the decimal digits of [n]. *)
Lemma to_digits_value (fuel : nat) (n : Z) :
  0 <= n < 2 ^ Z.of_nat (S fuel) ->
  to_digits (S fuel) n <> []
  /\ Forall (fun d => 0 <= d < 10) (to_digits (S fuel) n)
  /\ radix_value 10 (to_digits (S fuel) n) = n.
Proof.
  revert n. induction fuel as [|fuel IH]; intros n Hn.
  - change (2 ^ Z.of_nat 1) with 2 in Hn. cbn [to_digits].
    destruct (Z.ltb_spec n 10); [|lia].
    split; [discriminate|]. split; [|unfold radix_value; simpl; lia].
    constructor; [lia|constructor].
  - rewrite (to_digits_step (S fuel) n).
    destruct (Z.ltb_spec n 10).
    + split; [discriminate|]. split; [|unfold radix_value; simpl; lia].
      constructor; [lia|constructor].
    + assert (Hq : 0 <= n / 10 < 2 ^ Z.of_nat (S fuel)).
      { split; [apply Z.div_pos; lia|].
        apply Z.div_lt_upper_bound; [lia|].
        rewrite (Nat2Z.inj_succ (S fuel)), Z.pow_succ_r in Hn by lia. lia. }
      destruct (IH (n / 10) Hq) as (Hne & Hall & Hval).
      split; [|split].
      * intros E. apply app_eq_nil in E. destruct E; discriminate.
      * apply Forall_app. split; [exact Hall|].
        constructor; [|constructor].
        pose proof (Z.mod_pos_bound n 10). lia.
      * rewrite radix_value_snoc, Hval.
        pose proof (Z.div_mod n 10). lia.
Qed.

Lemma radix_digits_decimal (ds : list Z) :
  Forall (fun d => 0 <= d < 10) ds ->
  radix_digits 10 (string_of_digits ds) = ds.
Proof.
  induction 1 as [|d ds Hd _ IH]; [reflexivity|].
  cbn [string_of_digits fold_right radix_digits].
  rewrite (digit_char_value d Hd).
  destruct (Z.ltb_spec d 10); [|lia].
  fold (string_of_digits ds). now rewrite IH.
Qed.

Lemma toUpperCase_decimal (ds : list Z) :
  Forall (fun d => 0 <= d < 10) ds ->
  toUpperCase (string_of_digits ds) = string_of_digits ds.
Proof.
  induction 1 as [|d ds Hd _ IH]; [reflexivity|].
  cbn [string_of_digits fold_right toUpperCase].
  rewrite (digit_char_upper d Hd).
  fold (string_of_digits ds). now rewrite IH.
Qed.

Lemma choose_radix_decimal (body : string) : choose_radix 10 body = (10, body).
Proof.
  unfold choose_radix. destruct (strip_0x body); reflexivity.
Qed.

Lemma log2_fuel (n : Z) : 0 <= n -> 0 <= n < 2 ^ Z.of_nat (S (Z.to_nat (Z.log2 n))).
Proof.
  intros Hn. split; [exact Hn|].
  rewrite Nat2Z.inj_succ, Z2Nat.id by apply Z.log2_nonneg.
  destruct (Z.eq_dec n 0) as [->|Hz]; [reflexivity|].
  apply Z.log2_spec. lia.
Qed.

(** The text of a non-negative integer: its digits, read back by
    [parseInt] as the same integer, untouched by [toUpperCase], and neither
    of the two commands. *)
Lemma toString_decimal (n : Z) :
  0 <= n ->
  parseInt (toString n) 10 = Some n
  /\ toUpperCase (toString n) = toString n
  /\ String.eqb (toString n) "X" = false
  /\ String.eqb (toString n) "?" = false.
Proof.
  intros Hn. unfold toString.
  destruct (Z.ltb_spec n 0); [lia|].
  destruct (to_digits_value _ n (log2_fuel n Hn)) as (Hne & Hall & Hval).
  set (ds := to_digits (S (Z.to_nat (Z.log2 n))) n) in *.
  split; [|split].
  - unfold parseInt.
    destruct ds as [|d ds']; [congruence|].
    assert (Hd : 0 <= d < 10) by (inversion Hall; assumption).
    change (string_of_digits (d :: ds'))
      with (String (digit_char d) (string_of_digits ds')).
    destruct (digit_char_plain d (string_of_digits ds') Hd) as (-> & -> & _).
    change (negb (10 =? 0) && ((10 <? 2) || (36 <? 10))) with false.
    cbv iota. rewrite choose_radix_decimal.
    change (String (digit_char d) (string_of_digits ds'))
      with (string_of_digits (d :: ds')).
    rewrite (radix_digits_decimal _ Hall), Hval.
    f_equal. lia.
  - apply toUpperCase_decimal. exact Hall.
  - destruct ds as [|d ds']; [congruence|].
    assert (Hd : 0 <= d < 10) by (inversion Hall; assumption).
    change (string_of_digits (d :: ds'))
      with (String (digit_char d) (string_of_digits ds')).
    destruct (digit_char_plain d (string_of_digits ds') Hd) as (_ & _ & HX & HQ).
    split; assumption.
Qed.

(** ** Strings: what [trim] removes *)

Lemma append_nil_r (s : string) : s ++ "" = s.
Proof.
  induction s as [|c s IH]; [reflexivity|]. cbn [append]. now rewrite IH.
Qed.

Lemma append_assoc (s1 s2 s3 : string) : (s1 ++ s2) ++ s3 = s1 ++ (s2 ++ s3).
Proof.
  induction s1 as [|c s1 IH]; [reflexivity|]. cbn [append]. now rewrite IH.
Qed.

Lemma rev_string_acc (s acc : string) :
  rev_string s acc = rev_string s "" ++ acc.
Proof.
  revert acc. induction s as [|c s IH]; intros acc; [reflexivity|].
  cbn [rev_string]. rewrite (IH (String c acc)), (IH (String c "")).
  now rewrite append_assoc.
Qed.

Lemma rev_string_app (u v : string) :
  rev_string (u ++ v) "" = rev_string v "" ++ rev_string u "".
Proof.
  induction u as [|c u IH].
  - cbn [append rev_string]. now rewrite append_nil_r.
  - cbn [append rev_string].
    rewrite (rev_string_acc (u ++ v)), (rev_string_acc u), IH.
    now rewrite append_assoc.
Qed.

Lemma rev_string_involutive (s : string) : rev_string (rev_string s "") "" = s.
Proof.
  induction s as [|c s IH]; [reflexivity|].
  cbn [rev_string]. rewrite (rev_string_acc s), rev_string_app, IH.
  reflexivity.
Qed.

Lemma trimStart_app (u v : string) (a : ascii) :
  isWhiteSpace a = false ->
  trimStart (u ++ String a v) = trimStart u ++ String a v.
Proof.
  intros Ha. induction u as [|c u IH].
  - cbn [append trimStart]. now rewrite Ha.
  - cbn [append trimStart]. destruct (isWhiteSpace c); [exact IH|reflexivity].
Qed.

Lemma trimStart_blank_app (u v : string) :
  trimStart u = "" -> trimStart v = "" -> trimStart (u ++ v) = "".
Proof.
  intros Hu Hv. induction u as [|c u IH]; [exact Hv|].
  cbn [append trimStart] in *.
  destruct (isWhiteSpace c); [now apply IH|discriminate].
Qed.

Lemma trimStart_blank_rev (s : string) :
  trimStart s = "" -> trimStart (rev_string s "") = "".
Proof.
  induction s as [|c s IH]; intros Hs; [reflexivity|].
  cbn [trimStart] in Hs. cbn [rev_string]. rewrite rev_string_acc.
  destruct (isWhiteSpace c) eqn:Hc; [|discriminate].
  apply trimStart_blank_app; [now apply IH|].
  cbn [trimStart]. now rewrite Hc.
Qed.

(** [trimEnd] keeps everything up to a character that is not white
    space. *)
Lemma trimEnd_app (u v : string) (a : ascii) :
  isWhiteSpace a = false ->
  trimEnd (u ++ String a v) = u ++ String a (trimEnd v).
Proof.
  intros Ha. unfold trimEnd.
  rewrite rev_string_app. cbn [rev_string].
  rewrite (rev_string_acc v (String a "")), append_assoc. cbn [append].
  rewrite trimStart_app by exact Ha.
  rewrite rev_string_app. cbn [rev_string].
  rewrite (rev_string_acc (rev_string u "") (String a "")), rev_string_involutive.
  rewrite append_assoc. reflexivity.
Qed.

Lemma trimEnd_blank (s : string) : trimStart s = "" -> trimEnd s = "".
Proof.
  intros Hs. unfold trimEnd. now rewrite (trimStart_blank_rev s Hs).
Qed.

(** A text is blank, or it has a last character that is not white
    space. *)
Lemma last_visible (s : string) :
  trimStart s = ""
  \/ exists u a v, s = u ++ String a v /\ isWhiteSpace a = false /\ trimStart v = "".
Proof.
  induction s as [|c s IH]; [now left|].
  destruct IH as [Hblank|(u & a & v & -> & Ha & Hv)].
  - destruct (isWhiteSpace c) eqn:Hc.
    + left. cbn [trimStart]. now rewrite Hc.
    + right. exists "", c, s. repeat split; assumption.
  - right. exists (String c u), a, v. repeat split; assumption.
Qed.

(** What [trimEnd] leaves of a text after a character that is not white
    space: nothing, or a text with the same first character. *)
Lemma trimEnd_tail (u : string) (a c : ascii) (rest : string) :
  isWhiteSpace a = false ->
  exists t,
    trimEnd (u ++ String a (String c rest)) = (u ++ String a "") ++ t
    /\ (t = "" \/ exists t', t = String c t').
Proof.
  intros Ha.
  destruct (last_visible (String c rest)) as [Hblank|(u' & b & v & E & Hb & Hv)].
  - exists "". split; [|now left].
    rewrite trimEnd_app by exact Ha. rewrite (trimEnd_blank _ Hblank).
    now rewrite append_nil_r.
  - exists (u' ++ String b ""). split.
    + rewrite E.
      replace (u ++ String a (u' ++ String b v))
        with ((u ++ String a u') ++ String b v)
        by (rewrite append_assoc; reflexivity).
      rewrite trimEnd_app by exact Hb. rewrite (trimEnd_blank _ Hv).
      rewrite !append_assoc. reflexivity.
    + right. destruct u' as [|c' u']; cbn [append] in E |- *.
      * injection E as -> _. now exists "".
      * injection E as -> _. now exists (u' ++ String b "").
Qed.

Lemma digit_char_visible (d : Z) : 0 <= d < 10 -> isWhiteSpace (digit_char d) = false.
Proof.
  intros Hd. digit_cases d; reflexivity.
Qed.

Lemma string_of_digits_snoc (ds : list Z) (d : Z) :
  string_of_digits (ds ++ [d]) = string_of_digits ds ++ String (digit_char d) "".
Proof.
  induction ds as [|d' ds IH]; [reflexivity|].
  cbn [app]. change (string_of_digits (d' :: ds ++ [d]))
    with (String (digit_char d') (string_of_digits (ds ++ [d]))).
  rewrite IH. reflexivity.
Qed.

(** The digits of a non-negative integer, as [toString] writes them. *)
Lemma toString_digits (n : Z) :
  0 <= n ->
  exists ds,
    toString n = string_of_digits ds
    /\ ds <> [] /\ Forall (fun d => 0 <= d < 10) ds /\ radix_value 10 ds = n.
Proof.
  intros Hn. unfold toString. destruct (Z.ltb_spec n 0); [lia|].
  destruct (to_digits_value _ n (log2_fuel n Hn)) as (Hne & Hall & Hval).
  eexists. repeat split; eassumption.
Qed.

Lemma trimStart_digits (ds : list Z) (t : string) :
  ds <> [] -> Forall (fun d => 0 <= d < 10) ds ->
  trimStart (string_of_digits ds ++ t) = string_of_digits ds ++ t.
Proof.
  intros Hne Hall. destruct ds as [|d ds]; [congruence|].
  inversion Hall as [|? ? Hd _]; subst.
  change (string_of_digits (d :: ds) ++ t)
    with (String (digit_char d) (string_of_digits ds ++ t)).
  apply (digit_char_plain d _ Hd).
Qed.

(** [trim] leaves the digits in front of a text alone, and what it leaves
    behind them is nothing or begins as before. *)
Lemma trim_after_digits (ds : list Z) (c : ascii) (rest : string) :
  ds <> [] -> Forall (fun d => 0 <= d < 10) ds ->
  exists t,
    trim (string_of_digits ds ++ String c rest) = string_of_digits ds ++ t
    /\ (t = "" \/ exists t', t = String c t').
Proof.
  intros Hne Hall. unfold trim. rewrite trimStart_digits by assumption.
  destruct (exists_last Hne) as (ds' & dl & ->).
  apply Forall_app in Hall. destruct Hall as [_ Hdl].
  inversion Hdl as [|? ? Hd _]; subst.
  rewrite string_of_digits_snoc, append_assoc. cbn [append].
  apply trimEnd_tail. now apply digit_char_visible.
Qed.

Lemma trim_digits (ds : list Z) (sign : string) :
  ds <> [] -> Forall (fun d => 0 <= d < 10) ds ->
  sign = "" \/ sign = "-" ->
  trim (sign ++ string_of_digits ds) = sign ++ string_of_digits ds.
Proof.
  intros Hne Hall Hsign. unfold trim.
  assert (Hstart : trimStart (sign ++ string_of_digits ds) = sign ++ string_of_digits ds).
  { destruct Hsign as [-> | ->]; [|reflexivity].
    cbn [append]. rewrite <- (append_nil_r (string_of_digits ds)).
    now apply trimStart_digits. }
  rewrite Hstart.
  destruct (exists_last Hne) as (ds' & dl & ->).
  apply Forall_app in Hall. destruct Hall as [_ Hdl].
  inversion Hdl as [|? ? Hd _]; subst.
  rewrite string_of_digits_snoc, <- append_assoc.
  rewrite trimEnd_app by now apply digit_char_visible.
  reflexivity.
Qed.

Lemma trim_toString (n : Z) : 0 <= n -> trim (toString n) = toString n.
Proof.
  intros Hn. destruct (toString_digits n Hn) as (ds & -> & Hne & Hall & _).
  apply (trim_digits ds "" Hne Hall). now left.
Qed.

(** ** Game: the fair roll *)

Lemma make_options_includes (n : Z) (s : string) :
  includes (Game.make_options n) s = true <->
  exists i, 0 <= i < n /\ s = toString i.
Proof.
  unfold includes, Game.make_options. rewrite existsb_exists. split.
  - intros (o & Hin & Heq). apply String.eqb_eq in Heq. subst o.
    apply in_map_iff in Hin. destruct Hin as (k & <- & Hk).
    apply in_seq in Hk. exists (Z.of_nat k). split; [lia|reflexivity].
  - intros (i & Hi & ->). exists (toString i). split; [|apply String.eqb_refl].
    apply in_map_iff. exists (Z.to_nat i). split.
    + now rewrite Z2Nat.id by lia.
    + apply in_seq. lia.
Qed.

(** How the prompt loop can end on the lines the user types. *)
Lemma choose_outcome (options lines : list string) :
  match Game.choose options lines with
  | (Normal userChoice, _) => includes options userChoice = true
  | (Throw _, _) => False
  | (Exit code, _) => code = 0
  | (Blocked, rest) => rest = []
  end.
Proof.
  induction lines as [|line rest IH]; [reflexivity|].
  cbn [Game.choose].
  destruct (String.eqb (toUpperCase (Game.answer line)) "X"); [reflexivity|].
  destruct (String.eqb (toUpperCase (Game.answer line)) "?"); [exact IH|].
  destruct (includes options (toUpperCase (Game.answer line))) eqn:E; cbn [negb];
    [exact E|exact IH].
Qed.

(** A line that is one of the options, with or without white space
    around it, ends the loop at once. *)
Lemma choose_option (n i : Z) (typed : string) (rest : list string) :
  0 <= i < n -> trim typed = toString i ->
  Game.choose (Game.make_options n) (typed :: rest) = (Normal (toString i), rest).
Proof.
  intros Hi Htyped. cbn [Game.choose]. unfold Game.answer. rewrite Htyped.
  destruct (toString_decimal i) as (_ & -> & -> & ->); [lia|].
  replace (includes (Game.make_options n) (toString i)) with true; [reflexivity|].
  symmetry. apply make_options_includes. now exists i.
Qed.

(** How a prompt can end: with one of the options, by the
    exception of a process without a terminal, with the user leaving, or
    waiting for a line.  It leaves the random source alone. *)
Lemma prompt_outcome (options : list string) (w : World) :
  match Game.prompt options w with
  | (Normal userChoice, w') =>
      includes options userChoice = true /\ tty w = true
      /\ entropy w' = entropy w /\ cursor w' = cursor w /\ tty w' = tty w
  | (Throw e, w') => e = TTY_UNAVAILABLE /\ tty w = false /\ w' = w
  | (Exit code, _) => code = 0
  | (Blocked, w') => stdin w' = []
  end.
Proof.
  unfold Game.prompt. destruct (tty w) eqn:Htty; [|repeat split].
  pose proof (choose_outcome options (stdin w)) as Hc.
  destruct (Game.choose options (stdin w)) as [[userChoice|e|code|] rest];
    cbn [stdin entropy cursor tty]; try exact Hc; [|destruct Hc].
  repeat split; assumption.
Qed.

(** With a terminal, a line that is one of the options is what the prompt
    returns. *)
Lemma prompt_option (n i : Z) (typed : string) (rest : list string) (w : World) :
  0 <= i < n -> tty w = true -> stdin w = typed :: rest ->
  trim typed = toString i ->
  Game.prompt (Game.make_options n) w
  = (Normal (toString i), mkWorld (entropy w) (cursor w) rest (tty w)).
Proof.
  intros Hi Htty Hin Htyped. unfold Game.prompt.
  now rewrite Htty, Hin, (choose_option n i typed rest Hi Htyped).
Qed.

Section FairRoll.
Context {crypto : Crypto}.

Lemma rollable_max (die : Dice.t) :
  rollable die -> 0 <= Dice.getFaceCount die - 1 < 4294967295.
Proof.
  unfold rollable, Dice.getFaceCount. intros [Hne Hle].
  destruct (Dice.faces die); [congruence|]. cbn [List.length] in *. lia.
Qed.

(** How [performFairRoll] can end.  When it returns, the result is the
    sum, modulo [max + 1], of the secret drawn from the random source and
    a contribution of the range; it throws only when the process has no
    terminal, the secret being drawn already. *)
Lemma performFairRoll_outcome (max : Z) (w : World) :
  0 <= max < 4294967295 ->
  let secret :=
    Z.rem (readUIntBE (map (entropy w) (seq (cursor w + 32) 6))) (max + 1) in
  match Game.performFairRoll max w with
  | (Normal r, w') =>
      (exists y, 0 <= y <= max /\ r = of_Z ((secret + y) mod (max + 1)))
      /\ cursor w' = (cursor w + 32 + 6)%nat
      /\ tty w = true /\ tty w' = tty w
  | (Throw e, w') =>
      e = TTY_UNAVAILABLE /\ tty w = false
      /\ cursor w' = (cursor w + 32 + 6)%nat
  | (Exit code, _) => code = 0
  | (Blocked, w') => stdin w' = []
  end.
Proof.
  intros Hmax secret. unfold Game.performFairRoll, bind.
  destruct (constructor_returns max w Hmax) as (g & Hg). rewrite Hg.
  destruct (constructor_inv max w _ g Hg) as (Hsize & Hx & _ & _ & _ & Hsecret).
  fold secret in Hsecret.
  pose proof (prompt_outcome (Game.make_options (max + 1))
                (mkWorld (entropy w) (cursor w + 32 + 6) (stdin w) (tty w)))
    as Hp.
  destruct (Game.prompt (Game.make_options (max + 1)) _)
    as [[userChoice|e|code|] w']; cbn [stdin entropy cursor tty] in Hp;
    try exact Hp.
  - destruct Hp as (Hopt & Htty & _ & Hcursor & Htty').
    apply make_options_includes in Hopt. destruct Hopt as (y & Hy & ->).
    destruct (toString_decimal y) as (-> & _); [lia|].
    unfold lift, FairRandomGenerator.computeResult.
    rewrite Hsize, js_rem_nonneg, Hsecret by lia.
    split; [|repeat split; assumption].
    exists y. split; [lia|reflexivity].
  - destruct Hp as (-> & Htty & ->). repeat split; assumption.
Qed.

(** When there is a terminal and the next line is a contribution of the
    range, [performFairRoll] returns an integer of the range. *)
Lemma performFairRoll_returns
    (max y : Z) (typed : string) (rest : list string) (w : World) :
  0 <= max < 4294967295 -> 0 <= y <= max ->
  tty w = true -> stdin w = typed :: rest -> trim typed = toString y ->
  Game.performFairRoll max w
  = (Normal (of_Z ((Z.rem (readUIntBE (map (entropy w) (seq (cursor w + 32) 6)))
                          (max + 1)
                    + y) mod (max + 1))),
     mkWorld (entropy w) (cursor w + 32 + 6) rest (tty w)).
Proof.
  intros Hmax Hy Htty Hin Htyped. unfold Game.performFairRoll, bind.
  destruct (constructor_returns max w Hmax) as (g & Hg). rewrite Hg.
  destruct (constructor_inv max w _ g Hg) as (Hsize & Hx & _ & _ & _ & Hsecret).
  rewrite (prompt_option (max + 1) y typed rest) by (cbn; (lia || assumption)).
  cbn [stdin entropy cursor tty].
  destruct (toString_decimal y) as (-> & _); [lia|].
  unfold lift, FairRandomGenerator.computeResult.
  now rewrite Hsize, js_rem_nonneg, Hsecret by lia.
Qed.

Lemma valid_index_in_range (die : Dice.t) (i : Z) :
  0 <= i <= Dice.getFaceCount die - 1 ->
  valid_index (Dice.getFaces die) (of_Z i).
Proof.
  intros Hi. apply index_of_Z. unfold Dice.getFaceCount, Dice.getFaces in *. lia.
Qed.

(** C10: a fair roll over a non-empty die, called with
    [max = faceCount - 1], returns an index of the die's faces: it
    returns one when the user's next line is a contribution in
    [0, max], and whatever it returns is one.  So the two faces
    [performThrows] reads are never [undefined].  Nothing is thrown as
    long as the process has a terminal to read the user's lines from. *)
Theorem fair_roll_indexes_faces
    (this : Game.t) (computerDie userDie : Dice.t) (w : World) :
  Game.computerDie this = Some computerDie ->
  Game.userDie this = Some userDie ->
  rollable computerDie -> rollable userDie ->
  (forall die w0 y rest,
      die = computerDie \/ die = userDie ->
      0 <= y <= Dice.getFaceCount die - 1 ->
      tty w0 = true ->
      stdin w0 = toString y :: rest ->
      exists r w',
        Game.performFairRoll (Dice.getFaceCount die - 1) w0 = (Normal r, w')
        /\ valid_index (Dice.getFaces die) r)
  /\ (forall die w0,
      die = computerDie \/ die = userDie ->
      match Game.performFairRoll (Dice.getFaceCount die - 1) w0 with
      | (Normal r, _) => valid_index (Dice.getFaces die) r
      | (Throw e, _) => e = TTY_UNAVAILABLE /\ tty w0 = false
      | (Exit code, _) => code = 0
      | (Blocked, w') => stdin w' = []
      end)
  /\ match Game.performThrows this w with
     | (Normal rolls, _) =>
         (exists face, Game.userRoll rolls = Some face)
         /\ (exists face, Game.computerRoll rolls = Some face)
     | (Throw e, _) => e = TTY_UNAVAILABLE /\ tty w = false
     | (Exit code, _) => code = 0
     | (Blocked, w') => stdin w' = []
     end.
Proof.
  intros Hcd Hud Hc Hu.
  assert (Hroll : forall die, die = computerDie \/ die = userDie -> rollable die)
    by (intros die [->| ->]; assumption).
  assert (Hsafe : forall die w0,
            die = computerDie \/ die = userDie ->
            match Game.performFairRoll (Dice.getFaceCount die - 1) w0 with
            | (Normal r, w') =>
                valid_index (Dice.getFaces die) r
                /\ tty w0 = true /\ tty w' = tty w0
            | (Throw e, _) => e = TTY_UNAVAILABLE /\ tty w0 = false
            | (Exit code, _) => code = 0
            | (Blocked, w') => stdin w' = []
            end).
  { intros die w0 Hdie.
    pose proof (performFairRoll_outcome _ w0 (rollable_max die (Hroll die Hdie))) as Ho.
    cbv zeta in Ho.
    destruct (Game.performFairRoll (Dice.getFaceCount die - 1) w0)
      as [[r|e|code|] w']; try exact Ho.
    - destruct Ho as ((y & Hy & ->) & _ & Htty & Htty').
      split; [|split; assumption].
      apply valid_index_in_range.
      pose proof (rollable_max die (Hroll die Hdie)).
      pose proof (Z.mod_pos_bound
                    (Z.rem (readUIntBE (map (entropy w0) (seq (cursor w0 + 32) 6)))
                           (Dice.getFaceCount die - 1 + 1) + y)
                    (Dice.getFaceCount die - 1 + 1)).
      lia.
    - destruct Ho as (He & Htty & _). now split. }
  split; [|split].
  - intros die w0 y rest Hdie Hy Htty Hin.
    rewrite (performFairRoll_returns _ y (toString y) rest w0
               (rollable_max die (Hroll die Hdie)) Hy Htty Hin
               (trim_toString y ltac:(lia))).
    eexists. eexists. split; [reflexivity|].
    apply valid_index_in_range.
    pose proof (rollable_max die (Hroll die Hdie)).
    pose proof (Z.mod_pos_bound
                  (Z.rem (readUIntBE (map (entropy w0) (seq (cursor w0 + 32) 6)))
                         (Dice.getFaceCount die - 1 + 1) + y)
                  (Dice.getFaceCount die - 1 + 1)).
    lia.
  - intros die w0 Hdie. pose proof (Hsafe die w0 Hdie) as Ho.
    destruct (Game.performFairRoll (Dice.getFaceCount die - 1) w0)
      as [[r|e|code|] w']; try exact Ho. apply Ho.
  - unfold Game.performThrows. rewrite Hcd, Hud. unfold bind.
    pose proof (Hsafe computerDie w (or_introl eq_refl)) as H1.
    destruct (Game.performFairRoll (Dice.getFaceCount computerDie - 1) w)
      as [[r1|e1|code1|] w1]; try exact H1.
    destruct H1 as (H1 & Htty & Htty1).
    pose proof (Hsafe userDie w1 (or_intror eq_refl)) as H2.
    destruct (Game.performFairRoll (Dice.getFaceCount userDie - 1) w1)
      as [[r2|e2|code2|] w2]; try exact H2.
    + destruct H2 as (H2 & _). unfold ret.
      cbn [Game.userRoll Game.computerRoll]. split; [exact H2|exact H1].
    + destruct H2 as (_ & Hno). congruence.
Qed.

End FairRoll.

Lemma fair_roll_indexes_faces_witness :
  match @Game.performThrows concat_crypto example_game
          (counting_world ["4"; "?"; "seven"; "2"]) with
  | (Normal rolls, _) =>
      (exists face, Game.userRoll rolls = Some face)
      /\ (exists face, Game.computerRoll rolls = Some face)
  | (Throw e, _) =>
      e = TTY_UNAVAILABLE /\ tty (counting_world ["4"; "?"; "seven"; "2"]) = false
  | (Exit code, _) => code = 0
  | (Blocked, w') => stdin w' = []
  end.
Proof.
  refine (proj2 (proj2 (@fair_roll_indexes_faces concat_crypto example_game
                          die_A die_B (counting_world ["4"; "?"; "seven"; "2"])
                          eq_refl eq_refl _ _)));
    (split; [discriminate|vm_compute; discriminate]).
Defined.

(** ** DiceParser *)

Lemma split_not_empty (sep : ascii) (s : string) : split sep s <> [].
Proof.
  destruct s as [|c s]; cbn [split]; [discriminate|].
  destruct (Ascii.eqb c sep); [discriminate|].
  destruct (split sep s); discriminate.
Qed.

Lemma cmapM_length {A B} (f : A -> completion B) (l : list A) (l' : list B) :
  cmapM f l = Normal l' -> List.length l' = List.length l.
Proof.
  revert l'. induction l as [|a l IH]; intros l' H; cbn [cmapM] in H.
  - injection H as <-. reflexivity.
  - destruct (f a) as [b| | |]; try discriminate. cbn [cbind] in H.
    destruct (cmapM f l) as [bs| | |]; try discriminate. cbn [cbind] in H.
    injection H as <-. cbn [List.length]. now rewrite (IH bs).
Qed.

(** What the loop of [parseDice] appends to the dice it already has: one
    die for each argument, in order, at consecutive addresses, with the
    faces read from the argument. *)
Lemma parse_args_appends (args : list string) (built dice : list Dice.t) :
  DiceParser.parse_args args built = Normal dice ->
  exists added,
    dice = (built ++ added)%list
    /\ Forall2 (fun arg d =>
                  cmapM DiceParser.parse_face (split "," arg) = Normal (Dice.faces d)
                  /\ (1 <= List.length (Dice.faces d))%nat)
         args added
    /\ map Dice.addr added = seq (List.length built) (List.length args).
Proof.
  revert built dice. induction args as [|arg args IH]; intros built dice H;
    cbn [DiceParser.parse_args] in H.
  - injection H as <-. exists []. rewrite app_nil_r. repeat split. constructor.
  - destruct (cmapM DiceParser.parse_face (split "," arg)) as [faces| | |] eqn:Ef;
      try discriminate. cbn [cbind] in H.
    destruct (Z.ltb_spec (Z.of_nat (List.length faces)) 1) as [|Hlen];
      [discriminate|].
    destruct (IH _ _ H) as (added & -> & Hall & Haddr).
    exists (Dice.new (List.length built) faces :: added).
    split; [now rewrite <- app_assoc|]. split.
    + constructor; [|exact Hall]. cbn [Dice.faces]. split; [exact Ef|lia].
    + cbn [map Dice.addr List.length seq]. f_equal.
      rewrite Haddr, length_app. cbn [List.length]. f_equal. lia.
Qed.




(** The test [faces.length < 1] of [parseDice] never fires: [split] gives
    at least one piece, and a piece that is not a number has already
    thrown. *)
Lemma parsed_faces_not_empty (arg : string) (faces : list Z) :
  cmapM DiceParser.parse_face (split "," arg) = Normal faces -> faces <> [].
Proof.
  intros H E. apply cmapM_length in H. subst faces.
  pose proof (split_not_empty "," arg) as Hne.
  destruct (split "," arg); [congruence|discriminate].
Qed.

(** The dice [parseDice] returns are distinct objects: the die at position
    [i] is at address [i]. *)
Lemma parseDice_addresses (args : list string) (dice : list Dice.t) :
  DiceParser.parseDice args = Normal dice ->
  map Dice.addr dice = seq 0 (List.length dice).
Proof.
  unfold DiceParser.parseDice. intros H.
  destruct (Z.of_nat (List.length args) <? 3); [discriminate|].
  destruct (parse_args_appends args [] dice H) as (added & -> & Hall & Haddr).
  cbn [app List.length] in *. now rewrite <- (Forall2_length Hall).
Qed.

Lemma occurrences_of_stranger (d : Dice.t) (pool : list Dice.t) :
  (forall e, In e pool -> Dice.addr e <> Dice.addr d) -> occurrences d pool = 0%nat.
Proof.
  unfold occurrences. induction pool as [|e pool IH]; intros Hall; [reflexivity|].
  cbn [filter]. unfold Dice.same at 1.
  destruct (Nat.eqb_spec (Dice.addr d) (Dice.addr e)) as [E|_].
  - exfalso. apply (Hall e); [now left|now symmetry].
  - apply IH. intros e' He'. apply Hall. now right.
Qed.

Lemma occurrences_of_member (d : Dice.t) (pool : list Dice.t) (start : nat) :
  map Dice.addr pool = seq start (List.length pool) ->
  In d pool -> occurrences d pool = 1%nat.
Proof.
  revert start. induction pool as [|e pool IH]; intros start Haddr Hin;
    [destruct Hin|].
  cbn [map List.length seq] in Haddr. injection Haddr as He Hrest.
  assert (Hlater : forall e', In e' pool -> (S start <= Dice.addr e')%nat).
  { intros e' He'. apply (in_map Dice.addr) in He'. rewrite Hrest in He'.
    apply in_seq in He'. lia. }
  unfold occurrences. cbn [filter]. fold (occurrences d pool).
  unfold Dice.same at 1.
  destruct Hin as [<-|Hin].
  - rewrite Nat.eqb_refl. cbn [List.length]. f_equal.
    apply occurrences_of_stranger. intros e' He'.
    specialize (Hlater e' He'). lia.
  - specialize (Hlater d Hin).
    destruct (Nat.eqb_spec (Dice.addr d) (Dice.addr e)) as [E|_]; [lia|].
    now apply (IH (S start)).
Qed.

(** On the dice of a game, which is where [selectComputerDie] calls it,
    [averageWinProbability] is the mean against the other dice. *)
Lemma parsed_dice_average_is_mean (args : list string) (dice : list Dice.t) (d : Dice.t) :
  DiceParser.parseDice args = Normal dice -> In d dice ->
  ProbabilityCalculator.averageWinProbability d dice = mean_against_others d dice.
Proof.
  intros Hparse Hin.
  pose proof (occurrences_of_member d dice 0 (parseDice_addresses args dice Hparse) Hin)
    as Hocc.
  rewrite averageWinProbability_value. unfold mean_against_others.
  now rewrite (divisor_counts_others d dice Hocc).
Qed.

(** ** The dice of the usage example *)

Example parse_usage_example :
  DiceParser.parseDice ["2,2,4,4,9,9"; "6,8,1,1,8,6"; "7,5,3,7,5,3"]
  = Normal [die_A; die_B; die_C].
Proof.
  reflexivity.
Qed.

(** Each die beats the next one in more than half of the face pairs. *)
Example usage_example_is_not_transitive :
  ProbabilityCalculator.calculateWinProbability die_A die_B
  = Normal (binary64 (ratio 5 9))
  /\ ProbabilityCalculator.calculateWinProbability die_B die_C
     = Normal (binary64 (ratio 5 9))
  /\ ProbabilityCalculator.calculateWinProbability die_C die_A
     = Normal (binary64 (ratio 5 9))
  /\ num_gt (binary64 (ratio 5 9)) (binary64 (ratio 1 2)) = true.
Proof.
  repeat split; vm_compute; reflexivity.
Qed.

Example all_ties_give_zero :
  ProbabilityCalculator.calculateWinProbability (Dice.new 0 [1; 1]) (Dice.new 1 [1; 1])
  = Normal (of_Z 0).
Proof.
  number_eq.
Qed.

Example roll_of_example_game :
  fst (@Game.performThrows concat_crypto example_game
         (counting_world ["4"; "?"; "seven"; "2"]))
  = Normal (Game.mkThrows (Some 6) (Some 2)).
Proof.
  vm_compute. reflexivity.
Qed.

(** * Further properties of the program *)

(** ** FairRandomGenerator: what the combination guarantees *)

Lemma mod_close_inj (a b n : Z) :
  0 < n -> Z.abs (a - b) < n -> a mod n = b mod n -> a = b.
Proof.
  intros Hn Hclose Hmod.
  pose proof (Z.div_mod a n ltac:(lia)) as Ha.
  pose proof (Z.div_mod b n ltac:(lia)) as Hb.
  rewrite Hmod in Ha.
  assert (Hq : a / n = b / n) by nia.
  rewrite Hq in Ha. lia.
Qed.

Lemma Normal_of_Z_inj (a b : Z) :
  @Normal number (of_Z a) = Normal (of_Z b) -> a = b.
Proof.
  intros E. apply of_Z_inj. congruence.
Qed.

Lemma computeResult_in_range (g : FairRandomGenerator.t) (y : Z) :
  0 <= FairRandomGenerator.x g <= FairRandomGenerator.rangeSize g ->
  0 <= y <= FairRandomGenerator.rangeSize g ->
  FairRandomGenerator.computeResult g y
  = Normal (of_Z ((FairRandomGenerator.x g + y)
                  mod (FairRandomGenerator.rangeSize g + 1))).
Proof.
  intros Hx Hy. unfold FairRandomGenerator.computeResult.
  now rewrite js_rem_nonneg by lia.
Qed.

(** X1: with the secret fixed, the contributions of the range give each
    result of the range exactly once; with the contribution fixed, two
    secrets of the range that give the same result are the same. *)
Theorem computeResult_one_to_one (g : FairRandomGenerator.t) :
  0 <= FairRandomGenerator.x g <= FairRandomGenerator.rangeSize g ->
  (forall y y',
      0 <= y <= FairRandomGenerator.rangeSize g ->
      0 <= y' <= FairRandomGenerator.rangeSize g ->
      FairRandomGenerator.computeResult g y = FairRandomGenerator.computeResult g y' ->
      y = y')
  /\ (forall r,
      0 <= r <= FairRandomGenerator.rangeSize g ->
      exists y, 0 <= y <= FairRandomGenerator.rangeSize g
                /\ FairRandomGenerator.computeResult g y = Normal (of_Z r))
  /\ (forall g' y,
      FairRandomGenerator.rangeSize g' = FairRandomGenerator.rangeSize g ->
      0 <= FairRandomGenerator.x g' <= FairRandomGenerator.rangeSize g ->
      0 <= y <= FairRandomGenerator.rangeSize g ->
      FairRandomGenerator.computeResult g y = FairRandomGenerator.computeResult g' y ->
      FairRandomGenerator.x g = FairRandomGenerator.x g').
Proof.
  intros Hx. split; [|split].
  - intros y y' Hy Hy' E.
    rewrite !computeResult_in_range in E by assumption.
    apply Normal_of_Z_inj in E.
    assert (FairRandomGenerator.x g + y = FairRandomGenerator.x g + y')
      by (apply (mod_close_inj _ _ (FairRandomGenerator.rangeSize g + 1)); lia).
    lia.
  - intros r Hr.
    set (n := FairRandomGenerator.rangeSize g + 1).
    exists ((r - FairRandomGenerator.x g) mod n).
    pose proof (Z.mod_pos_bound (r - FairRandomGenerator.x g) n ltac:(subst n; lia)).
    split; [subst n; lia|].
    rewrite computeResult_in_range by (subst n; lia). fold n.
    do 2 f_equal.
    rewrite Zplus_mod_idemp_r.
    replace (FairRandomGenerator.x g + (r - FairRandomGenerator.x g)) with r by lia.
    apply Z.mod_small. subst n. lia.
  - intros g' y Hsize Hx' Hy E.
    rewrite computeResult_in_range in E by assumption.
    rewrite computeResult_in_range in E by (rewrite Hsize; assumption).
    rewrite Hsize in E.
    apply Normal_of_Z_inj in E.
    assert (FairRandomGenerator.x g + y = FairRandomGenerator.x g' + y)
      by (apply (mod_close_inj _ _ (FairRandomGenerator.rangeSize g + 1)); lia).
    lia.
Qed.

Lemma computeResult_one_to_one_witness :
  let g := FairRandomGenerator.mk 5 [] 3 "" in
  (forall y y', 0 <= y <= 5 -> 0 <= y' <= 5 ->
      FairRandomGenerator.computeResult g y = FairRandomGenerator.computeResult g y' ->
      y = y')
  /\ (forall r, 0 <= r <= 5 ->
      exists y, 0 <= y <= 5 /\ FairRandomGenerator.computeResult g y = Normal (of_Z r))
  /\ (forall g' y,
      FairRandomGenerator.rangeSize g' = 5 ->
      0 <= FairRandomGenerator.x g' <= 5 -> 0 <= y <= 5 ->
      FairRandomGenerator.computeResult g y = FairRandomGenerator.computeResult g' y ->
      3 = FairRandomGenerator.x g').
Proof.
  apply (computeResult_one_to_one (FairRandomGenerator.mk 5 [] 3 "")).
  simpl. lia.
Defined.

Lemma to_hex_length (bs : list byte) :
  String.length (to_hex bs) = (2 * List.length bs)%nat.
Proof.
  induction bs as [|b bs IH]; [reflexivity|].
  cbn [to_hex String.length List.length]. rewrite IH. lia.
Qed.

Lemma writeUInt32BE_is_writeUIntBE (v : Z) :
  0 <= v <= 4294967295 -> writeUInt32BE v = Normal (writeUIntBE v 4).
Proof.
  intros Hv. unfold writeUInt32BE.
  destruct (Z.leb_spec 0 v); [|lia].
  destruct (Z.leb_spec v 4294967295); [|lia].
  cbn [andb writeUIntBE app].
  rewrite !Z.div_div by lia. reflexivity.
Qed.

Lemma writeUInt32BE_fails (v : Z) :
  4294967295 < v -> writeUInt32BE v = Throw (ERR_OUT_OF_RANGE "value").
Proof.
  intros Hv. unfold writeUInt32BE.
  destruct (Z.leb_spec v 4294967295); [lia|].
  now rewrite andb_false_r.
Qed.

(** The number [crypto.randomInt] draws on a range it accepts. *)
Lemma randomInt_sample (min max : Z) (w : World) :
  isSafeInteger min = true -> isSafeInteger max = true ->
  min < max -> max - min <= RAND_MAX ->
  randomInt min max w
  = (Normal (Z.rem (readUIntBE (map (entropy w) (seq (cursor w) 6))) (max - min) + min),
     mkWorld (entropy w) (cursor w + 6) (stdin w) (tty w)).
Proof.
  intros Hmin Hmax Hlt Hrange. unfold randomInt.
  rewrite Hmin, Hmax. cbn [negb].
  destruct (Z.leb_spec max min); [lia|].
  destruct (Z.leb_spec (max - min) RAND_MAX); [|lia].
  reflexivity.
Qed.

Section GeneratorProperties.
Context {crypto : Crypto}.

(** X2: on every range size from 0 to 2^32 - 2 the constructor returns a
    generator.  It has read 38 bytes of the random source, the first 32 of
    them as the key, and none of the user's lines; the secret is in
    [0, rangeSize]. *)
Theorem constructor_succeeds (size : Z) (w : World) :
  0 <= size < 4294967295 ->
  exists g,
    FairRandomGenerator.constructor size w
    = (Normal g, mkWorld (entropy w) (cursor w + 32 + 6) (stdin w) (tty w))
    /\ FairRandomGenerator.rangeSize g = size
    /\ 0 <= FairRandomGenerator.getX g <= size
    /\ FairRandomGenerator.key g = map (entropy w) (seq (cursor w) 32)
    /\ List.length (FairRandomGenerator.key g) = 32%nat.
Proof.
  intros Hsize. destruct (constructor_returns size w Hsize) as (g & Hg).
  destruct (constructor_inv size w _ g Hg) as (Hr & Hx & Hk & _).
  exists g. repeat split; try assumption; try apply Hx.
  rewrite Hk, length_map, length_seq. reflexivity.
Qed.

(** X3: the text [getKey] reveals has 64 characters and decodes to the
    32 bytes of the key. *)
Theorem getKey_decodes_to_key (size : Z) (w w' : World) (g : FairRandomGenerator.t) :
  FairRandomGenerator.constructor size w = (Normal g, w') ->
  String.length (FairRandomGenerator.getKey g) = 64%nat
  /\ from_hex (FairRandomGenerator.getKey g) = FairRandomGenerator.key g.
Proof.
  intros Hg. destruct (constructor_inv size w w' g Hg) as (_ & _ & Hk & _).
  unfold FairRandomGenerator.getKey. split; [|apply from_hex_to_hex].
  rewrite to_hex_length, Hk, length_map, length_seq. reflexivity.
Qed.

(** X4: the digest of a generated commitment is the keyed hash of four
    bytes that read back, most significant byte first, as the secret. *)
Theorem digest_covers_secret (size : Z) (w w' : World) (g : FairRandomGenerator.t) :
  FairRandomGenerator.constructor size w = (Normal g, w') ->
  exists data,
    List.length data = 4%nat
    /\ readUIntBE data = FairRandomGenerator.getX g
    /\ FairRandomGenerator.getHMAC g
       = to_hex (hmac_sha3_256 (FairRandomGenerator.key g) data).
Proof.
  intros Hg. destruct (constructor_inv size w w' g Hg) as (_ & Hx & _ & Hmac & _).
  unfold FairRandomGenerator.computeHMAC in Hmac.
  destruct (Z_le_gt_dec (FairRandomGenerator.x g) 4294967295) as [Hle|Hgt].
  - rewrite writeUInt32BE_is_writeUIntBE in Hmac by lia. cbn [cbind] in Hmac.
    exists (writeUIntBE (FairRandomGenerator.x g) 4).
    split; [apply length_writeUIntBE|]. split.
    + rewrite readUIntBE_writeUIntBE.
      change (256 ^ Z.of_nat 4) with 4294967296.
      apply Z.mod_small. unfold FairRandomGenerator.getX. lia.
    + unfold FairRandomGenerator.getHMAC. congruence.
  - rewrite writeUInt32BE_fails in Hmac by lia. discriminate.
Qed.

(** X5: a range wider than 2^32 values is accepted by [crypto.randomInt]
    but not always by the constructor: when the secret drawn is above
    2^32 - 1, writing it on four bytes throws, after the key and the
    secret have been read. *)
Theorem constructor_fails_on_wide_secret
    (size secret : Z) (bytes : list byte) (lines : list string) :
  List.length bytes = 32%nat ->
  4294967295 < secret <= size -> size < RAND_MAX ->
  FairRandomGenerator.constructor size
    (tape_world (bytes ++ writeUIntBE secret 6) lines)
  = (Throw (ERR_OUT_OF_RANGE "value"),
     mkWorld (entropy (tape_world (bytes ++ writeUIntBE secret 6) lines))
       38 lines true).
Proof.
  intros Hlen Hsecret Hsize.
  set (w := tape_world (bytes ++ writeUIntBE secret 6) lines).
  unfold FairRandomGenerator.constructor, bind, randomBytes, read_entropy.
  set (w1 := mkWorld (entropy w) (cursor w + 32) (stdin w) (tty w)).
  rewrite randomInt_sample
    by (unfold isSafeInteger, MAX_SAFE_INTEGER, RAND_MAX in *; lia).
  assert (Hs : map (entropy w1) (seq (cursor w1) 6) = writeUIntBE secret 6).
  { destruct (read_tape_parts bytes (writeUIntBE secret 6)) as (_ & Hsecond).
    rewrite Hlen, length_writeUIntBE in Hsecond. exact Hsecond. }
  rewrite Hs, readUIntBE_writeUIntBE.
  change (256 ^ Z.of_nat 6) with 281474976710656.
  unfold RAND_MAX in Hsize.
  rewrite Z.mod_small by lia. rewrite Z.rem_small by lia.
  unfold lift, FairRandomGenerator.computeHMAC.
  cbn [FairRandomGenerator.x]. rewrite writeUInt32BE_fails by lia.
  reflexivity.
Qed.

End GeneratorProperties.

Lemma constructor_succeeds_witness :
  exists g,
    @FairRandomGenerator.constructor concat_crypto 0 (counting_world ["1"])
    = (Normal g, mkWorld (entropy (counting_world ["1"])) (0 + 32 + 6) ["1"] true)
    /\ FairRandomGenerator.rangeSize g = 0
    /\ 0 <= FairRandomGenerator.getX g <= 0
    /\ FairRandomGenerator.key g
       = map (entropy (counting_world ["1"])) (seq 0 32)
    /\ List.length (FairRandomGenerator.key g) = 32%nat.
Proof.
  apply (@constructor_succeeds concat_crypto 0 (counting_world ["1"])). lia.
Defined.

Lemma getKey_decodes_to_key_witness :
  exists g w',
    @FairRandomGenerator.constructor concat_crypto 5 (counting_world []) = (Normal g, w')
    /\ String.length (FairRandomGenerator.getKey g) = 64%nat
    /\ from_hex (FairRandomGenerator.getKey g) = FairRandomGenerator.key g.
Proof.
  eexists. eexists. split; [reflexivity|].
  eapply (@getKey_decodes_to_key concat_crypto 5 (counting_world [])).
  reflexivity.
Defined.

Lemma digest_covers_secret_witness :
  exists g w',
    @FairRandomGenerator.constructor concat_crypto 5 (counting_world []) = (Normal g, w')
    /\ exists data,
         List.length data = 4%nat
         /\ readUIntBE data = FairRandomGenerator.getX g
         /\ FairRandomGenerator.getHMAC g
            = to_hex (@hmac_sha3_256 concat_crypto (FairRandomGenerator.key g) data).
Proof.
  eexists. eexists. split; [reflexivity|].
  eapply (@digest_covers_secret concat_crypto 5 (counting_world [])).
  reflexivity.
Defined.

Lemma constructor_fails_on_wide_secret_witness :
  @FairRandomGenerator.constructor concat_crypto 5000000000
    (tape_world (repeat x00 32 ++ writeUIntBE 4294967296 6) [])
  = (Throw (ERR_OUT_OF_RANGE "value"),
     mkWorld (entropy (tape_world (repeat x00 32 ++ writeUIntBE 4294967296 6) []))
       38 [] true).
Proof.
  apply (@constructor_fails_on_wide_secret concat_crypto 5000000000 4294967296
           (repeat x00 32) []);
    [reflexivity|lia|unfold RAND_MAX; lia].
Defined.

(** ** Digits followed by something else *)

(** A character that ends a decimal number and does not turn a leading
    zero into the mark of a hexadecimal one. *)
Lemma stops_decimal (c : ascii) (s : string) :
  (code c <? 48) || (57 <? code c) = true ->
  radix_digits 10 (String c s) = [].
Proof.
  intros Hc. cbn [radix_digits]. unfold digit_value.
  destruct ((48 <=? code c) && (code c <=? 57)) eqn:E1; [lia|].
  destruct ((97 <=? code c) && (code c <=? 122)) eqn:E2.
  { destruct (Z.ltb_spec (code c - 87) 10); [lia|reflexivity]. }
  destruct ((65 <=? code c) && (code c <=? 90)) eqn:E3; [|reflexivity].
  destruct (Z.ltb_spec (code c - 55) 10); [lia|reflexivity].
Qed.

Lemma strip_0x_after_zero (s : string) :
  (forall s', s <> String "x" s') -> (forall s', s <> String "X" s') ->
  strip_0x (String "0" s) = None.
Proof.
  intros Hx HX. destruct s as [|c s]; [reflexivity|].
  destruct c as [[] [] [] [] [] [] [] []]; try reflexivity;
    exfalso; first [now apply (Hx s)|now apply (HX s)].
Qed.

Lemma digit_char_not_x (d : Z) (s s' : string) :
  0 <= d < 10 ->
  String (digit_char d) s <> String "x" s' /\ String (digit_char d) s <> String "X" s'.
Proof.
  intros Hd. digit_cases d; split; discriminate.
Qed.

Lemma digits_are_not_hexadecimal (ds : list Z) (t : string) :
  ds <> [] -> Forall (fun d => 0 <= d < 10) ds ->
  (forall s', t <> String "x" s') -> (forall s', t <> String "X" s') ->
  strip_0x (string_of_digits ds ++ t) = None.
Proof.
  intros Hne Hall Hx HX.
  destruct ds as [|d ds]; [congruence|].
  inversion Hall as [|? ? Hd Hrest]; subst.
  change (string_of_digits (d :: ds) ++ t)
    with (String (digit_char d) (string_of_digits ds ++ t)).
  assert (Hnext : (forall s', string_of_digits ds ++ t <> String "x" s')
                  /\ (forall s', string_of_digits ds ++ t <> String "X" s')).
  { destruct ds as [|d' ds']; [split; assumption|].
    inversion Hrest as [|? ? Hd' _]; subst.
    change (string_of_digits (d' :: ds') ++ t)
      with (String (digit_char d') (string_of_digits ds' ++ t)).
    split; intros s'; apply (digit_char_not_x d' _ s' Hd'). }
  destruct Hnext as [Hnx HnX].
  digit_cases d; try reflexivity.
  now apply strip_0x_after_zero.
Qed.

Lemma radix_digits_prefix (ds : list Z) (t : string) :
  Forall (fun d => 0 <= d < 10) ds -> radix_digits 10 t = [] ->
  radix_digits 10 (string_of_digits ds ++ t) = ds.
Proof.
  intros Hall Ht. induction Hall as [|d ds Hd _ IH]; [exact Ht|].
  change (string_of_digits (d :: ds) ++ t)
    with (String (digit_char d) (string_of_digits ds ++ t)).
  cbn [radix_digits]. rewrite (digit_char_value d Hd).
  destruct (Z.ltb_spec d 10); [|lia]. now rewrite IH.
Qed.

(** [parseInt] without a radix, on decimal digits followed by a text that
    does not continue the number. *)
Lemma parseInt_decimal_prefix (ds : list Z) (t : string) :
  ds <> [] -> Forall (fun d => 0 <= d < 10) ds ->
  radix_digits 10 t = [] ->
  (forall s', t <> String "x" s') -> (forall s', t <> String "X" s') ->
  parseInt (string_of_digits ds ++ t) 0 = Some (radix_value 10 ds)
  /\ parseInt (String "-" (string_of_digits ds ++ t)) 0 = Some (- radix_value 10 ds).
Proof.
  intros Hne Hall Ht Hx HX.
  pose proof (digits_are_not_hexadecimal ds t Hne Hall Hx HX) as H0x.
  pose proof (radix_digits_prefix ds t Hall Ht) as Hds.
  assert (Hbody : choose_radix 0 (string_of_digits ds ++ t)
                  = (10, string_of_digits ds ++ t))
    by (unfold choose_radix; now rewrite H0x).
  split.
  - unfold parseInt.
    destruct ds as [|d ds']; [congruence|].
    assert (Hd : 0 <= d < 10) by (inversion Hall; assumption).
    change (string_of_digits (d :: ds') ++ t)
      with (String (digit_char d) (string_of_digits ds' ++ t)) in *.
    destruct (digit_char_plain d (string_of_digits ds' ++ t) Hd) as (-> & -> & _).
    cbn [Z.eqb negb andb]. rewrite Hbody, Hds. apply (f_equal Some). lia.
  - unfold parseInt. cbn [trimStart].
    change (isWhiteSpace "-") with false. cbv iota. cbn [strip_sign].
    cbn [Z.eqb negb andb]. rewrite Hbody, Hds.
    destruct ds as [|d ds']; [congruence|]. apply (f_equal Some). lia.
Qed.

(** ** DiceParser: what it accepts and what it builds *)

(** X6: a piece that begins with the digits of a number and goes on with
    anything that is not a digit is accepted as that number: the rest,
    such as the fraction of "1.5", is dropped without an error. *)
Theorem parse_face_ignores_tail (n : Z) (c : ascii) (rest : string) :
  0 <= n <= MAX_SAFE_INTEGER ->
  (code c <? 48) || (57 <? code c) = true ->
  c <> "x"%char -> c <> "X"%char ->
  DiceParser.parse_face (toString n ++ String c rest) = Normal n.
Proof.
  intros Hn Hc Hx HX.
  destruct (toString_digits n) as (ds & -> & Hne & Hall & Hval); [lia|].
  unfold DiceParser.parse_face.
  destruct (trim_after_digits ds c rest Hne Hall) as (t & -> & Ht).
  assert (Hstop : radix_digits 10 t = [])
    by (destruct Ht as [-> | (t' & ->)]; [reflexivity|now apply stops_decimal]).
  assert (Hnx : forall s', t <> String "x" s')
    by (destruct Ht as [-> | (t' & ->)]; intros s'; congruence).
  assert (HnX : forall s', t <> String "X" s')
    by (destruct Ht as [-> | (t' & ->)]; intros s'; congruence).
  destruct (parseInt_decimal_prefix ds t Hne Hall Hstop Hnx HnX) as (-> & _).
  now rewrite Hval.
Qed.

Lemma parse_face_ignores_tail_witness :
  DiceParser.parse_face (toString 1 ++ String "." "5") = Normal 1.
Proof.
  apply (parse_face_ignores_tail 1 "." "5");
    [unfold MAX_SAFE_INTEGER; lia|reflexivity|discriminate|discriminate].
Defined.

(** The text of an integer is read back by [parse_face] as the integer. *)
Lemma parse_face_toString (n : Z) : DiceParser.parse_face (toString n) = Normal n.
Proof.
  unfold DiceParser.parse_face.
  assert (Hempty : radix_digits 10 "" = []) by reflexivity.
  assert (Hnx : forall s', "" <> String "x" s') by discriminate.
  assert (HnX : forall s', "" <> String "X" s') by discriminate.
  destruct (Z.ltb_spec n 0) as [Hneg|Hpos].
  - destruct (toString_digits (- n)) as (ds & Hds & Hne & Hall & Hval); [lia|].
    assert (Htext : toString n = "-" ++ string_of_digits ds).
    { unfold toString in *. destruct (Z.ltb_spec n 0); [|lia].
      destruct (Z.ltb_spec (- n) 0); [lia|]. cbn [append]. now rewrite Hds. }
    rewrite Htext, trim_digits by (assumption || now right).
    cbn [append]. rewrite <- (append_nil_r (string_of_digits ds)).
    destruct (parseInt_decimal_prefix ds "" Hne Hall Hempty Hnx HnX) as (_ & ->).
    rewrite Hval. f_equal. lia.
  - destruct (toString_digits n Hpos) as (ds & -> & Hne & Hall & Hval).
    pose proof (trim_digits ds "" Hne Hall (or_introl eq_refl)) as Htrim.
    cbn [append] in Htrim. rewrite Htrim.
    rewrite <- (append_nil_r (string_of_digits ds)).
    destruct (parseInt_decimal_prefix ds "" Hne Hall Hempty Hnx HnX) as (-> & _).
    now rewrite Hval.
Qed.

Lemma split_digits (ds : list Z) :
  Forall (fun d => 0 <= d < 10) ds ->
  split "," (string_of_digits ds) = [string_of_digits ds].
Proof.
  induction 1 as [|d ds Hd _ IH]; [reflexivity|].
  change (string_of_digits (d :: ds))
    with (String (digit_char d) (string_of_digits ds)).
  cbn [split]. rewrite IH.
  replace (Ascii.eqb (digit_char d) ",") with false
    by (digit_cases d; reflexivity).
  reflexivity.
Qed.

Lemma split_toString (n : Z) : split "," (toString n) = [toString n].
Proof.
  unfold toString. destruct (Z.ltb_spec n 0).
  - destruct (to_digits_value _ (- n) (log2_fuel (- n) ltac:(lia))) as (_ & Hall & _).
    cbn [split]. change (Ascii.eqb "-" ",") with false. cbv iota.
    now rewrite (split_digits _ Hall).
  - destruct (to_digits_value _ n (log2_fuel n ltac:(lia))) as (_ & Hall & _).
    now apply split_digits.
Qed.

(** A piece without separator, then the separator: [split] gives the piece
    and goes on behind the separator. *)
Lemma split_after_piece (sep : ascii) (piece s : string) :
  split sep piece = [piece] ->
  split sep (piece ++ String sep s) = piece :: split sep s.
Proof.
  induction piece as [|c piece IH]; intros Hpiece.
  - cbn [append split]. now rewrite Ascii.eqb_refl.
  - cbn [append split] in *.
    destruct (Ascii.eqb c sep); [discriminate|].
    destruct (split sep piece) as [|h t] eqn:E.
    + exfalso. now apply (split_not_empty sep piece).
    + injection Hpiece as -> ->. now rewrite IH.
Qed.

Lemma split_join (pieces : list string) :
  pieces <> [] -> Forall (fun piece => split "," piece = [piece]) pieces ->
  split "," (join "," pieces) = pieces.
Proof.
  intros Hne Hall. induction Hall as [|piece pieces Hpiece Hall IH]; [congruence|].
  destruct pieces as [|next pieces]; [exact Hpiece|].
  change (join "," (piece :: next :: pieces))
    with (piece ++ String "," (join "," (next :: pieces))).
  rewrite split_after_piece by exact Hpiece.
  now rewrite IH.
Qed.

Lemma cmapM_parse_texts (faces : list Z) :
  cmapM DiceParser.parse_face (map toString faces) = Normal faces.
Proof.
  induction faces as [|face faces IH]; [reflexivity|].
  cbn [map cmapM]. now rewrite parse_face_toString, IH.
Qed.

(** X7: what [toString] prints between the brackets for a die whose
    faces are safe integers, at least one of them, is text that the
    parser reads back as the same faces. *)
Theorem printed_die_parses_back (d : Dice.t) :
  Dice.faces d <> [] ->
  Forall (fun face => isSafeInteger face = true) (Dice.faces d) ->
  exists body,
    Dice.toString d = "[" ++ body ++ "]"
    /\ cmapM DiceParser.parse_face (split "," body) = Normal (Dice.faces d).
Proof.
  intros Hne _. exists (join "," (map toString (Dice.faces d))).
  split; [reflexivity|].
  rewrite split_join.
  - apply cmapM_parse_texts.
  - destruct (Dice.faces d); [congruence|discriminate].
  - apply Forall_forall. intros piece Hin.
    apply in_map_iff in Hin. destruct Hin as (face & <- & _).
    apply split_toString.
Qed.

Lemma printed_die_parses_back_witness :
  exists body,
    Dice.toString (Dice.new 0 [-3; 0; 12]) = "[" ++ body ++ "]"
    /\ cmapM DiceParser.parse_face (split "," body) = Normal [-3; 0; 12].
Proof.
  apply (printed_die_parses_back (Dice.new 0 [-3; 0; 12]));
    [discriminate|repeat constructor].
Defined.

(** How the faces of one argument are read: all of them, or the error for
    the first piece that is not a number. *)
Lemma parse_pieces_outcome (pieces : list string) :
  match cmapM DiceParser.parse_face pieces with
  | Normal faces =>
      Forall (fun piece => parseInt (trim piece) 0 <> None) pieces
      /\ List.length faces = List.length pieces
  | Throw e =>
      exists piece,
        In piece pieces /\ parseInt (trim piece) 0 = None
        /\ e = Error ("Invalid Die face: " ++ piece)
  | Exit _ => False
  | Blocked => False
  end.
Proof.
  induction pieces as [|piece pieces IH]; [split; [constructor|reflexivity]|].
  cbn [cmapM]. unfold DiceParser.parse_face at 1.
  destruct (parseInt (trim piece) 0) as [face|] eqn:E.
  - cbn [cbind]. destruct (cmapM DiceParser.parse_face pieces) as [faces|e| |];
      cbn [cbind]; try exact IH.
    + destruct IH as [Hall Hlen]. split.
      * constructor; [congruence|exact Hall].
      * cbn [List.length]. now rewrite Hlen.
    + destruct IH as (p & Hin & Hnan & ->). exists p.
      repeat split; [now right|exact Hnan].
  - cbn [cbind]. exists piece. repeat split; [now left|exact E].
Qed.

Lemma parse_args_outcome (args : list string) (built : list Dice.t) :
  match DiceParser.parse_args args built with
  | Normal dice =>
      Forall (fun arg =>
                Forall (fun piece => parseInt (trim piece) 0 <> None) (split "," arg))
        args
  | Throw e =>
      exists arg piece,
        In arg args /\ In piece (split "," arg)
        /\ parseInt (trim piece) 0 = None
        /\ e = Error ("Invalid Die face: " ++ piece)
  | Exit _ => False
  | Blocked => False
  end.
Proof.
  revert built. induction args as [|arg args IH]; intros built; [constructor|].
  cbn [DiceParser.parse_args].
  pose proof (parse_pieces_outcome (split "," arg)) as Hp.
  destruct (cmapM DiceParser.parse_face (split "," arg)) as [faces|e| |];
    cbn [cbind]; try contradiction.
  - destruct Hp as [Hall Hlen].
    destruct (Z.ltb_spec (Z.of_nat (List.length faces)) 1) as [Hshort|_].
    + exfalso. pose proof (split_not_empty "," arg).
      destruct (split "," arg); [congruence|]. cbn [List.length] in Hlen. lia.
    + specialize (IH (built ++ [Dice.new (List.length built) faces])%list).
      destruct (DiceParser.parse_args args _) as [dice|e| |]; try exact IH.
      * constructor; assumption.
      * destruct IH as (a & p & Ha & Hrest). exists a, p. split; [now right|exact Hrest].
  - destruct Hp as (p & Hin & Hnan & ->). exists arg, p.
    repeat split; [now left|exact Hin|exact Hnan].
Qed.

(** X8: [parseDice] returns exactly when there are at least three
    arguments and every comma-separated piece of every argument reads as a
    number.  Otherwise it throws one of two errors: the one for too few
    arguments, or "Invalid Die face" with a piece that is not a number;
    the error for a die without faces is never thrown. *)
Theorem parseDice_outcome (args : list string) :
  match DiceParser.parseDice args with
  | Normal dice =>
      (3 <= List.length args)%nat
      /\ Forall (fun arg =>
                   Forall (fun piece => parseInt (trim piece) 0 <> None)
                     (split "," arg))
           args
  | Throw e =>
      ((List.length args < 3)%nat
       /\ e = Error
           "At least 3 Dice are required. Example: node game.js 1,2,3 4,5,6 7,8,9")
      \/ ((3 <= List.length args)%nat
          /\ exists arg piece,
               In arg args /\ In piece (split "," arg)
               /\ parseInt (trim piece) 0 = None
               /\ e = Error ("Invalid Die face: " ++ piece))
  | Exit _ => False
  | Blocked => False
  end.
Proof.
  unfold DiceParser.parseDice.
  destruct (Z.ltb_spec (Z.of_nat (List.length args)) 3) as [Hfew|Hmany].
  - left. split; [lia|reflexivity].
  - pose proof (parse_args_outcome args []) as Ho.
    destruct (DiceParser.parse_args args []) as [dice|e| |]; try exact Ho.
    + split; [lia|exact Ho].
    + right. split; [lia|exact Ho].
Qed.

Lemma nth_error_address (dice : list Dice.t) (i : nat) (d : Dice.t) :
  map Dice.addr dice = seq 0 (List.length dice) ->
  nth_error dice i = Some d -> Dice.addr d = i.
Proof.
  intros Haddr Hd.
  pose proof (map_nth_error Dice.addr i dice Hd) as Hm.
  rewrite Haddr, nth_error_seq in Hm.
  destruct (i <? List.length dice)%nat; [|discriminate].
  injection Hm as <-. reflexivity.
Qed.

(** X9: the dice [parseDice] returns are as many as the arguments and are
    distinct objects, also when their faces are equal: two positions that
    hold the same object are the same position, and each die occurs in
    the array once. *)
Theorem parseDice_gives_distinct_objects (args : list string) (dice : list Dice.t) :
  DiceParser.parseDice args = Normal dice ->
  List.length dice = List.length args
  /\ (forall i j d e,
        nth_error dice i = Some d -> nth_error dice j = Some e ->
        Dice.same d e = true -> i = j)
  /\ (forall d, In d dice -> occurrences d dice = 1%nat).
Proof.
  intros Hparse. pose proof (parseDice_addresses args dice Hparse) as Haddr.
  split; [|split].
  - unfold DiceParser.parseDice in Hparse.
    destruct (Z.of_nat (List.length args) <? 3); [discriminate|].
    destruct (parse_args_appends args [] dice Hparse) as (added & -> & Hall & _).
    cbn [app]. symmetry. exact (Forall2_length Hall).
  - intros i j d e Hd He Hsame.
    apply (nth_error_address dice i d Haddr) in Hd.
    apply (nth_error_address dice j e Haddr) in He.
    unfold Dice.same in Hsame. apply Nat.eqb_eq in Hsame. lia.
  - intros d Hin. now apply (occurrences_of_member d dice 0).
Qed.

Lemma parseDice_gives_distinct_objects_witness :
  let dice := [Dice.new 0 [1; 2]; Dice.new 1 [1; 2]; Dice.new 2 [1; 2]] in
  List.length dice = List.length ["1,2"; "1,2"; "1,2"]
  /\ (forall i j d e,
        nth_error dice i = Some d -> nth_error dice j = Some e ->
        Dice.same d e = true -> i = j)
  /\ (forall d, In d dice -> occurrences d dice = 1%nat).
Proof.
  apply (parseDice_gives_distinct_objects ["1,2"; "1,2"; "1,2"]).
  reflexivity.
Defined.

(** ** ProbabilityCalculator: more on the two probabilities *)

Lemma ratio_times (n d : Z) :
  d <> 0 -> (ratio n d * Q2Qc (inject_Z d))%Qc = Q2Qc (inject_Z n).
Proof.
  intros Hd. unfold ratio. field. now apply Q2Qc_inject_nonzero.
Qed.

Lemma ratio_is_zero (n d : Z) : d <> 0 -> ratio n d = Q2Qc 0 -> n = 0.
Proof.
  intros Hd Hz. pose proof (ratio_times n d Hd) as Ht. rewrite Hz in Ht.
  destruct (Z.eq_dec n 0) as [|Hn]; [assumption|].
  exfalso. apply (Q2Qc_inject_nonzero n Hn). rewrite <- Ht. ring.
Qed.

Lemma filter_none {A} (f : A -> bool) (l : list A) :
  List.length (filter f l) = 0%nat <-> (forall a, In a l -> f a = false).
Proof.
  induction l as [|a l IH]; [split; [intros _ ? []|reflexivity]|].
  cbn [filter]. destruct (f a) eqn:Ea.
  - split; [discriminate|]. intros H. specialize (H a (or_introl eq_refl)). congruence.
  - rewrite IH. split.
    + intros H b [<-|Hb]; [exact Ea|now apply H].
    + intros H b Hb. apply H. now right.
Qed.

(** No pair of faces is a win exactly when no face of the first die is
    above a face of the second. *)
Lemma wins_none (a b : Dice.t) :
  wins a b = 0 <->
  (forall fa fb, In fa (Dice.faces a) -> In fb (Dice.faces b) -> fa <= fb).
Proof.
  unfold wins, count_pairs.
  rewrite <- Nat2Z.inj_0, Nat2Z.inj_iff, filter_none. split.
  - intros H fa fb Ha Hb.
    specialize (H (fa, fb) (in_prod _ _ _ _ Ha Hb)). cbn [fst snd] in H.
    destruct (Z.gtb_spec fa fb); [discriminate|lia].
  - intros H [fa fb] Hin. apply in_prod_iff in Hin. destruct Hin as [Ha Hb].
    cbn [fst snd]. specialize (H fa fb Ha Hb).
    destruct (Z.gtb_spec fa fb); [lia|reflexivity].
Qed.

(** The quotient of a positive count by at most [2^64] pairs is not below
    [2^-64]. *)
Lemma ratio_not_tiny (n d : Z) :
  1 <= n -> 0 < d <= 2 ^ 64 ->
  (Q2Qc (1 # Z.to_pos (2 ^ 64)) <= ratio n d)%Qc.
Proof.
  intros Hn Hd. unfold ratio. rewrite Q2Qc_div, Q2Qc_le.
  apply Qle_shift_div_l; [unfold Qlt; cbn [Qnum Qden inject_Z]; lia|].
  unfold Qle, Qmult. cbn [Qnum Qden inject_Z].
  rewrite Pos.mul_1_r, pow2_to_pos by lia. nia.
Qed.

(** X10: a die against itself, as on the diagonal of the help table: the
    result is the rounding of the fraction of pairs won, which are half of
    the pairs that are not ties; it is 0 exactly when all faces are
    equal.  The number of pairs is a safe integer, so that the counters
    of the loop are exact. *)
Theorem self_comparison (d : Dice.t) :
  Dice.faces d <> [] -> isSafeInteger (total_pairs d d) = true ->
  exists p : Qc,
    ProbabilityCalculator.calculateWinProbability d d = Normal (Num p)
    /\ binary64 (ratio (wins d d) (total_pairs d d)) = Num p
    /\ wins d d + wins d d + ties d d = total_pairs d d
    /\ (Q2Qc 0 <= p)%Qc /\ (p <= Q2Qc 1)%Qc
    /\ (p = Q2Qc 0 <->
        forall f1 f2, In f1 (Dice.faces d) -> In f2 (Dice.faces d) -> f1 = f2).
Proof.
  intros Hne Hcount. pose proof (total_pairs_pos d d Hne Hne) as Ht.
  pose proof (pairs_partition d d) as Hp.
  pose proof (wins_swap d d) as Hsym.
  destruct (wins_of_dice d d Hne Hne) as [Hw _].
  destruct (ratio_rounds _ _ Hw Ht) as (p & Ep & Hp0 & Hp1).
  exists p.
  split; [now rewrite calculateWinProbability_of_faces, Ep|].
  split; [exact Ep|]. split; [lia|]. split; [exact Hp0|]. split; [exact Hp1|].
  split.
  - intros Hz.
    assert (Hnone : wins d d = 0).
    { destruct (Z.eq_dec (wins d d) 0) as [|Hpos]; [assumption|exfalso].
      assert (Hsmall : total_pairs d d <= 2 ^ 64).
      { unfold isSafeInteger, MAX_SAFE_INTEGER in Hcount.
        change (2 ^ 64) with 18446744073709551616. lia. }
      pose proof (binary64_keeps_positive _ p
                    (ratio_not_tiny (wins d d) (total_pairs d d)
                       ltac:(lia) ltac:(lia)) Ep) as Hlt.
      rewrite Hz in Hlt. now apply (Qclt_not_le _ _ Hlt), Qcle_refl. }
    pose proof (proj1 (wins_none d d) Hnone) as Hle. intros f1 f2 H1 H2.
    pose proof (Hle f1 f2 H1 H2). pose proof (Hle f2 f1 H2 H1). lia.
  - intros Hall.
    assert (Hnone : wins d d = 0).
    { apply wins_none. intros fa fb Ha Hb. rewrite (Hall fa fb Ha Hb). lia. }
    rewrite Hnone, ratio_zero, binary64_zero in Ep. congruence.
Qed.

Lemma self_comparison_witness :
  exists p : Qc,
    ProbabilityCalculator.calculateWinProbability die_A die_A = Normal (Num p)
    /\ binary64 (ratio (wins die_A die_A) (total_pairs die_A die_A)) = Num p
    /\ wins die_A die_A + wins die_A die_A + ties die_A die_A
       = total_pairs die_A die_A
    /\ (Q2Qc 0 <= p)%Qc /\ (p <= Q2Qc 1)%Qc
    /\ (p = Q2Qc 0 <->
        forall f1 f2, In f1 (Dice.faces die_A) -> In f2 (Dice.faces die_A) -> f1 = f2).
Proof.
  apply (self_comparison die_A); [discriminate|reflexivity].
Defined.

Lemma count_permutation {A} (f : A -> bool) (l l' : list A) :
  Permutation l l' -> List.length (filter f l) = List.length (filter f l').
Proof.
  induction 1 as [|a l l' _ IH|a b l|l l' l'' _ IH1 _ IH2].
  - reflexivity.
  - cbn [filter]. destruct (f a); cbn [List.length]; now rewrite IH.
  - cbn [filter]. destruct (f a), (f b); reflexivity.
  - now rewrite IH1.
Qed.

Lemma wins_permutation (a a' b b' : Dice.t) :
  Permutation (Dice.faces a) (Dice.faces a') ->
  Permutation (Dice.faces b) (Dice.faces b') ->
  wins a b = wins a' b' /\ total_pairs a b = total_pairs a' b'.
Proof.
  intros Ha Hb. split.
  - unfold wins, count_pairs. f_equal. rewrite !count_prod. cbn [fst snd].
    transitivity (list_sum (map (fun fa =>
        List.length (filter (fun fb => fa >? fb) (Dice.faces b'))) (Dice.faces a))).
    + f_equal. apply map_ext. intros fa. now apply count_permutation.
    + apply Permutation_list_sum. now apply Permutation_map.
  - unfold total_pairs.
    now rewrite (Permutation_length Ha), (Permutation_length Hb).
Qed.

(** X11: the win probability depends on which faces the dice have and how
    often, not on the order they are given in, nor on which objects hold
    them. *)
Theorem calculateWinProbability_ignores_order (a a' b b' : Dice.t) :
  Permutation (Dice.faces a) (Dice.faces a') ->
  Permutation (Dice.faces b) (Dice.faces b') ->
  ProbabilityCalculator.calculateWinProbability a b
  = ProbabilityCalculator.calculateWinProbability a' b'.
Proof.
  intros Ha Hb. rewrite !calculateWinProbability_value.
  destruct (wins_permutation a a' b b' Ha Hb) as [-> ->]. reflexivity.
Qed.

Lemma calculateWinProbability_ignores_order_witness :
  ProbabilityCalculator.calculateWinProbability
    (Dice.new 0 [1; 2]) (Dice.new 1 [3; 4; 0])
  = ProbabilityCalculator.calculateWinProbability
      (Dice.new 5 [2; 1]) (Dice.new 6 [0; 3; 4]).
Proof.
  apply calculateWinProbability_ignores_order; cbn [Dice.faces].
  - apply perm_swap.
  - apply Permutation_sym, (Permutation_cons_append [3; 4] 0).
Defined.

(** The probabilities of a die with faces against dice with faces. *)
Lemma probabilities_against (d : Dice.t) (pool : list Dice.t) :
  Dice.faces d <> [] -> Forall (fun e => Dice.faces e <> []) pool ->
  cmapM (ProbabilityCalculator.calculateWinProbability d) pool
  = Normal (map (fun e => binary64 (ratio (wins d e) (total_pairs d e))) pool).
Proof.
  intros Hd Hall. induction Hall as [|e pool He _ IH]; [reflexivity|].
  cbn [cmapM map]. rewrite (calculateWinProbability_of_faces d e Hd He), IH.
  reflexivity.
Qed.

(** The total of the loop over numbers between 0 and 1 stays between 0
    and their count, as long as binary64 holds the count. *)
Lemma sum_within (ps : list number) (t : Qc) (j : Z) :
  Forall (fun n => exists p, n = Num p /\ (Q2Qc 0 <= p)%Qc /\ (p <= Q2Qc 1)%Qc) ps ->
  (Q2Qc 0 <= t)%Qc -> (t <= Q2Qc (inject_Z j))%Qc ->
  j + Z.of_nat (List.length ps) <= 2 ^ 53 ->
  exists t', fold_left num_add ps (Num t) = Num t'
             /\ (Q2Qc 0 <= t')%Qc
             /\ (t' <= Q2Qc (inject_Z (j + Z.of_nat (List.length ps))))%Qc.
Proof.
  intros Hall. revert t j.
  induction Hall as [|n ps (p & -> & Hp0 & Hp1) _ IH]; intros t j Ht0 Htj Hj.
  - exists t. cbn [fold_left List.length Z.of_nat]. rewrite Z.add_0_r.
    repeat split; assumption.
  - cbn [fold_left]. cbn [List.length] in Hj. rewrite Nat2Z.inj_succ in Hj.
    destruct (num_add_within t p j Ht0 Htj Hp0 Hp1 ltac:(lia))
      as (t1 & -> & Ht1 & Ht1j).
    destruct (IH t1 (j + 1) Ht1 Ht1j ltac:(lia)) as (t' & -> & Ht' & Ht'j).
    exists t'. split; [reflexivity|]. split; [exact Ht'|].
    cbn [List.length]. rewrite Nat2Z.inj_succ.
    now replace (j + Z.succ (Z.of_nat (List.length ps)))
      with (j + 1 + Z.of_nat (List.length ps)) by lia.
Qed.

Lemma Q2Qc_inject_pos (k : Z) : 0 < k -> (Q2Qc 0 < Q2Qc (inject_Z k))%Qc.
Proof.
  intros Hk. unfold Qclt. rewrite this_of_Z.
  change (this (Q2Qc 0)) with 0%Q. unfold Qlt. simpl. lia.
Qed.

(** A quotient of a part by the whole. *)
Lemma quotient_between (s k : Qc) :
  (Q2Qc 0 < k)%Qc -> (Q2Qc 0 <= s)%Qc -> (s <= k)%Qc ->
  (Q2Qc 0 <= s / k)%Qc /\ (s / k <= Q2Qc 1)%Qc.
Proof.
  intros Hk Hlo Hhi.
  assert (Hnz : k <> Q2Qc 0).
  { intros E. rewrite E in Hk. now apply (Qclt_not_le _ _ Hk), Qcle_refl. }
  assert (Hback : (s / k * k)%Qc = s) by (field; exact Hnz).
  split.
  - apply (Qcmult_lt_0_le_reg_r _ _ k Hk). rewrite Hback.
    now replace (Q2Qc 0 * k)%Qc with (Q2Qc 0) by ring.
  - apply (Qcmult_lt_0_le_reg_r _ _ k Hk). rewrite Hback.
    now replace (Q2Qc 1 * k)%Qc with k by ring.
Qed.

(** On a pool of dice with faces in which the die occurs once,
    [averageWinProbability] returns a rational between 0 and 1: every
    total of the loop is at most the number of dice met, and the last one
    is divided by the number of the other dice. *)
Lemma average_in_unit (d : Dice.t) (pool : list Dice.t) :
  occurrences d pool = 1%nat -> (2 <= List.length pool)%nat ->
  Z.of_nat (List.length pool) <= 4294967295 ->
  Dice.faces d <> [] -> Forall (fun e => Dice.faces e <> []) pool ->
  exists p : Qc,
    ProbabilityCalculator.averageWinProbability d pool = Normal (Num p)
    /\ (Q2Qc 0 <= p)%Qc /\ (p <= Q2Qc 1)%Qc.
Proof.
  intros Hocc Hlen Hmax Hd Hall.
  rewrite averageWinProbability_value.
  assert (Hothers : Forall (fun e => Dice.faces e <> []) (others d pool)).
  { apply Forall_forall. intros e He. apply filter_In in He.
    destruct He as [He _]. revert e He. now apply Forall_forall. }
  rewrite (probabilities_against d _ Hd Hothers). cbn [cbind].
  pose proof (others_length d pool) as Hsplit.
  rewrite (divisor_counts_others d pool Hocc).
  set (ps := map (fun e => binary64 (ratio (wins d e) (total_pairs d e)))
                 (others d pool)).
  assert (Hk : List.length ps = List.length (others d pool))
    by (subst ps; apply length_map).
  assert (Hps : Forall (fun n => exists p, n = Num p
                           /\ (Q2Qc 0 <= p)%Qc /\ (p <= Q2Qc 1)%Qc) ps).
  { subst ps. apply Forall_forall. intros n Hn. apply in_map_iff in Hn.
    destruct Hn as (e & <- & He).
    assert (Hfaces : Dice.faces e <> [])
      by (revert e He; now apply Forall_forall).
    destruct (wins_of_dice d e Hd Hfaces) as [Hw Ht].
    now apply ratio_rounds. }
  destruct (sum_within ps (Q2Qc (inject_Z 0)) 0 Hps)
    as (t & Et & Ht0 & Htk);
    [apply Qcle_refl|apply Qcle_refl|change (2 ^ 53) with 9007199254740992; lia|].
  change (Num (Q2Qc (inject_Z 0))) with (of_Z 0) in Et. rewrite Et.
  rewrite Z.add_0_l, Hk in Htk.
  set (m := Z.of_nat (List.length (others d pool))) in *.
  assert (Hm : 0 < m) by (subst m; lia).
  unfold num_div, of_Z. rewrite Qc_sgn_of_Z.
  destruct (Z.compare_spec m 0) as [E|E|E]; try lia.
  destruct (quotient_between t (Q2Qc (inject_Z m))
              (Q2Qc_inject_pos m Hm) Ht0 Htk) as [Hq0 Hq1].
  destruct (binary64_le_int _ 1 Hq0 Hq1 ltac:(lia)) as (p & -> & Hp0 & Hp1).
  exists p. repeat split; assumption.
Qed.

(** X12: on a pool of at least two dice with faces in which the die occurs
    once, [averageWinProbability] returns a rational between 0 and 1; the
    pool has at most as many dice as an array holds. *)
Theorem averageWinProbability_between_0_and_1 (d : Dice.t) (pool : list Dice.t) :
  occurrences d pool = 1%nat -> (2 <= List.length pool)%nat ->
  Z.of_nat (List.length pool) <= 4294967295 ->
  Dice.faces d <> [] -> Forall (fun e => Dice.faces e <> []) pool ->
  exists p : Qc,
    ProbabilityCalculator.averageWinProbability d pool = Normal (Num p)
    /\ (Q2Qc 0 <= p)%Qc /\ (p <= Q2Qc 1)%Qc.
Proof.
  intros Hocc Hlen Hmax Hd Hall.
  destruct (average_in_unit d pool Hocc Hlen Hmax Hd Hall) as (p & Ep & Hp0 & Hp1).
  exists p. repeat split; assumption.
Qed.

Lemma averageWinProbability_between_0_and_1_witness :
  exists p : Qc,
    ProbabilityCalculator.averageWinProbability die_A [die_A; die_B; die_C]
    = Normal (Num p)
    /\ (Q2Qc 0 <= p)%Qc /\ (p <= Q2Qc 1)%Qc.
Proof.
  apply (averageWinProbability_between_0_and_1 die_A [die_A; die_B; die_C]);
    [reflexivity|simpl; lia|simpl; lia|discriminate
    |repeat constructor; discriminate].
Defined.

(** ** Game: choosing the dice *)

Lemma available_all (dice : list Dice.t) : Game.available dice [] = dice.
Proof.
  unfold Game.available. induction dice as [|d dice IH]; [reflexivity|].
  simpl in *. now f_equal.
Qed.

Lemma available_member (dice exclude : list Dice.t) (d : Dice.t) :
  In d (Game.available dice exclude) <->
  In d dice /\ existsb (Dice.same d) exclude = false.
Proof.
  unfold Game.available. rewrite filter_In, negb_true_iff. reflexivity.
Qed.

Lemma probabilities_total (d : Dice.t) (pool : list Dice.t) :
  exists ps, cmapM (ProbabilityCalculator.calculateWinProbability d) pool = Normal ps.
Proof.
  induction pool as [|e pool [ps IH]]; [now exists []|].
  cbn [cmapM]. rewrite calculateWinProbability_value, IH. cbn [cbind]. eauto.
Qed.

Lemma average_total (d : Dice.t) (pool : list Dice.t) :
  exists v, ProbabilityCalculator.averageWinProbability d pool = Normal v.
Proof.
  rewrite averageWinProbability_value.
  destruct (probabilities_total d (others d pool)) as [ps ->]. cbn [cbind]. eauto.
Qed.

(** The loop over the candidates returns one of them or the die it started
    with, when the score never throws. *)
Lemma best_of_member (score : Dice.t -> completion number)
    (candidates : list Dice.t) (bestDie : Dice.t) (best : number) :
  (forall d, exists v, score d = Normal v) ->
  exists r, Game.best_of score candidates bestDie best = Normal r
            /\ In r (bestDie :: candidates).
Proof.
  intros Hscore. revert bestDie best.
  induction candidates as [|die candidates IH]; intros bestDie best.
  - exists bestDie. split; [reflexivity|now left].
  - cbn [Game.best_of]. destruct (Hscore die) as [v ->]. cbn [cbind].
    destruct (num_gt v best).
    + destruct (IH die v) as (r & -> & Hin). exists r. split; [reflexivity|].
      now right.
    + destruct (IH bestDie best) as (r & -> & Hin). exists r. split; [reflexivity|].
      destruct Hin as [<-|Hin]; [now left|now right; right].
Qed.

Lemma num_gt_rationals (p q : Qc) : num_gt (Num p) (Num q) = true <-> (q < p)%Qc.
Proof.
  cbn [num_gt]. rewrite Qclt_alt. destruct (q ?= p)%Qc; split; congruence.
Qed.

(** When the scores are rationals, no candidate and not the die the loop
    started with has a greater score than the die it returns. *)
Lemma best_of_greatest (score : Dice.t -> completion number)
    (candidates : list Dice.t) (bestDie : Dice.t) (best : Qc) :
  score bestDie = Normal (Num best) ->
  (forall d, In d candidates -> exists p, score d = Normal (Num p)) ->
  exists r q,
    Game.best_of score candidates bestDie (Num best) = Normal r
    /\ In r (bestDie :: candidates)
    /\ score r = Normal (Num q)
    /\ forall d, In d (bestDie :: candidates) ->
         exists p, score d = Normal (Num p) /\ (p <= q)%Qc.
Proof.
  revert bestDie best.
  induction candidates as [|die candidates IH]; intros bestDie best Hbest Hscore.
  - exists bestDie, best. split; [reflexivity|]. split; [now left|].
    split; [exact Hbest|].
    intros d [<-|[]]. exists best. split; [exact Hbest|apply Qcle_refl].
  - cbn [Game.best_of].
    destruct (Hscore die (or_introl eq_refl)) as (v & Hv). rewrite Hv.
    cbn [cbind].
    assert (Hrest : forall d, In d candidates -> exists p, score d = Normal (Num p))
      by (intros d Hd; apply Hscore; now right).
    destruct (num_gt (Num v) (Num best)) eqn:E.
    + apply num_gt_rationals in E.
      destruct (IH die v Hv Hrest) as (r & q & -> & Hin & Hq & Hmax).
      exists r, q. split; [reflexivity|]. split; [now right|].
      split; [exact Hq|].
      intros d [<-|[<-|Hd]].
      * exists best. split; [exact Hbest|].
        destruct (Hmax die (or_introl eq_refl)) as (p & Hp & Hle).
        assert (p = v) by congruence. subst p.
        apply Qcle_trans with v; [now apply Qclt_le_weak|exact Hle].
      * apply Hmax. now left.
      * apply Hmax. now right.
    + assert (Hle : (v <= best)%Qc).
      { apply Qcnot_lt_le. intros Hlt. apply num_gt_rationals in Hlt. congruence. }
      destruct (IH bestDie best Hbest Hrest) as (r & q & -> & Hin & Hq & Hmax).
      exists r, q. split; [reflexivity|]. split.
      * destruct Hin as [<-|Hin]; [now left|now right; right].
      * split; [exact Hq|].
        intros d [<-|[<-|Hd]].
        -- apply Hmax. now left.
        -- exists v. split; [exact Hv|].
           destruct (Hmax bestDie (or_introl eq_refl)) as (p & Hp & Hpq).
           assert (p = best) by congruence. subst p.
           apply Qcle_trans with best; assumption.
        -- apply Hmax. now right.
Qed.

(** What [selectComputerDie] returns is a die of the game that is not
    excluded. *)
Lemma selectComputerDie_member (this : Game.t) (exclude : list Dice.t) :
  Game.available (Game.dice this) exclude <> [] ->
  exists die,
    Game.selectComputerDie this exclude = Normal die
    /\ In die (Game.available (Game.dice this) exclude).
Proof.
  intros Hne. unfold Game.selectComputerDie.
  destruct (Game.available (Game.dice this) exclude) as [|first rest] eqn:Ea;
    [congruence|].
  destruct exclude as [|chosen more].
  - destruct (average_total first (first :: rest)) as [v ->]. cbn [cbind].
    apply best_of_member. intros d. apply average_total.
  - rewrite calculateWinProbability_value. cbn [cbind].
    apply best_of_member. intros d. rewrite calculateWinProbability_value. eauto.
Qed.

(** X13: [selectComputerDie] throws "No available dice to select" when
    every die of the game is excluded, and only then; otherwise it
    returns a die of the game that is not among the excluded ones. *)
Theorem selectComputerDie_outcome (this : Game.t) (exclude : list Dice.t) :
  match Game.selectComputerDie this exclude with
  | Normal die =>
      In die (Game.dice this) /\ existsb (Dice.same die) exclude = false
  | Throw e =>
      e = Error "No available dice to select"
      /\ forall d, In d (Game.dice this) -> existsb (Dice.same d) exclude = true
  | Exit _ => False
  | Blocked => False
  end.
Proof.
  destruct (Game.available (Game.dice this) exclude) as [|first rest] eqn:Ea.
  - unfold Game.selectComputerDie. rewrite Ea. split; [reflexivity|].
    intros d Hd. destruct (existsb (Dice.same d) exclude) eqn:E; [reflexivity|].
    assert (Hin : In d (Game.available (Game.dice this) exclude))
      by (apply available_member; now split).
    rewrite Ea in Hin. destruct Hin.
  - destruct (selectComputerDie_member this exclude) as (die & -> & Hin);
      [rewrite Ea; discriminate|].
    now apply available_member.
Qed.

Lemma occurrences_once (d : Dice.t) (pool : list Dice.t) :
  NoDup (map Dice.addr pool) -> In d pool -> occurrences d pool = 1%nat.
Proof.
  induction pool as [|e pool IH]; intros Hnd Hin; [destruct Hin|].
  cbn [map] in Hnd. apply NoDup_cons_iff in Hnd. destruct Hnd as [Hfresh Hnd].
  unfold occurrences. cbn [filter]. fold (occurrences d pool).
  unfold Dice.same at 1. destruct Hin as [<-|Hin].
  - rewrite Nat.eqb_refl. cbn [List.length]. f_equal.
    apply occurrences_of_stranger. intros e' He' E.
    apply Hfresh. rewrite <- E. now apply in_map.
  - destruct (Nat.eqb_spec (Dice.addr d) (Dice.addr e)) as [E|_].
    + exfalso. apply Hfresh. rewrite <- E. now apply in_map.
    + now apply IH.
Qed.

(** X14: when the user has chosen a die, the die [selectComputerDie]
    returns has the greatest probability of beating it among the dice
    that are left; all dice have faces. *)
Theorem selectComputerDie_best_against
    (this : Game.t) (chosen : Dice.t) (more : list Dice.t) :
  Dice.faces chosen <> [] ->
  Forall (fun d => Dice.faces d <> []) (Game.dice this) ->
  Game.available (Game.dice this) (chosen :: more) <> [] ->
  exists die q,
    Game.selectComputerDie this (chosen :: more) = Normal die
    /\ In die (Game.available (Game.dice this) (chosen :: more))
    /\ ProbabilityCalculator.calculateWinProbability die chosen = Normal (Num q)
    /\ forall other,
         In other (Game.available (Game.dice this) (chosen :: more)) ->
         exists p,
           ProbabilityCalculator.calculateWinProbability other chosen = Normal (Num p)
           /\ (p <= q)%Qc.
Proof.
  intros Hchosen Hall Hne.
  assert (Hscore : forall d,
            In d (Game.available (Game.dice this) (chosen :: more)) ->
            exists p,
              ProbabilityCalculator.calculateWinProbability d chosen
              = Normal (Num p)).
  { intros d Hd. apply available_member in Hd. destruct Hd as [Hd _].
    assert (Hfaces : Dice.faces d <> [])
      by (revert d Hd; now apply Forall_forall).
    rewrite (calculateWinProbability_of_faces d chosen Hfaces Hchosen).
    destruct (wins_of_dice d chosen Hfaces Hchosen) as [Hw Ht].
    destruct (ratio_rounds _ _ Hw Ht) as (p & -> & _). now exists p. }
  unfold Game.selectComputerDie.
  destruct (Game.available (Game.dice this) (chosen :: more)) as [|first rest];
    [congruence|].
  destruct (Hscore first (or_introl eq_refl)) as (best & Hbest).
  rewrite Hbest. cbn [cbind].
  destruct (best_of_greatest
              (fun d => ProbabilityCalculator.calculateWinProbability d chosen)
              rest first best Hbest) as (r & q & Hr & Hin & Hq & Hmax).
  { intros d Hd. apply Hscore. now right. }
  exists r, q.
  split; [exact Hr|]. split; [exact Hin|]. split; [exact Hq|]. exact Hmax.
Qed.

Lemma selectComputerDie_best_against_witness :
  exists die q,
    Game.selectComputerDie example_game [die_A] = Normal die
    /\ In die (Game.available (Game.dice example_game) [die_A])
    /\ ProbabilityCalculator.calculateWinProbability die die_A = Normal (Num q)
    /\ forall other,
         In other (Game.available (Game.dice example_game) [die_A]) ->
         exists p,
           ProbabilityCalculator.calculateWinProbability other die_A = Normal (Num p)
           /\ (p <= q)%Qc.
Proof.
  apply (selectComputerDie_best_against example_game die_A []);
    [discriminate|repeat constructor; discriminate|discriminate].
Defined.

(** X15: when the computer chooses first, among distinct dice with faces,
    at least two of them and no more than an array holds, the die
    [selectComputerDie] returns has the greatest average win probability
    against the others, as [averageWinProbability] computes it. *)
Theorem selectComputerDie_best_average (this : Game.t) :
  NoDup (map Dice.addr (Game.dice this)) ->
  (2 <= List.length (Game.dice this))%nat ->
  Z.of_nat (List.length (Game.dice this)) <= 4294967295 ->
  Forall (fun d => Dice.faces d <> []) (Game.dice this) ->
  exists die q,
    Game.selectComputerDie this [] = Normal die
    /\ In die (Game.dice this)
    /\ ProbabilityCalculator.averageWinProbability die (Game.dice this)
       = Normal (Num q)
    /\ forall other,
         In other (Game.dice this) ->
         exists p,
           ProbabilityCalculator.averageWinProbability other (Game.dice this)
           = Normal (Num p)
           /\ (p <= q)%Qc.
Proof.
  intros Hnd Hlen Hmax Hall.
  set (pool := Game.dice this) in *.
  assert (Hscore : forall d, In d pool ->
            exists p,
              ProbabilityCalculator.averageWinProbability d pool = Normal (Num p)).
  { intros d Hd.
    destruct (average_in_unit d pool) as (p & Hp & _); try assumption.
    - now apply occurrences_once.
    - revert d Hd. now apply Forall_forall.
    - now exists p. }
  unfold Game.selectComputerDie. fold pool. rewrite available_all.
  destruct pool as [|first rest] eqn:Epool; [cbn [List.length] in Hlen; lia|].
  destruct (Hscore first (or_introl eq_refl)) as (best & Hbest).
  rewrite Hbest. cbn [cbind].
  destruct (best_of_greatest
              (fun d => ProbabilityCalculator.averageWinProbability d (first :: rest))
              rest first best Hbest) as (r & q & Hr & Hin & Hq & Hbound).
  { intros d Hd. apply Hscore. now right. }
  exists r, q.
  split; [exact Hr|]. split; [exact Hin|]. split; [exact Hq|]. exact Hbound.
Qed.

Lemma selectComputerDie_best_average_witness :
  exists die q,
    Game.selectComputerDie example_game [] = Normal die
    /\ In die (Game.dice example_game)
    /\ ProbabilityCalculator.averageWinProbability die (Game.dice example_game)
       = Normal (Num q)
    /\ forall other,
         In other (Game.dice example_game) ->
         exists p,
           ProbabilityCalculator.averageWinProbability other (Game.dice example_game)
           = Normal (Num p)
           /\ (p <= q)%Qc.
Proof.
  apply (selectComputerDie_best_average example_game).
  - cbn. repeat constructor; cbn; intuition discriminate.
  - cbn. lia.
  - cbn. lia.
  - repeat constructor; discriminate.
Defined.

(** Rounding decides the choice.  Against [1] and [1,2,2,3,3] the die [2]
    wins 1 and 1/5 of the pairs, and [1,2,2,3,3] wins 4/5 and 2/5 against
    [1] and [2]: both means are 3/5.  In binary64 the sum 0.8 + 0.4 is
    above 1 + 0.2, so the loop replaces the second die by the third. *)
Example rounding_decides_the_choice :
  let a := Dice.new 0 [1] in
  let b := Dice.new 1 [2] in
  let c := Dice.new 2 [1; 2; 2; 3; 3] in
  Game.selectComputerDie (Game.constructor [a; b; c]) [] = Normal c
  /\ ProbabilityCalculator.averageWinProbability b [a; b; c]
     = Normal (Num (times_pow2 5404319552844595 (-53)))
  /\ ProbabilityCalculator.averageWinProbability c [a; b; c]
     = Normal (Num (times_pow2 5404319552844596 (-53)))
  /\ ((ratio 1 1 + ratio 1 5) / Q2Qc 2 = (ratio 4 5 + ratio 2 5) / Q2Qc 2)%Qc.
Proof.
  cbv zeta. split; [vm_compute; reflexivity|].
  split; [number_eq|]. split; [number_eq|].
  apply Qc_is_canon. reflexivity.
Qed.

(** ** Game: the prompts *)

Lemma index_of_nat {A} (arr : list A) (i : nat) :
  index arr (of_Z (Z.of_nat i)) = nth_error arr i.
Proof.
  unfold index, of_Z. rewrite this_of_Z. cbn [inject_Z Qnum Qden].
  replace (0 <=? Z.of_nat i) with true by (symmetry; apply Z.leb_le; lia).
  cbn [Pos.eqb andb]. now rewrite Nat2Z.id.
Qed.

Lemma positions_are_options (n : nat) :
  map (fun i => toString (Z.of_nat i)) (seq 0 n) = Game.make_options (Z.of_nat n).
Proof.
  unfold Game.make_options. now rewrite Nat2Z.id.
Qed.

(** How [promptUserDieSelection] can end. *)
Lemma promptUserDieSelection_outcome (this : Game.t) (exclude : list Dice.t) (w : World) :
  match Game.promptUserDieSelection this exclude w with
  | (Normal r, w') =>
      (exists die,
          r = Some die /\ In die (Game.available (Game.dice this) exclude))
      /\ tty w = true
      /\ entropy w' = entropy w /\ cursor w' = cursor w /\ tty w' = tty w
  | (Throw e, w') => e = TTY_UNAVAILABLE /\ tty w = false /\ w' = w
  | (Exit code, _) => code = 0
  | (Blocked, w') => stdin w' = []
  end.
Proof.
  unfold Game.promptUserDieSelection, bind.
  set (pool := Game.available (Game.dice this) exclude).
  rewrite positions_are_options.
  pose proof (prompt_outcome (Game.make_options (Z.of_nat (List.length pool))) w)
    as Hp.
  destruct (Game.prompt _ w) as [[userChoice|e|code|] w']; try exact Hp.
  destruct Hp as (Hopt & Hrest). split; [|exact Hrest].
  apply make_options_includes in Hopt. destruct Hopt as (i & Hi & ->).
  destruct (toString_decimal i) as (-> & _); [lia|].
  rewrite <- (Z2Nat.id i) by lia. rewrite index_of_nat.
  destruct (nth_error pool (Z.to_nat i)) as [die|] eqn:E.
  - exists die. split; [reflexivity|]. now apply (nth_error_In pool (Z.to_nat i)).
  - apply nth_error_None in E. lia.
Qed.



Section RollValue.
Context {crypto : Crypto}.


End RollValue.


(** Among two or more distinct dice, one is left when one is taken. *)
Lemma available_after_one (dice : list Dice.t) (taken : Dice.t) :
  NoDup (map Dice.addr dice) -> (2 <= List.length dice)%nat ->
  Game.available dice [taken] <> [].
Proof.
  intros Hnd Hlen.
  destruct dice as [|a [|b dice]]; cbn [List.length] in Hlen; try lia.
  cbn [map] in Hnd. apply NoDup_cons_iff in Hnd. destruct Hnd as [Hab _].
  assert (Hdiff : Dice.addr a <> Dice.addr b) by (intros E; apply Hab; now left).
  unfold Game.available. cbn [filter existsb]. unfold Dice.same.
  destruct (Nat.eqb_spec (Dice.addr a) (Dice.addr taken)) as [Ea|_];
    cbn [orb negb]; [|discriminate].
  destruct (Nat.eqb_spec (Dice.addr b) (Dice.addr taken)) as [Eb|_];
    cbn [orb negb]; [congruence|discriminate].
Qed.

Lemma same_sym (d e : Dice.t) : Dice.same d e = Dice.same e d.
Proof.
  unfold Dice.same. apply Nat.eqb_sym.
Qed.

(** How [selectDice] can end on two or more distinct dice. *)
Lemma selectDice_outcome (this : Game.t) (firstPlayer : string) (w : World) :
  NoDup (map Dice.addr (Game.dice this)) ->
  (2 <= List.length (Game.dice this))%nat ->
  match Game.selectDice this firstPlayer w with
  | (Normal this', w') =>
      (Game.dice this' = Game.dice this
       /\ exists user computer,
            Game.userDie this' = Some user
            /\ Game.computerDie this' = Some computer
            /\ In user (Game.dice this) /\ In computer (Game.dice this)
            /\ Dice.same user computer = false)
      /\ tty w = true
      /\ entropy w' = entropy w /\ cursor w' = cursor w /\ tty w' = tty w
  | (Throw e, w') => e = TTY_UNAVAILABLE /\ tty w = false /\ w' = w
  | (Exit code, _) => code = 0
  | (Blocked, w') => stdin w' = []
  end.
Proof.
  intros Hnd Hlen. unfold Game.selectDice.
  destruct (String.eqb firstPlayer "user").
  - unfold bind.
    pose proof (promptUserDieSelection_outcome this [] w) as Hp.
    destruct (Game.promptUserDieSelection this [] w) as [[r|e|code|] w1];
      try exact Hp.
    destruct Hp as ((user & -> & Huser) & Hframe).
    rewrite available_all in Huser.
    destruct (selectComputerDie_member this [user]) as (computer & Hc & Hin);
      [now apply available_after_one|].
    unfold lift, ret. rewrite Hc.
    apply available_member in Hin. destruct Hin as [Hin Hsame].
    cbn [existsb] in Hsame. rewrite orb_false_r in Hsame.
    split; [|exact Hframe].
    split; [reflexivity|]. exists user, computer.
    cbn [Game.userDie Game.computerDie].
    repeat split; try assumption. now rewrite same_sym.
  - unfold bind, lift.
    destruct (selectComputerDie_member this []) as (computer & Hc & Hin).
    { rewrite available_all. destruct (Game.dice this); [cbn in Hlen; lia|discriminate]. }
    rewrite Hc. rewrite available_all in Hin.
    pose proof (promptUserDieSelection_outcome this [computer] w) as Hp.
    destruct (Game.promptUserDieSelection this [computer] w) as [[r|e|code|] w1];
      try exact Hp.
    destruct Hp as ((user & -> & Huser) & Hframe).
    apply available_member in Huser. destruct Huser as [Huser Hsame].
    cbn [existsb] in Hsame. rewrite orb_false_r in Hsame.
    unfold ret. split; [|exact Hframe].
    split; [reflexivity|]. exists user, computer.
    cbn [Game.userDie Game.computerDie].
    repeat split; assumption.
Qed.

(** X18: on a game of two or more distinct dice, when [selectDice]
    returns, the user and the computer hold two different dice of the
    game, whoever chose first, and nothing was read from the random
    source; it throws only when the process has no terminal. *)
Theorem selectDice_gives_two_dice (this : Game.t) (firstPlayer : string) (w : World) :
  NoDup (map Dice.addr (Game.dice this)) ->
  (2 <= List.length (Game.dice this))%nat ->
  match Game.selectDice this firstPlayer w with
  | (Normal this', w') =>
      Game.dice this' = Game.dice this
      /\ cursor w' = cursor w
      /\ exists user computer,
           Game.userDie this' = Some user
           /\ Game.computerDie this' = Some computer
           /\ In user (Game.dice this) /\ In computer (Game.dice this)
           /\ Dice.same user computer = false
           /\ Dice.addr user <> Dice.addr computer
  | (Throw e, _) => e = TTY_UNAVAILABLE /\ tty w = false
  | (Exit code, _) => code = 0
  | (Blocked, w') => stdin w' = []
  end.
Proof.
  intros Hnd Hlen.
  pose proof (selectDice_outcome this firstPlayer w Hnd Hlen) as Ho.
  destruct (Game.selectDice this firstPlayer w) as [[this'|e|code|] w'];
    try exact Ho.
  - destruct Ho as ((Hdice & user & computer & Hu & Hc & Hinu & Hinc & Hsame)
                    & _ & _ & Hcursor & _).
    split; [exact Hdice|]. split; [exact Hcursor|].
    exists user, computer. repeat split; try assumption.
    unfold Dice.same in Hsame. now apply Nat.eqb_neq.
  - destruct Ho as (He & Hno & _). now split.
Qed.

Lemma selectDice_gives_two_dice_witness :
  match Game.selectDice example_game "user" (counting_world ["2"]) with
  | (Normal this', w') =>
      Game.dice this' = Game.dice example_game
      /\ cursor w' = cursor (counting_world ["2"])
      /\ exists user computer,
           Game.userDie this' = Some user
           /\ Game.computerDie this' = Some computer
           /\ In user (Game.dice example_game) /\ In computer (Game.dice example_game)
           /\ Dice.same user computer = false
           /\ Dice.addr user <> Dice.addr computer
  | (Throw e, _) => e = TTY_UNAVAILABLE /\ tty (counting_world ["2"]) = false
  | (Exit code, _) => code = 0
  | (Blocked, w') => stdin w' = []
  end.
Proof.
  apply (selectDice_gives_two_dice example_game "user" (counting_world ["2"])).
  - cbn. repeat constructor; cbn; intuition discriminate.
  - cbn. lia.
Defined.

(** ** Game: from the first move to the throws *)

Section WholeGame.
Context {crypto : Crypto}.

(** How [DetermineFirstPlayer] can end. *)
Lemma DetermineFirstPlayer_outcome (this : Game.t) (w : World) :
  match Game.DetermineFirstPlayer this w with
  | (Normal firstPlayer, w') =>
      (firstPlayer = "user" \/ firstPlayer = "computer")
      /\ tty w = true /\ tty w' = tty w
  | (Throw e, w') =>
      e = TTY_UNAVAILABLE /\ tty w = false
      /\ w' = mkWorld (entropy w) (cursor w + 32 + 6) (stdin w) (tty w)
  | (Exit code, _) => code = 0
  | (Blocked, w') => stdin w' = []
  end.
Proof.
  unfold Game.DetermineFirstPlayer, bind.
  destruct (constructor_returns 1 w ltac:(lia)) as (g & ->).
  pose proof (prompt_outcome ["0"; "1"]
                (mkWorld (entropy w) (cursor w + 32 + 6) (stdin w) (tty w)))
    as Hp.
  destruct (Game.prompt ["0"; "1"] _) as [[userChoice|e|code|] w'];
    cbn [stdin entropy cursor tty] in Hp; try exact Hp.
  destruct Hp as (_ & Htty & _ & _ & Htty').
  destruct (parseInt userChoice 0) as [y|]; unfold lift, ret;
    cbn [FairRandomGenerator.computeResult];
    (split; [|split; assumption]); [|now right].
  destruct (y =? FairRandomGenerator.getX g); [now left|now right].
Qed.


(** How [performThrows] can end once both dice are chosen. *)
Lemma performThrows_outcome (this : Game.t) (user computer : Dice.t) (w : World) :
  Game.userDie this = Some user -> Game.computerDie this = Some computer ->
  rollable user -> rollable computer ->
  match Game.performThrows this w with
  | (Normal rolls, _) =>
      (exists face, Game.userRoll rolls = Some face /\ In face (Dice.faces user))
      /\ (exists face, Game.computerRoll rolls = Some face
                       /\ In face (Dice.faces computer))
  | (Throw e, _) => e = TTY_UNAVAILABLE /\ tty w = false
  | (Exit code, _) => code = 0
  | (Blocked, w') => stdin w' = []
  end.
Proof.
  intros Hu Hc Hru Hrc. unfold Game.performThrows. rewrite Hc, Hu. unfold bind.
  pose proof (performFairRoll_outcome _ w (rollable_max computer Hrc)) as H1.
  cbv zeta in H1.
  destruct (Game.performFairRoll (Dice.getFaceCount computer - 1) w)
    as [[r1|e1|code1|] w1]; try exact H1;
    [|destruct H1 as (He & Hno & _); now split].
  destruct H1 as ((y1 & Hy1 & ->) & _ & Htty & Htty1).
  pose proof (performFairRoll_outcome _ w1 (rollable_max user Hru)) as H2.
  cbv zeta in H2.
  destruct (Game.performFairRoll (Dice.getFaceCount user - 1) w1)
    as [[r2|e2|code2|] w2]; try exact H2;
    [|destruct H2 as (_ & Hno & _); congruence].
  destruct H2 as ((y2 & Hy2 & ->) & _).
  unfold ret. cbn [Game.userRoll Game.computerRoll].
  pose proof (rollable_max computer Hrc) as Hmc.
  pose proof (rollable_max user Hru) as Hmu.
  set (i1 := (_ + y1) mod (Dice.getFaceCount computer - 1 + 1)).
  set (i2 := (_ + y2) mod (Dice.getFaceCount user - 1 + 1)).
  assert (Hi1 : 0 <= i1 <= Dice.getFaceCount computer - 1).
  { subst i1. match goal with |- 0 <= ?a mod ?b <= _ =>
      pose proof (Z.mod_pos_bound a b) end. lia. }
  assert (Hi2 : 0 <= i2 <= Dice.getFaceCount user - 1).
  { subst i2. match goal with |- 0 <= ?a mod ?b <= _ =>
      pose proof (Z.mod_pos_bound a b) end. lia. }
  destruct (valid_index_in_range user i2 Hi2) as (f2 & Hf2).
  destruct (valid_index_in_range computer i1 Hi1) as (f1 & Hf1).
  rewrite Hf1, Hf2. split; eexists; (split; [reflexivity|]).
  - unfold index, of_Z in Hf2. rewrite this_of_Z in Hf2.
    cbn [inject_Z Qnum Qden] in Hf2.
    destruct ((1 =? 1)%positive && (0 <=? i2)); [|discriminate].
    now apply nth_error_In in Hf2.
  - unfold index, of_Z in Hf1. rewrite this_of_Z in Hf1.
    cbn [inject_Z Qnum Qden] in Hf1.
    destruct ((1 =? 1)%positive && (0 <=? i1)); [|discriminate].
    now apply nth_error_In in Hf1.
Qed.

(** Without a terminal the first prompt throws, once the commitment for
    the first move is drawn. *)
Lemma DetermineFirstPlayer_without_terminal (this : Game.t) (w : World) :
  tty w = false ->
  Game.DetermineFirstPlayer this w
  = (Throw TTY_UNAVAILABLE,
     mkWorld (entropy w) (cursor w + 32 + 6) (stdin w) (tty w)).
Proof.
  intros Hno. unfold Game.DetermineFirstPlayer, bind.
  destruct (constructor_returns 1 w ltac:(lia)) as (g & ->).
  unfold Game.prompt. cbn [tty]. now rewrite Hno.
Qed.

(** The three steps of a game, before [start] catches what they throw:
    with a terminal, nothing throws. *)
Lemma play_outcome (this : Game.t) (w : World) :
  NoDup (map Dice.addr (Game.dice this)) ->
  (2 <= List.length (Game.dice this))%nat ->
  Forall rollable (Game.dice this) ->
  tty w = true ->
  match (firstPlayer <- Game.DetermineFirstPlayer this ;;
         this' <- Game.selectDice this firstPlayer ;;
         rolls <- Game.performThrows this' ;;
         ret tt)%js w with
  | (Normal _, _) => True
  | (Throw _, _) => False
  | (Exit code, _) => code = 0
  | (Blocked, w') => stdin w' = []
  end.
Proof.
  intros Hnd Hlen Hroll Hyes. unfold bind.
  pose proof (DetermineFirstPlayer_outcome this w) as H1.
  destruct (Game.DetermineFirstPlayer this w) as [[firstPlayer|e|code|] w1];
    try exact H1; [|destruct H1 as (_ & Hno & _); congruence].
  destruct H1 as (_ & Htty & Htty1).
  pose proof (selectDice_outcome this firstPlayer w1 Hnd Hlen) as H2.
  destruct (Game.selectDice this firstPlayer w1) as [[this'|e|code|] w2];
    try exact H2; [|destruct H2 as (_ & Hno & _); congruence].
  destruct H2 as ((_ & user & computer & Hu & Hc & Hinu & Hinc & _)
                  & _ & _ & _ & Htty2).
  pose proof (performThrows_outcome this' user computer w2 Hu Hc
                (proj1 (Forall_forall _ _) Hroll user Hinu)
                (proj1 (Forall_forall _ _) Hroll computer Hinc)) as H3.
  destruct (Game.performThrows this' w2) as [[rolls|e|code|] w3];
    try exact H3; [exact I|destruct H3 as (_ & Hno); congruence].
Qed.

(** X20: on two or more distinct dice that can be rolled, [start] ends
    the process with the error code when there is no terminal to read
    the user's lines from, once the first commitment is drawn, and only
    then: with a terminal it plays to the end, leaves with code 0
    because the user typed the exit command, or waits for a line. *)
Theorem start_needs_terminal (this : Game.t) (w : World) :
  NoDup (map Dice.addr (Game.dice this)) ->
  (2 <= List.length (Game.dice this))%nat ->
  Forall rollable (Game.dice this) ->
  (tty w = false ->
   Game.start this w
   = (Exit 1, mkWorld (entropy w) (cursor w + 32 + 6) (stdin w) (tty w)))
  /\ (tty w = true ->
      match Game.start this w with
      | (Normal _, _) => True
      | (Throw _, _) => False
      | (Exit code, _) => code = 0
      | (Blocked, w') => stdin w' = []
      end).
Proof.
  intros Hnd Hlen Hroll. unfold Game.start. split.
  - intros Hno. unfold bind at 1.
    now rewrite (DetermineFirstPlayer_without_terminal this w Hno).
  - intros Hyes.
    pose proof (play_outcome this w Hnd Hlen Hroll Hyes) as Hplay.
    destruct ((firstPlayer <- Game.DetermineFirstPlayer this ;;
               this' <- Game.selectDice this firstPlayer ;;
               rolls <- Game.performThrows this' ;;
               ret tt)%js w) as [[u|e|code|] w'];
      try exact Hplay. contradiction.
Qed.

(** The dice [parseDice] returns can be played with, when no argument has
    more pieces than an array holds. *)
Lemma parsed_dice_playable (args : list string) (dice : list Dice.t) :
  DiceParser.parseDice args = Normal dice ->
  Forall (fun d => Dice.getFaceCount d <= 4294967295) dice ->
  NoDup (map Dice.addr dice) /\ (2 <= List.length dice)%nat /\ Forall rollable dice.
Proof.
  intros Hparse Hbound.
  pose proof (parseDice_addresses args dice Hparse) as Haddr.
  unfold DiceParser.parseDice in Hparse.
  destruct (Z.ltb_spec (Z.of_nat (List.length args)) 3) as [|Hlen]; [discriminate|].
  destruct (parse_args_appends args [] dice Hparse) as (added & -> & Hall & _).
  cbn [app] in *. pose proof (Forall2_length Hall) as Hsame.
  split; [rewrite Haddr; apply seq_NoDup|]. split; [lia|].
  apply Forall_forall. intros d Hd. split.
  - assert (Hfaces : (1 <= List.length (Dice.faces d))%nat).
    { clear - Hall Hd. induction Hall as [|arg e args added [_ He] _ IH];
        [destruct Hd|]. destruct Hd as [<-|Hd]; [exact He|now apply IH]. }
    destruct (Dice.faces d); [cbn in Hfaces; lia|discriminate].
  - revert d Hd. now apply Forall_forall.
Qed.

(** X21: the script ends with the error code when [parseDice] rejects the
    arguments behind the first two, before anything is read from the
    random source or the user, and when the process has no terminal,
    once the first commitment is drawn.  With a terminal and dice that
    [parseDice] accepts, of at most 2^32 - 1 faces each, it does not end
    with the error code: it plays to the end, leaves with code 0, or
    waits for a line. *)
Theorem main_outcome (argv : list string) (w : World) :
  match DiceParser.parseDice (skipn 2 argv) with
  | Normal dice =>
      Forall (fun d => Dice.getFaceCount d <= 4294967295) dice ->
      (tty w = false ->
       main argv w
       = (Exit 1, mkWorld (entropy w) (cursor w + 32 + 6) (stdin w) (tty w)))
      /\ (tty w = true ->
          match main argv w with
          | (Normal _, _) => True
          | (Throw _, _) => False
          | (Exit code, _) => code = 0
          | (Blocked, w') => stdin w' = []
          end)
  | _ => main argv w = (Exit 1, w)
  end.
Proof.
  unfold main.
  destruct (DiceParser.parseDice (skipn 2 argv)) as [dice|e|code|] eqn:Hparse.
  - intros Hbound.
    destruct (parsed_dice_playable _ dice Hparse Hbound) as (Hnd & Hlen & Hroll).
    assert (Hmany : (Z.of_nat (List.length (skipn 2 argv)) <? 3) = false).
    { unfold DiceParser.parseDice in Hparse.
      destruct (Z.of_nat (List.length (skipn 2 argv)) <? 3);
        [discriminate|reflexivity]. }
    rewrite Hmany. split.
    + intros Hno. unfold bind at 1. unfold lift, Game.start. unfold bind at 1.
      now rewrite (DetermineFirstPlayer_without_terminal _ w Hno).
    + intros Hyes. unfold bind at 1. unfold lift, Game.start.
      pose proof (play_outcome (Game.constructor dice) w Hnd Hlen Hroll Hyes)
        as Hplay.
      destruct ((firstPlayer <- Game.DetermineFirstPlayer (Game.constructor dice) ;;
                 this' <- Game.selectDice (Game.constructor dice) firstPlayer ;;
                 rolls <- Game.performThrows this' ;;
                 ret tt)%js w) as [[u|e|code|] w'];
        try exact Hplay. contradiction.
  - destruct (Z.of_nat (List.length (skipn 2 argv)) <? 3); reflexivity.
  - exfalso. unfold DiceParser.parseDice in Hparse.
    destruct (Z.of_nat (List.length (skipn 2 argv)) <? 3); [discriminate|].
    pose proof (parse_args_outcome (skipn 2 argv) []) as Ho.
    now rewrite Hparse in Ho.
  - exfalso. unfold DiceParser.parseDice in Hparse.
    destruct (Z.of_nat (List.length (skipn 2 argv)) <? 3); [discriminate|].
    pose proof (parse_args_outcome (skipn 2 argv) []) as Ho.
    now rewrite Hparse in Ho.
Qed.

End WholeGame.


Lemma start_needs_terminal_witness :
  @Game.start concat_crypto (Game.constructor [die_A; die_B; die_C]) detached_world
  = (Exit 1, mkWorld (entropy detached_world) (cursor detached_world + 32 + 6)
               (stdin detached_world) (tty detached_world))
  /\ match @Game.start concat_crypto (Game.constructor [die_A; die_B; die_C])
             (counting_world ["1"; "0"; "3"; "5"]) with
     | (Normal _, _) => True
     | (Throw _, _) => False
     | (Exit code, _) => code = 0
     | (Blocked, w') => stdin w' = []
     end.
Proof.
  assert (Hnd : NoDup (map Dice.addr (Game.dice (Game.constructor [die_A; die_B; die_C]))))
    by (cbn; repeat constructor; cbn; intuition discriminate).
  assert (Hlen : (2 <= List.length (Game.dice (Game.constructor [die_A; die_B; die_C])))%nat)
    by (cbn; lia).
  assert (Hroll : Forall rollable (Game.dice (Game.constructor [die_A; die_B; die_C])))
    by (repeat constructor; (discriminate || (vm_compute; discriminate))).
  split.
  - apply (proj1 (@start_needs_terminal concat_crypto _ detached_world
                    Hnd Hlen Hroll)).
    reflexivity.
  - apply (proj2 (@start_needs_terminal concat_crypto _
                    (counting_world ["1"; "0"; "3"; "5"]) Hnd Hlen Hroll)).
    reflexivity.
Defined.

Lemma main_outcome_witness :
  @main concat_crypto
     ["node"; "game.js"; "2,2,4,4,9,9"; "6,8,1,1,8,6"; "7,5,3,7,5,3"]
     detached_world
  = (Exit 1, mkWorld (entropy detached_world) (cursor detached_world + 32 + 6)
               (stdin detached_world) (tty detached_world))
  /\ match @main concat_crypto
             ["node"; "game.js"; "2,2,4,4,9,9"; "6,8,1,1,8,6"; "7,5,3,7,5,3"]
             (counting_world ["1"; "0"; "3"; "5"]) with
     | (Normal _, _) => True
     | (Throw _, _) => False
     | (Exit code, _) => code = 0
     | (Blocked, w') => stdin w' = []
     end.
Proof.
  assert (E : DiceParser.parseDice
                (skipn 2 ["node"; "game.js"; "2,2,4,4,9,9"; "6,8,1,1,8,6";
                          "7,5,3,7,5,3"])
              = Normal [die_A; die_B; die_C]) by (vm_compute; reflexivity).
  assert (Hbound : Forall (fun d => Dice.getFaceCount d <= 4294967295)
                     [die_A; die_B; die_C])
    by (repeat constructor; vm_compute; discriminate).
  split.
  - pose proof (@main_outcome concat_crypto
                  ["node"; "game.js"; "2,2,4,4,9,9"; "6,8,1,1,8,6"; "7,5,3,7,5,3"]
                  detached_world) as H.
    rewrite E in H. apply (proj1 (H Hbound)). reflexivity.
  - pose proof (@main_outcome concat_crypto
                  ["node"; "game.js"; "2,2,4,4,9,9"; "6,8,1,1,8,6"; "7,5,3,7,5,3"]
                  (counting_world ["1"; "0"; "3"; "5"])) as H.
    rewrite E in H. apply (proj2 (H Hbound)). reflexivity.
Defined.
